(** * Emmet abbreviation parser ([abbreviationParser2.js]): a shallow embedding

    The development follows the layout of the JavaScript module:
    character classes and regular expressions, the character cursor the
    parser consumes, the [AbbreviationNode] tree with its editing
    operations, the sub-parsers of a single token, the scan loop of
    [parseAbbreviation], and the two rewrite passes [unroll] and [squash]
    composed by [parse].

    Modelling conventions.
    - A JavaScript string is a list of characters ([list ascii]); a
      character is a code unit below 256.
    - Numbers ([counter], [repeatCount]) are integers ([Z]); [parseInt] is
      exact, which agrees with JavaScript up to 2^53 only.  Arrays are
      lists without the length limit 2^32 - 1.  Statements about counts
      carry these bounds as hypotheses.
    - [Object.prototype] is the one the engine creates: the one write of
      the module that changes it (an attribute named [__proto__]) is not
      followed, and statements about attribute lists exclude that name.
    - Every JavaScript object the parser allocates (a node, an attribute
      object) carries the identity it received from the allocator, a
      counter threaded through the code.  Two occurrences of the same
      identity are the same object, so sharing between subtrees is a
      statement about identities.
    - The [parent] back-reference is the position of a node in the tree; the
      context of the scan loop is a path along the last children.
    - A thrown exception is the outcome [Throw]; a JavaScript loop that makes
      no progress is the outcome [Diverge]. *)

From Stdlib Require Import Ascii String List ZArith Bool Arith Lia.
Import ListNotations.
Local Open Scope Z_scope.
Local Open Scope nat_scope.
Local Open Scope list_scope.

(** ** Characters and strings *)

Definition str := list ascii.

Definition lit (s : string) : str := list_ascii_of_string s.

Definition code (c : ascii) : nat := nat_of_ascii c.

Definition ch_eqb (a b : ascii) : bool := Ascii.eqb a b.

Fixpoint str_eqb (a b : str) : bool :=
  match a, b with
  | [], [] => true
  | x :: a', y :: b' => ch_eqb x y && str_eqb a' b'
  | _, _ => false
  end.

(** [s.indexOf(ch) != -1] for a one-character [ch]. *)
Definition mem_ch (c : ascii) (s : str) : bool := existsb (ch_eqb c) s.

Definition dquote : ascii := ascii_of_nat 34.
Definition squote : ascii := ascii_of_nat 39.
Definition backslash : ascii := ascii_of_nat 92.

Definition isUpper (c : ascii) : bool := (64 <? code c) && (code c <? 91).
Definition isLower (c : ascii) : bool := (96 <? code c) && (code c <? 123).
Definition isDigit (c : ascii) : bool := (47 <? code c) && (code c <? 58).

(** The class [\w] of JavaScript regular expressions. *)
Definition isWordChar (c : ascii) : bool :=
  isUpper c || isLower c || isDigit c || ch_eqb c "_".

(** The class [\s], restricted to code units below 256. *)
Definition isSpace (c : ascii) : bool :=
  ((8 <? code c) && (code c <? 14)) || (code c =? 32) || (code c =? 160).

(** [var reWord = /[\w\-:\$]/] *)
Definition reWord (c : ascii) : bool :=
  isWordChar c || mem_ch c (lit "-:$").

(** The character class of [reValidName]: [[\w\-\$\:@\!]]. *)
Definition isNameChar (c : ascii) : bool :=
  isWordChar c || mem_ch c (lit "-$:@!").

(** [var reValidName = /^[\w\-\$\:@\!]+\+?$/i]: a non-empty run of name
    characters, then at most one [+], then the end of the string. *)
Fixpoint reValidName_tail (s : str) : bool :=
  match s with
  | [] => true
  | c :: s' =>
      if isNameChar c then reValidName_tail s'
      else ch_eqb c "+" && match s' with [] => true | _ => false end
  end.

Definition reValidName (s : str) : bool :=
  match s with
  | c :: s' => isNameChar c && reValidName_tail s'
  | [] => false
  end.

(** [function isAllowedChar(ch)] *)
Definition isAllowedChar (ch : ascii) : bool :=
  let charCode := code ch in
  let specialChars := lit "#.*:$-_!@|" in
  ((64 <? charCode) && (charCode <? 91))
  || ((96 <? charCode) && (charCode <? 123))
  || ((47 <? charCode) && (charCode <? 58))
  || mem_ch ch specialChars.

(** [var pairs = {'[': ']', '(': ')', '{': '}'}] *)
Definition pairs (c : ascii) : ascii :=
  if ch_eqb c "[" then "]"%char
  else if ch_eqb c "(" then ")"%char
  else if ch_eqb c "{" then "}"%char
  else c.

(** [str.substring(1, str.length - 1)]; on a string of one character the
    arguments 1 and 0 are swapped, and the result is the string itself. *)
Definition stripped (s : str) : str :=
  match s with
  | [c] => [c]
  | _ => removelast (tl s)
  end.

(** [str.substring(a, b)] for [a <= b]. *)
Definition substring (a b : nat) (s : str) : str := firstn (b - a) (skipn a s).

(** Modelled from the spec: the string trim utility of the [utils] module,
    which trims leading and trailing whitespace from the raw abbreviation. *)
Fixpoint trimLeft (s : str) : str :=
  match s with
  | c :: s' => if isSpace c then trimLeft s' else s
  | [] => []
  end.

Definition trim (s : str) : str := rev (trimLeft (rev (trimLeft s))).

(** The length limit of an array, 2^32 - 1, and the largest integer up to
    which every integer is a Number, 2^53. *)
Definition maxArrayLength : Z := 4294967295.

Definition maxExactInteger : Z := 9007199254740992.

(** [parseInt(count, 10)] on a run of decimal digits: the integer the
    digits denote.  The Number the code gets is this integer up to
    [maxExactInteger]; a longer run is rounded, and is [Infinity] from 309
    digits on, which the model does not follow: statements about counts
    carry the bound. *)
Definition digitVal (c : ascii) : Z := Z.of_nat (code c - 48).

Definition parseInt (s : str) : Z :=
  fold_left (fun acc c => (10 * acc + digitVal c)%Z) s 0%Z.

(** ** Outcomes, errors and the allocator *)

Inductive error : Type :=
| InvalidAbbreviation
| NoMatchingPair (close : ascii) (at_pos : nat)
| InvalidAttributeValue
| InvalidAttributeSet
| EndlessLoop
| TypeError.

Inductive outcome (A : Type) : Type :=
| Ok (a : A)
| Throw (e : error)
| Diverge
| OutOfFuel.

Arguments Ok {A} a.
Arguments Throw {A} e.
Arguments Diverge {A}.
Arguments OutOfFuel {A}.

(** A computation that may allocate objects: it receives the next free
    identity and returns the next free identity after it. *)
Definition M (A : Type) : Type := nat -> outcome (A * nat).

Definition ret {A} (a : A) : M A := fun h => Ok (a, h).

Definition bind {A B} (m : M A) (f : A -> M B) : M B :=
  fun h =>
    match m h with
    | Ok (a, h') => f a h'
    | Throw e => Throw e
    | Diverge => Diverge
    | OutOfFuel => OutOfFuel
    end.

Definition throw {A} (e : error) : M A := fun _ => Throw e.

Definition fresh : M nat := fun h => Ok (h, S h).

Declare Scope m_scope.
Delimit Scope m_scope with M.
Notation "x <- c1 ;; c2" := (bind c1 (fun x => c2))
  (at level 61, c1 at next level, right associativity) : m_scope.
Notation "' pat <- c1 ;; c2" := (bind c1 (fun x => match x with pat => c2 end))
  (at level 61, pat pattern, c1 at next level, right associativity) : m_scope.
Local Open Scope m_scope.

(** [_.map(list, f)] for an allocating [f], left to right. *)
Fixpoint mapM {A B} (f : A -> M B) (l : list A) : M (list B) :=
  match l with
  | [] => ret []
  | a :: l' => b <- f a ;; bs <- mapM f l' ;; ret (b :: bs)
  end.

(** ** The character cursor ([stringStream]) *)

Record StringStream : Type := mkStream {
  text : str;
  pos : nat;
  start : nat
}.

(** Modelled from the spec: the cursor is constructed from a string. *)
Definition create (s : str) : StringStream := mkStream s 0 0.

Definition set_pos (s : StringStream) (p : nat) : StringStream :=
  mkStream (text s) p (start s).

(** [stream.start = stream.pos] *)
Definition mark (s : StringStream) : StringStream :=
  mkStream (text s) (pos s) (pos s).

(** Modelled from the spec: [eol] tells whether the cursor is at the end. *)
Definition eol (s : StringStream) : bool := length (text s) <=? pos s.

(** Modelled from the spec: [peek] is the current character, or the end
    marker. *)
Definition peek (s : StringStream) : option ascii := nth_error (text s) (pos s).

(** Modelled from the spec: [next] consumes and returns the current
    character; at the end it returns the end marker and stays. *)
Definition next (s : StringStream) : option ascii * StringStream :=
  match peek s with
  | Some c => (Some c, set_pos s (S (pos s)))
  | None => (None, s)
  end.

(** Modelled from the spec: [backUp(n)] rewinds [n] characters. *)
Definition backUp (n : nat) (s : StringStream) : StringStream :=
  set_pos s (pos s - n).

(** Modelled from the spec: [current()] is the substring from the marked
    start to the current position. *)
Definition current (s : StringStream) : str := substring (start s) (pos s) (text s).

(** Modelled from the spec: [skipToPair(open, close)], with the cursor at
    [open], advances past the matching balanced [close], honoring nested
    pairs of the same kind, and returns false (leaving the cursor) if no
    match is found before the end.  [braceCount] is the nesting depth and
    [p] the index of the head of [l]. *)
Fixpoint skipToPair_scan (open close : ascii) (l : str) (braceCount p : nat)
  : option nat :=
  match l with
  | [] => None
  | ch :: l' =>
      if ch_eqb ch open then skipToPair_scan open close l' (S braceCount) (S p)
      else if ch_eqb ch close then
        if braceCount <=? 1 then Some (S p)
        else skipToPair_scan open close l' (braceCount - 1) (S p)
      else skipToPair_scan open close l' braceCount (S p)
  end.

Definition skipToPair (open close : ascii) (s : StringStream)
  : bool * StringStream :=
  match skipToPair_scan open close (skipn (pos s) (text s)) 0 (pos s) with
  | Some p => (true, set_pos s p)
  | None => (false, s)
  end.

(** Modelled from the spec: [eatWhile(predicate)] consumes a maximal run
    matching the predicate and returns whether anything was consumed.  The
    predicate is a callback that may itself move the cursor or throw; the
    cursor advances by one character after each accepted call.  The loop
    runs on the number of characters left. *)
Fixpoint eatWhile_loop (fuel : nat)
    (f : ascii -> StringStream -> outcome (bool * StringStream))
    (s : StringStream) : outcome StringStream :=
  match peek s with
  | None => Ok s
  | Some c =>
      match f c s with
      | Ok (true, s') =>
          match fuel with
          | S fuel' => eatWhile_loop fuel' f (set_pos s' (S (pos s')))
          | O => OutOfFuel
          end
      | Ok (false, s') => Ok s'
      | Throw e => Throw e
      | Diverge => Diverge
      | OutOfFuel => OutOfFuel
      end
  end.

Definition eatWhileFn
    (f : ascii -> StringStream -> outcome (bool * StringStream))
    (s : StringStream) : outcome (bool * StringStream) :=
  match eatWhile_loop (length (text s) - pos s) f s with
  | Ok s' => Ok (pos s <? pos s', s')
  | Throw e => Throw e
  | Diverge => Diverge
  | OutOfFuel => OutOfFuel
  end.

(** [eatWhile] with a regular expression of one character class. *)
Fixpoint eatRun (f : ascii -> bool) (l : str) : nat :=
  match l with
  | c :: l' => if f c then S (eatRun f l') else 0
  | [] => 0
  end.

Definition eatWhile (f : ascii -> bool) (s : StringStream)
  : bool * StringStream :=
  let n := eatRun f (skipn (pos s) (text s)) in
  (0 <? n, set_pos s (pos s + n)).

(** Modelled from the spec: [eatSpace] consumes a run of whitespace. *)
Definition eatSpace (s : StringStream) : StringStream :=
  snd (eatWhile isSpace s).

(** Modelled from the spec: [match(regex, consume)] for the multiplier
    pattern [/^\*(\d+)?/] with [consume = true]: the outer option is the
    match, the inner one the captured digits. *)
Definition match_multiplier (s : StringStream)
  : option (option str) * StringStream :=
  match skipn (pos s) (text s) with
  | c :: l =>
      if ch_eqb c "*" then
        let n := eatRun isDigit l in
        (Some (match n with O => None | _ => Some (firstn n l) end),
         set_pos s (pos s + 1 + n))
      else (None, s)
  | [] => (None, s)
  end.

(** ** The abbreviation tree *)

(** An attribute object [{name: ..., value: ...}]. *)
Record attr : Type := mkAttr {
  attr_oid : nat;
  attr_name : str;
  attr_value : str
}.

(** Modelled from the spec: a value of the auxiliary data dictionary is a
    reference to an external object; the resource resolver attaches a
    descriptor exposing a canonical name and a list of default attributes,
    for which [require('elements').is(res, 'element')] holds.  [ref] is
    the identity of the external object. *)
Inductive dataValue : Type :=
| Element (ref : nat) (el_name : str) (el_attributes : list attr)
| Opaque (ref : nat).

(** The own fields of an [AbbreviationNode].  [node_start] and
    [node_end] are the output properties [start] and [end]; the parser
    never writes them or [padding], and a node gets them as empty
    strings from the constructor.  The numbers [counter] and
    [repeatCount] are integers: the model covers the numbers that a
    Number holds exactly, up to 2^53. *)
Record props : Type := mkProps {
  oid : nat;
  _attributes : list attr;
  abbreviation : str;
  counter : Z;
  _name : option str;
  _text : str;
  repeatCount : Z;
  hasImplicitRepeat : bool;
  _data : list (str * dataValue);
  node_start : str;
  node_end : str;
  padding : str
}.

#[warnings="-register-all"]
Inductive node : Type :=
| Node (p : props) (cs : list node).

Definition info (n : node) : props := match n with Node p _ => p end.
Definition children (n : node) : list node := match n with Node _ cs => cs end.

Definition set_info (f : props -> props) (n : node) : node :=
  match n with Node p cs => Node (f p) cs end.

Definition set_children (cs : list node) (n : node) : node :=
  match n with Node p _ => Node p cs end.

Definition set_counter (v : Z) (p : props) : props :=
  mkProps (oid p) (_attributes p) (abbreviation p) v (_name p) (_text p)
          (repeatCount p) (hasImplicitRepeat p) (_data p)
          (node_start p) (node_end p) (padding p).

Definition set_repeatCount (v : Z) (p : props) : props :=
  mkProps (oid p) (_attributes p) (abbreviation p) (counter p) (_name p)
          (_text p) v (hasImplicitRepeat p) (_data p)
          (node_start p) (node_end p) (padding p).

Definition set_hasImplicitRepeat (v : bool) (p : props) : props :=
  mkProps (oid p) (_attributes p) (abbreviation p) (counter p) (_name p)
          (_text p) (repeatCount p) v (_data p)
          (node_start p) (node_end p) (padding p).

Definition set_abbreviation (v : str) (p : props) : props :=
  mkProps (oid p) (_attributes p) v (counter p) (_name p) (_text p)
          (repeatCount p) (hasImplicitRepeat p) (_data p)
          (node_start p) (node_end p) (padding p).

Definition set_text (v : str) (p : props) : props :=
  mkProps (oid p) (_attributes p) (abbreviation p) (counter p) (_name p) v
          (repeatCount p) (hasImplicitRepeat p) (_data p)
          (node_start p) (node_end p) (padding p).

Definition set_attributes (v : list attr) (p : props) : props :=
  mkProps (oid p) v (abbreviation p) (counter p) (_name p) (_text p)
          (repeatCount p) (hasImplicitRepeat p) (_data p)
          (node_start p) (node_end p) (padding p).

Definition set_name (v : option str) (p : props) : props :=
  mkProps (oid p) (_attributes p) (abbreviation p) (counter p) v (_text p)
          (repeatCount p) (hasImplicitRepeat p) (_data p)
          (node_start p) (node_end p) (padding p).

(** [function AbbreviationNode(parent)]: the constructor's defaults. *)
Definition newProps (o : nat) : props :=
  mkProps o [] [] 1%Z None [] 1%Z false [] [] [] [].

Definition newAbbreviationNode : M node :=
  o <- fresh ;; ret (Node (newProps o) []).

(** [Array.prototype.splice(position, deleteCount, items...)] *)
Definition splice {A} (position deleteCount : nat) (items l : list A) : list A :=
  firstn position l ++ items ++ skipn (position + deleteCount) l.

(** [addChild: function(child, position)] with a child given. *)
Definition addChild (child : node) (position : option nat) (this : node) : node :=
  match position with
  | None => set_children (children this ++ [child]) this
  | Some i => set_children (splice i 0 [child] (children this)) this
  end.

(** [_.clone(attr)]: a new object with the same fields. *)
Definition clone_attr (a : attr) : M attr :=
  o <- fresh ;; ret (mkAttr o (attr_name a) (attr_value a)).

(** [clone: function()].  The new node is allocated first, then the
    attribute objects, then the children; the data dictionary is copied
    entry by entry, its values by reference.  The output properties are
    not among the copied fields: the clone keeps the empty strings of the
    constructor. *)
Fixpoint clone (this : node) : M node :=
  match this with
  | Node p cs =>
      o <- fresh ;;
      attrs <- mapM clone_attr (_attributes p) ;;
      kids <- (fix clone_each (l : list node) : M (list node) :=
                 match l with
                 | [] => ret []
                 | child :: l' =>
                     c <- clone child ;; r <- clone_each l' ;; ret (c :: r)
                 end) cs ;;
      ret (Node (mkProps o attrs (abbreviation p) (counter p) (_name p)
                         (_text p) (repeatCount p) (hasImplicitRepeat p)
                         (_data p) [] [] []) kids)
  end.

(** [_.without(list, item)]: the elements that are not the object [item]. *)
Definition without (l : list node) (item : node) : list node :=
  filter (fun c => negb (oid (info c) =? oid (info item))) l.

(** [_.indexOf(list, item)]: the first index holding the object [item]. *)
Fixpoint indexOf (l : list node) (item : node) : option nat :=
  match l with
  | [] => None
  | c :: l' =>
      if oid (info c) =? oid (info item) then Some 0
      else option_map S (indexOf l' item)
  end.

(** [remove: function()], as its effect on the parent. *)
Definition remove (this parent : node) : node :=
  set_children (without (children parent) this) parent.

(** [replace: function()], as its effect on the parent; a missing [this]
    gives the index -1, which [splice] counts from the end. *)
Definition replace (this : node) (items : list node) (parent : node) : node :=
  let ix := match indexOf (children parent) this with
            | Some i => i
            | None => length (children parent) - 1
            end in
  set_children (splice ix 1 items (children parent)) parent.

(** [updateProperty: function(name, value)]: [f] sets the property. *)
Fixpoint updateProperty (f : props -> props) (this : node) : node :=
  match this with
  | Node p cs => Node (f p) (map (updateProperty f) cs)
  end.

(** [data: function(name)], the getter. *)
Fixpoint data (name : str) (d : list (str * dataValue)) : option dataValue :=
  match d with
  | [] => None
  | (k, v) :: d' => if str_eqb k name then Some v else data name d'
  end.

(** [matchedResource: function()] *)
Definition matchedResource (this : node) : option dataValue :=
  data (lit "resource") (_data (info this)).

(** [_setRepeat: function(count)]; [count] is a captured digit run or
    undefined, and [parseInt(count, 10) || 1] turns 0 into 1. *)
Definition _setRepeat (count : option str) (p : props) : props :=
  match count with
  | Some (d :: digits) =>
      let n := parseInt (d :: digits) in
      set_repeatCount (if (n =? 0)%Z then 1%Z else n) p
  | _ => set_hasImplicitRepeat true p
  end.

(** [isGroup: function()] *)
Definition isGroup (this : node) : bool :=
  match abbreviation (info this) with [] => true | _ => false end.

(** [isEmpty: function()] *)
Definition isEmpty (this : node) : bool :=
  isGroup this && match children this with [] => true | _ => false end.

(** [isRepeating: function()] *)
Definition isRepeating (this : node) : bool :=
  (1 <? repeatCount (info this))%Z || hasImplicitRepeat (info this).

(** ** Attributes *)

Definition toLowerCase (s : str) : str :=
  map (fun c => if isUpper c then ascii_of_nat (code c + 32) else c) s.

(** The property names every object inherits from [Object.prototype]; the
    [in] operator finds them in the empty [lookup] object, and the write
    [la.value = ...] then lands on the inherited object, not on an
    attribute. *)
Definition objectPrototypeKeys : list str :=
  map lit ["constructor"; "toString"; "toLocaleString"; "valueOf";
           "hasOwnProperty"; "isPrototypeOf"; "propertyIsEnumerable";
           "__proto__"; "__defineGetter__"; "__defineSetter__";
           "__lookupGetter__"; "__lookupSetter__"]%string.

Definition has_name (name : str) (l : list attr) : bool :=
  existsb (fun a => str_eqb (attr_name a) name) l.

(** The update of [la = lookup[attr.name]] by a later attribute of the
    same name. *)
Definition merge_attr (la a : attr) : attr :=
  if str_eqb (toLowerCase (attr_name a)) (lit "class") then
    mkAttr (attr_oid la) (attr_name la)
           (attr_value la
            ++ (match attr_value la with [] => [] | _ => lit " " end)
            ++ attr_value a)
  else mkAttr (attr_oid la) (attr_name la) (attr_value a).

(** The [_.filter] of [optimizeAttributes]; [kept] holds the attributes
    recorded in [lookup], in order.  The inherited names are those of
    [Object.prototype] as the engine creates it.  For the name
    [__proto__] the inherited object is [Object.prototype] itself, and
    the write [la.value = ...] gives every object a property [value] from
    then on; the model does not follow this change: statements about
    [optimizeAttributes] exclude an attribute of that name. *)
Fixpoint optimize_filter (l kept : list attr) : list attr :=
  match l with
  | [] => kept
  | a :: l' =>
      if existsb (str_eqb (attr_name a)) objectPrototypeKeys then
        optimize_filter l' kept
      else if has_name (attr_name a) kept then
        optimize_filter l'
          (map (fun la => if str_eqb (attr_name la) (attr_name a)
                          then merge_attr la a else la) kept)
      else optimize_filter l' (kept ++ [a])
  end.

(** [function optimizeAttributes(attrs)] *)
Definition optimizeAttributes (attrs : list attr) : M (list attr) :=
  attrs' <- mapM clone_attr attrs ;;
  ret (optimize_filter attrs' []).

(** [name: function()] *)
Definition name (this : node) : option str :=
  match matchedResource this with
  | Some (Element _ n _) => Some n
  | _ => _name (info this)
  end.

(** [attributeList: function()] *)
Definition attributeList (this : node) : M (list attr) :=
  let attrs := match matchedResource this with
               | Some (Element _ _ res_attrs) => res_attrs
               | _ => []
               end in
  optimizeAttributes (attrs ++ _attributes (info this)).

(** [attribute: function(name)]: [(_.find(...) || {}).name]. *)
Definition attribute (this : node) (name : str) : M (option str) :=
  l <- attributeList this ;;
  ret (match find (fun a => str_eqb (attr_name a) name) l with
       | Some a => Some (attr_name a)
       | None => None
       end).

(** ** Sub-parsers of one token *)

(** [function consumeQuotedValue(stream, quote)]: [p] is the index of the
    head of [l]; a backslash is read like any other character. *)
Fixpoint consumeQuotedValue_scan (quote : ascii) (l : str) (p : nat) : bool * nat :=
  match l with
  | [] => (false, p)
  | ch :: l' =>
      if ch_eqb ch quote then (true, S p)
      else if ch_eqb ch backslash then consumeQuotedValue_scan quote l' (S p)
      else consumeQuotedValue_scan quote l' (S p)
  end.

Definition consumeQuotedValue (stream : StringStream) (quote : ascii)
  : bool * StringStream :=
  let '(found, p) :=
    consumeQuotedValue_scan quote (skipn (pos stream) (text stream)) (pos stream) in
  (found, set_pos stream p).

(** The value after [=] in [extractAttributes]. *)
Definition attributeValue (stream : StringStream) : outcome (str * StringStream) :=
  let stream := mark stream in
  let '(quote, stream) := next stream in
  let quoted :=
    match quote with
    | Some q =>
        if ch_eqb q dquote || ch_eqb q squote
        then Some (consumeQuotedValue stream q) else None
    | None => None
    end in
  match quoted with
  | Some (true, stream) =>
      let attrValue := current stream in
      Ok (substring 1 (length attrValue - 1) attrValue, stream)
  | other =>
      let stream := match other with Some (_, s) => s | None => stream end in
      let '(ate, stream) := eatWhile reWord stream in
      if ate then Ok (current stream, stream) else Throw InvalidAttributeValue
  end.

(** The [while (!stream.eol())] loop of [extractAttributes]; every round
    consumes a character or leaves the loop. *)
Fixpoint extractAttributes_loop (fuel : nat) (stream : StringStream)
    (result : list attr) : M (list attr) :=
  if eol stream then ret result
  else
    let stream := mark stream in
    let '(ate, stream) := eatWhile reWord stream in
    if ate then
      let attrName := current stream in
      fun h =>
        match (if match peek stream with
                  | Some c => ch_eqb c "="
                  | None => false
                  end
               then attributeValue (snd (next stream))
               else Ok ([], stream)) with
        | Ok (attrValue, stream) =>
            match fuel with
            | S fuel' =>
                (o <- fresh ;;
                 extractAttributes_loop fuel' (eatSpace stream)
                   (result ++ [mkAttr o attrName attrValue])) h
            | O => OutOfFuel
            end
        | Throw e => Throw e
        | Diverge => Diverge
        | OutOfFuel => OutOfFuel
        end
    else ret result.

(** [function extractAttributes(attrSet, attrs)] *)
Definition extractAttributes (attrSet : str) : M (list attr) :=
  let attrSet := trim attrSet in
  let stream := eatSpace (create attrSet) in
  extractAttributes_loop (length attrSet) stream [].

(** The [while (!stream.eol())] loop of [parseAttributes]. *)
Fixpoint parseAttributes_loop (fuel : nat) (stream : StringStream)
    (result : list attr) (nameEnd : option nat) : M (list attr * option nat) :=
  match peek stream with
  | None => ret (result, nameEnd)
  | Some c =>
      match fuel with
      | O => fun _ => OutOfFuel
      | S fuel' =>
          if ch_eqb c "#" || ch_eqb c "." then
            let nameEnd := match nameEnd with
                           | None => Some (pos stream)
                           | Some _ => nameEnd
                           end in
            let attrName := if ch_eqb c "#" then lit "id" else lit "class" in
            let stream := mark (snd (next stream)) in
            let stream := snd (eatWhile reWord stream) in
            o <- fresh ;;
            parseAttributes_loop fuel' stream
              (result ++ [mkAttr o attrName (current stream)]) nameEnd
          else if ch_eqb c "[" then
            let nameEnd := match nameEnd with
                           | None => Some (pos stream)
                           | Some _ => nameEnd
                           end in
            let stream := mark stream in
            let '(found, stream) := skipToPair "[" "]" stream in
            if found then
              attrs <- extractAttributes (stripped (current stream)) ;;
              parseAttributes_loop fuel' stream (result ++ attrs) nameEnd
            else throw InvalidAttributeSet
          else parseAttributes_loop fuel' (snd (next stream)) result nameEnd
      end
  end.

(** [function parseAttributes(abbr)]: [None] is [null]. *)
Definition parseAttributes (abbr : str) : M (option (str * list attr)) :=
  '(result, nameEnd) <- parseAttributes_loop (length abbr) (create abbr) [] None ;;
  match result with
  | [] => ret None
  | _ =>
      attributes <- optimizeAttributes result ;;
      ret (Some (substring 0 (match nameEnd with Some e => e | None => 0 end) abbr,
                 attributes))
  end.

(** The [while (!stream.eol())] loop of [extractText].  The result of
    [skipToPair] is not inspected: on an unmatched [[] or [(] the cursor
    stays and the loop never ends. *)
Fixpoint extractText_loop (fuel : nat) (abbr : str) (stream : StringStream)
  : outcome (option (str * str)) :=
  match peek stream with
  | None => Ok None
  | Some c =>
      if ch_eqb c "[" || ch_eqb c "(" then
        let '(found, stream) := skipToPair c (pairs c) stream in
        if found then
          match fuel with
          | S fuel' => extractText_loop fuel' abbr stream
          | O => OutOfFuel
          end
        else Diverge
      else if ch_eqb c "{" then
        let stream := mark stream in
        let stream := snd (skipToPair "{" "}" stream) in
        Ok (Some (substring 0 (start stream) abbr, stripped (current stream)))
      else
        match fuel with
        | S fuel' => extractText_loop fuel' abbr (snd (next stream))
        | O => OutOfFuel
        end
  end.

(** [function extractText(abbr)]: [None] is [null] or [undefined]. *)
Definition extractText (abbr : str) : outcome (option (str * str)) :=
  if negb (mem_ch "{" abbr) then Ok None
  else extractText_loop (length abbr) abbr (create abbr).

(** The match of [/\*(\d+)?$/] in [abbr.replace]: the leftmost [*] followed
    by digits only up to the end; the result is the text before the match
    and the digits. *)
Fixpoint findMultiplier (abbr : str) : option (str * str) :=
  match abbr with
  | [] => None
  | c :: abbr' =>
      if ch_eqb c "*" && forallb isDigit abbr' then Some ([], abbr')
      else match findMultiplier abbr' with
           | Some (before, digits) => Some (c :: before, digits)
           | None => None
           end
  end.

(** [setAbbreviation: function(abbr)], as a transformer of the node's own
    fields. *)
Definition setAbbreviation (abbr : str) (this : props) : M props :=
  let '(abbr, this) :=
    match findMultiplier abbr with
    | Some (before, digits) =>
        (before, _setRepeat (match digits with [] => None | _ => Some digits end) this)
    | None => (abbr, this)
    end in
  let this := set_abbreviation abbr this in
  fun h =>
    match extractText abbr with
    | Ok abbrText =>
        (let '(abbr, this) :=
           match abbrText with
           | Some (element, text) => (element, set_text text this)
           | None => (abbr, this)
           end in
         abbrAttrs <- parseAttributes abbr ;;
         let '(abbr, this) :=
           match abbrAttrs with
           | Some (element, attributes) => (element, set_attributes attributes this)
           | None => (abbr, this)
           end in
         let this := set_name (Some abbr) this in
         match abbr with
         | _ :: _ => if reValidName abbr then ret this else throw InvalidAbbreviation
         | [] => ret this
         end) h
    | Throw e => Throw e
    | Diverge => Diverge
    | OutOfFuel => OutOfFuel
    end.

(** ** The scan loop of [parseAbbreviation] *)

(** The tree under construction.  [context] is always the last child of
    its parent, so the path from the root to the context runs along last
    children: [ancestors] lists [context.parent], its parent, and so on up
    to the root, each without the child on the path, which is appended
    when the tree is closed. *)
Record scanState : Type := mkState {
  stream : StringStream;
  context : node;
  ancestors : list node
}.

(** The node a scan returns: the root with the path closed. *)
Fixpoint closeTree (context : node) (ancestors : list node) : node :=
  match ancestors with
  | [] => context
  | parent :: up => closeTree (addChild context None parent) up
  end.

(** The callback of [stream.eatWhile] in the default case. *)
Definition tokenChar (c : ascii) (stream : StringStream)
  : outcome (bool * StringStream) :=
  if ch_eqb c "[" || ch_eqb c "{" then
    let '(found, stream') := skipToPair c (pairs c) stream in
    if found then Ok (true, backUp 1 stream')
    else Throw (NoMatchingPair (pairs c) (pos stream))
  else if ch_eqb c "+" then
    let stream := snd (next stream) in
    let isMarker := eol stream
                    || match peek stream with
                       | Some d => mem_ch d (lit "+>^*")
                       | None => false
                       end in
    Ok (isMarker, backUp 1 stream)
  else Ok (negb (ch_eqb c "(") && isAllowedChar c, stream).

Section ScanLoop.

(** The recursive call [parseAbbreviation(stripped(stream.current()))]. *)
Variable parseInner : str -> M node.

(** One round of [while (!stream.eol() && --loopProtector > 0)]. *)
Definition scanStep (st : scanState) : M scanState :=
  let '(mkState stream context ancestors) := st in
  match peek stream with
  | None => ret st
  | Some ch =>
      if ch_eqb ch "(" then
        let stream := mark stream in
        let '(found, stream) := skipToPair "(" ")" stream in
        if found then
          inner <- parseInner (stripped (current stream)) ;;
          let '(multiplier, stream) := match_multiplier stream in
          let context := match multiplier with
                         | Some count => set_info (_setRepeat count) context
                         | None => context
                         end in
          let context := fold_left (fun this child => addChild child None this)
                                   (children inner) context in
          ret (mkState stream context ancestors)
        else throw (NoMatchingPair ")" (pos stream))
      else if ch_eqb ch ">" then
        child <- newAbbreviationNode ;;
        ret (mkState (snd (next stream)) child (context :: ancestors))
      else if ch_eqb ch "+" then
        match ancestors with
        | parent :: up =>
            child <- newAbbreviationNode ;;
            ret (mkState (snd (next stream)) child
                         (addChild context None parent :: up))
        | [] => throw TypeError
        end
      else if ch_eqb ch "^" then
        child <- newAbbreviationNode ;;
        match ancestors with
        | parent :: grand :: up =>
            ret (mkState (snd (next stream)) child
                   (addChild (addChild context None parent) None grand :: up))
        | [parent] =>
            ret (mkState (snd (next stream)) child
                   [addChild context None parent])
        | [] => ret (mkState (snd (next stream)) child [context])
        end
      else
        let stream := mark stream in
        fun h =>
          match eatWhileFn tokenChar stream with
          | Ok (_, stream) =>
              (p <- setAbbreviation (current stream) (info context) ;;
               ret (mkState (mark stream) (set_info (fun _ => p) context)
                            ancestors)) h
          | Throw e => Throw e
          | Diverge => Diverge
          | OutOfFuel => OutOfFuel
          end
  end.

(** The [while] loop; its result is the final [loopProtector] and state. *)
Fixpoint scanLoop (loopProtector : nat) (st : scanState) : M (nat * scanState) :=
  if eol (stream st) then ret (loopProtector, st)
  else
    match loopProtector with
    | S ((S _) as decremented) =>
        st' <- scanStep st ;; scanLoop decremented st'
    | _ => ret (loopProtector - 1, st)
    end.

End ScanLoop.

(** [function parseAbbreviation(abbr)]; [fuel] bounds the nesting of
    groups. *)
Fixpoint parseAbbreviation_rec (fuel : nat) (abbr : str) : M node :=
  match fuel with
  | O => fun _ => OutOfFuel
  | S fuel' =>
      let abbr := trim abbr in
      root <- newAbbreviationNode ;;
      child <- newAbbreviationNode ;;
      '(loopProtector, st) <-
        scanLoop (parseAbbreviation_rec fuel') 1000
                 (mkState (create abbr) child [root]) ;;
      if loopProtector <? 1 then throw EndlessLoop
      else ret (closeTree (context st) (ancestors st))
  end.

Definition parseAbbreviation (abbr : str) : M node :=
  parseAbbreviation_rec (S (length abbr)) abbr.

(** ** The rewrite passes *)

Fixpoint height (n : node) : nat :=
  match n with
  | Node _ cs => fold_right (fun c h => Nat.max (S (height c)) h) 0 cs
  end.

(** [node.children[i] = child] *)
Fixpoint set_nth {A} (i : nat) (x : A) (l : list A) : list A :=
  match l, i with
  | [], _ => []
  | _ :: l', O => x :: l'
  | y :: l', S i' => y :: set_nth i' x l'
  end.

(** The [while (--j > 0)] loop of [unroll]: every round inserts a clone of
    [child] at index [i + 1] of the children of [node].  [j] is an
    integer, for which the loop counts down and ends; the model does not
    follow a count that is no exact integer ([Infinity]) nor an array
    grown past [maxArrayLength]. *)
Fixpoint unroll_while (fuel : nat) (j : Z) (child : node) (i : nat) (nd : node)
  : M node :=
  let j := (j - 1)%Z in
  if (0 <? j)%Z then
    match fuel with
    | S fuel' =>
        c <- clone child ;;
        unroll_while fuel' j child i
          (addChild (updateProperty (set_counter (j + 1)) c) (Some (i + 1)) nd)
    | O => fun _ => OutOfFuel
    end
  else ret nd.

(** The [for (i = node.children.length - 1; i >= 0; i--)] loop of [unroll],
    with [count = i + 1]. *)
Fixpoint unroll_for (count : nat) (nd : node) : M node :=
  match count with
  | O => ret nd
  | S i =>
      match nth_error (children nd) i with
      | Some child =>
          if isRepeating child then
            let j := repeatCount (info child) in
            let child := set_info (set_repeatCount 1) child in
            let child := updateProperty (set_counter 1) child in
            let nd := set_children (set_nth i child (children nd)) nd in
            nd' <- unroll_while (Z.to_nat j) j child i nd ;;
            unroll_for i nd'
          else unroll_for i nd
      | None => unroll_for i nd
      end
  end.

(** [function unroll(node)]; [fuel] bounds the depth of the recursion. *)
Fixpoint unroll_rec (fuel : nat) (nd : node) : M node :=
  match fuel with
  | O => fun _ => OutOfFuel
  | S fuel' =>
      nd' <- unroll_for (length (children nd)) nd ;;
      kids <- mapM (unroll_rec fuel') (children nd') ;;
      ret (set_children kids nd')
  end.

Definition unroll (nd : node) : M node := unroll_rec (S (height nd)) nd.

(** The [for] loop of [squash], with [count = i + 1]. *)
Fixpoint squash_for (count : nat) (nd : node) : node :=
  match count with
  | O => nd
  | S i =>
      match nth_error (children nd) i with
      | Some n =>
          if isGroup n then squash_for i (replace n (children n) nd)
          else if isEmpty n then squash_for i (remove n nd)
          else squash_for i nd
      | None => squash_for i nd
      end
  end.

(** [function squash(node)]; [fuel] bounds the depth of the recursion. *)
Fixpoint squash_rec (fuel : nat) (nd : node) : node :=
  match fuel with
  | O => nd
  | S fuel' =>
      let nd' := squash_for (length (children nd)) nd in
      set_children (map (squash_rec fuel') (children nd')) nd'
  end.

Definition squash (nd : node) : node := squash_rec (S (height nd)) nd.

(** ** The entry point *)

(** A pre- or postprocessor [fn(tree, options)] works on the tree in
    place. *)
Definition processor (options : Type) : Type := node -> options -> M node.

(** The registries [preprocessors] and [postprocessors] of the module. *)
Record registry (options : Type) : Type := mkRegistry {
  preprocessors : list (processor options);
  postprocessors : list (processor options)
}.

Arguments mkRegistry {options} _ _.
Arguments preprocessors {options} _.
Arguments postprocessors {options} _.

(** The registries as the module creates them. *)
Definition initialRegistry : registry unit := mkRegistry [] [].

Fixpoint applyEach {options} (fns : list (processor options)) (tree : node)
    (opts : options) : M node :=
  match fns with
  | [] => ret tree
  | fn :: fns' => tree' <- fn tree opts ;; applyEach fns' tree' opts
  end.

(** [parse: function(abbr, options)] *)
Definition parse {options} (reg : registry options) (abbr : str) (opts : options)
  : M node :=
  tree <- parseAbbreviation abbr ;;
  tree <- applyEach (preprocessors reg) tree opts ;;
  tree <- unroll tree ;;
  let tree := squash tree in
  tree <- applyEach (postprocessors reg) tree opts ;;
  ret tree.

(** ** Observations on trees *)

(** The content of a tree without identities: abbreviation, name,
    attributes, counter and children of every node. *)
#[warnings="-register-all"]
Inductive view : Type :=
| View (abbr : string) (name : option string) (attrs : list (string * string))
       (count : Z) (cs : list view).

Fixpoint viewOf (n : node) : view :=
  match n with
  | Node p cs =>
      View (string_of_list_ascii (abbreviation p))
           (option_map string_of_list_ascii (_name p))
           (map (fun a => (string_of_list_ascii (attr_name a),
                           string_of_list_ascii (attr_value a)))
                (_attributes p))
           (counter p) (map viewOf cs)
  end.

(** The identities of the objects a tree owns: its nodes and their
    attribute objects. *)
Fixpoint objs (n : node) : list nat :=
  match n with
  | Node p cs => oid p :: map attr_oid (_attributes p) ++ flat_map objs cs
  end.

(** A run from a given allocator state, keeping the result only. *)
Definition result {A} (m : M A) (h : nat) : outcome A :=
  match m h with
  | Ok (a, _) => Ok a
  | Throw e => Throw e
  | Diverge => Diverge
  | OutOfFuel => OutOfFuel
  end.

Definition mapOutcome {A B} (f : A -> B) (o : outcome A) : outcome B :=
  match o with
  | Ok a => Ok (f a)
  | Throw e => Throw e
  | Diverge => Diverge
  | OutOfFuel => OutOfFuel
  end.

(** [parse(abbr)] with the initial registries, from a fresh allocator. *)
Definition parseString (abbr : string) : outcome node :=
  result (parse initialRegistry (lit abbr) tt) 0.

(** * Properties *)

(** ** Strings *)

Lemma str_eqb_eq (a b : str) : str_eqb a b = true <-> a = b.
Proof.
  revert b; induction a as [|x a IH]; intros [|y b]; simpl; split;
    try congruence; try discriminate.
  - intros H. apply andb_prop in H as [H1 H2].
    apply Ascii.eqb_eq in H1. apply IH in H2. congruence.
  - intros H. injection H as -> ->.
    unfold ch_eqb. rewrite Ascii.eqb_refl. simpl. now apply IH.
Qed.

Lemma trimLeft_blank (s : str) : forallb isSpace s = true -> trimLeft s = [].
Proof.
  induction s as [|c s IH]; simpl; [reflexivity|].
  intros H. apply andb_prop in H as [Hc Hs]. rewrite Hc. now apply IH.
Qed.

Lemma trim_blank (s : str) : forallb isSpace s = true -> trim s = [].
Proof.
  intros H. unfold trim. now rewrite (trimLeft_blank s H).
Qed.

(** ** Empty input *)

(** C9. Parsing the empty string or a string of whitespace only raises no
    error: it returns the root without children, the context child created
    by the scan being removed by [squash]. *)
Theorem parse_blank :
  forall (abbr : str) (h : nat),
    forallb isSpace abbr = true ->
    parse initialRegistry abbr tt h = Ok (Node (newProps h) [], h + 2).
Proof.
  intros abbr h H.
  unfold parse, parseAbbreviation. cbn [parseAbbreviation_rec].
  rewrite (trim_blank abbr H).
  replace (h + 2) with (S (S h)) by lia.
  cbv -[Nat.eqb]. now rewrite Nat.eqb_refl.
Qed.

Lemma parse_blank_witness :
  forallb isSpace (lit "   ") = true /\
  parse initialRegistry (lit "   ") tt 0 = Ok (Node (newProps 0) [], 0 + 2).
Proof.
  split; [reflexivity | apply (parse_blank (lit "   ") 0); reflexivity].
Defined.

(** ** The attribute accessor *)

Lemma mapM_clone_attr_ok (l : list attr) (h : nat) :
  exists l', mapM clone_attr l h = Ok (l', h + length l).
Proof.
  revert h; induction l as [|a l IH]; intros h; simpl.
  - exists []. unfold ret. f_equal. f_equal. lia.
  - unfold bind at 1. unfold clone_attr at 1. unfold bind at 1, fresh, ret at 1.
    unfold bind at 1. destruct (IH (S h)) as [l' ->].
    eexists. unfold ret. f_equal. f_equal. lia.
Qed.

Lemma find_name (q : str) (l : list attr) :
  match find (fun a => str_eqb (attr_name a) q) l with
  | Some a => Some (attr_name a)
  | None => None
  end = if has_name q l then Some q else None.
Proof.
  unfold has_name. induction l as [|a l IH]; simpl; [reflexivity|].
  destruct (str_eqb (attr_name a) q) eqn:E; simpl.
  - apply str_eqb_eq in E. now rewrite E.
  - exact IH.
Qed.

(** C10. [attribute(name)] returns the name field of the matched
    attribute, that is the queried name itself, when [attributeList()]
    holds an attribute of that name, and undefined when it holds none; the
    value of the attribute is never returned. *)
Theorem attribute_returns_name :
  forall (this : node) (q : str) (h : nat),
  exists (l : list attr) (h' : nat),
    attributeList this h = Ok (l, h') /\
    attribute this q h = Ok ((if has_name q l then Some q else None), h').
Proof.
  intros this q h. unfold attribute, attributeList, optimizeAttributes.
  set (attrs := _ ++ _attributes (info this)).
  destruct (mapM_clone_attr_ok attrs h) as [l' E].
  unfold bind. rewrite E. unfold ret.
  eexists. eexists. split; [reflexivity|].
  now rewrite find_name.
Qed.

(** ** Identities *)

Fixpoint distinct (l : list nat) : bool :=
  match l with
  | [] => true
  | x :: l' => negb (existsb (Nat.eqb x) l') && distinct l'
  end.

Lemma distinct_NoDup (l : list nat) : distinct l = true -> NoDup l.
Proof.
  induction l as [|x l IH]; simpl; intros H; constructor.
  - apply andb_prop in H as [H _]. intros Hin.
    assert (E : existsb (Nat.eqb x) l = true).
    { apply existsb_exists. exists x. split; [assumption | apply Nat.eqb_refl]. }
    rewrite E in H. discriminate.
  - apply andb_prop in H as [_ H]. now apply IH.
Qed.

(** ** Attribute sets *)





(** ** Groups *)

Lemma addChild_each (l : list node) (p : props) (cs : list node) :
  fold_left (fun this child => addChild child None this) l (Node p cs)
  = Node p (cs ++ l).
Proof.
  revert cs; induction l as [|c l IH]; intros cs; simpl.
  - now rewrite app_nil_r.
  - rewrite IH. now rewrite <- app_assoc.
Qed.

(** The raw tree of [(div+span)*2] after [unroll], before [squash]. *)
Definition groupTwiceUnrolled : outcome node :=
  result (tree <- parseAbbreviation (lit "(div+span)*2") ;; unroll tree) 0.

(** C2, as the code has it. For [(div+span)*2] the pipeline does not return
    two copies of the context: [squash] replaces both copies, which are
    group nodes, by their children, and the root gets four children. *)
Lemma group_copies_squashed :
  mapOutcome (fun t => length (children t)) (parseString "(div+span)*2") = Ok 4.
Proof. vm_compute. reflexivity. Qed.

(** C2, amended. When a parenthesized group is immediately followed by a
    multiplier, the multiplier is applied to the current context node
    itself, whose children are extended by the top-level children of the
    group; no node is created for the group.  For [(div+span)*2] the
    [unroll] pass therefore produces two copies of that context with
    counters 1 and 2, each with its own [div] and [span] children (no
    object occurs twice), and [squash] then replaces the two copies, being
    group nodes, by their children: the pipeline returns the four
    top-level nodes [div], [span], [div], [span] with counters 1, 1, 2, 2. *)
Theorem group_multiplier_on_context :
  forall (parseInner : str -> M node) (st : scanState)
         (s1 s2 : StringStream) (count : option str) (inner : node) (h h1 : nat),
    peek (stream st) = Some "("%char ->
    skipToPair "(" ")" (mark (stream st)) = (true, s1) ->
    parseInner (stripped (current s1)) h = Ok (inner, h1) ->
    match_multiplier s1 = (Some count, s2) ->
    scanStep parseInner st h
      = Ok (mkState s2
                    (Node (_setRepeat count (info (context st)))
                          (children (context st) ++ children inner))
                    (ancestors st), h1)
    /\ mapOutcome viewOf groupTwiceUnrolled
       = Ok (View EmptyString None [] 1
               [View EmptyString None [] 1
                  [View "div" (Some "div"%string) [] 1 [];
                   View "span" (Some "span"%string) [] 1 []];
                View EmptyString None [] 2
                  [View "div" (Some "div"%string) [] 2 [];
                   View "span" (Some "span"%string) [] 2 []]])
    /\ mapOutcome (fun t => distinct (objs t)) groupTwiceUnrolled = Ok true
    /\ mapOutcome viewOf (parseString "(div+span)*2")
       = Ok (View EmptyString None [] 1
               [View "div" (Some "div"%string) [] 1 [];
                View "span" (Some "span"%string) [] 1 [];
                View "div" (Some "div"%string) [] 2 [];
                View "span" (Some "span"%string) [] 2 []]).
Proof.
  intros parseInner [stream0 [p cs] up] s1 s2 count inner h h1 Hpeek Hskip Hinner Hmul.
  simpl in *. split; [| repeat split; vm_compute; reflexivity].
  unfold scanStep. rewrite Hpeek.
  change (ch_eqb "(" "(") with true. cbv iota.
  rewrite Hskip. unfold bind. rewrite Hinner. rewrite Hmul.
  simpl set_info. rewrite addChild_each. reflexivity.
Qed.

Lemma group_multiplier_on_context_witness :
  let st := mkState (create (lit "(a)*3")) (Node (newProps 1) []) [Node (newProps 0) []] in
  scanStep parseAbbreviation st 2
  = Ok (mkState (mkStream (lit "(a)*3") 5 0)
                (Node (_setRepeat (Some (lit "3")) (newProps 1))
                      ([] ++ [Node (set_name (Some (lit "a"))
                                      (set_abbreviation (lit "a") (newProps 3))) []]))
                [Node (newProps 0) []], 4).
Proof.
  intros st.
  refine (proj1 (@group_multiplier_on_context parseAbbreviation st
            (mkStream (lit "(a)*3") 3 0) (mkStream (lit "(a)*3") 5 0)
            (Some (lit "3"))
            (Node (newProps 2)
                  [Node (set_name (Some (lit "a"))
                           (set_abbreviation (lit "a") (newProps 3))) []])
            2 4 _ _ _ _));
    reflexivity.
Defined.

(** ** Nested groups *)

(** The raw tree of [((a))]. *)
Definition nestedGroupRaw : outcome node :=
  result (parseAbbreviation (lit "((a))")) 0.

(** C3, at the failing inputs. [squash] replaces a group child by its
    children without looking at the children it has just moved up: for
    [((a))] the inner group node stays in the tree returned by [parse],
    and for [()] the empty context of the inner scan stays, a node without
    abbreviation and without children. *)
Theorem nested_group_survives_squash :
  mapOutcome viewOf (parseString "((a))")
    = Ok (View EmptyString None [] 1
            [View EmptyString None [] 1 [View "a" (Some "a"%string) [] 1 []]])
  /\ mapOutcome (fun t => map isGroup (children t)) (parseString "((a))")
     = Ok [true]
  /\ mapOutcome (fun t => map isEmpty (children t)) (parseString "()")
     = Ok [true].
Proof. repeat split; vm_compute; reflexivity. Qed.

(** C4, at the failing input. On the raw tree of [((a))] a second run of
    [squash] changes the result of the first: the first leaves the inner
    group node under the root, the second replaces it by its child. *)
Theorem squash_twice_differs :
  mapOutcome (fun t => viewOf (squash t)) nestedGroupRaw
    = Ok (View EmptyString None [] 1
            [View EmptyString None [] 1 [View "a" (Some "a"%string) [] 1 []]])
  /\ mapOutcome (fun t => viewOf (squash (squash t))) nestedGroupRaw
     = Ok (View EmptyString None [] 1 [View "a" (Some "a"%string) [] 1 []])
  /\ mapOutcome (fun t => squash (squash t)) nestedGroupRaw
     <> mapOutcome squash nestedGroupRaw.
Proof.
  repeat split; try (vm_compute; reflexivity).
  vm_compute. discriminate.
Qed.

(** ** The [+] character in a token *)

Lemma set_pos_same (s : StringStream) : set_pos s (pos s) = s.
Proof. now destruct s. Qed.

Lemma backUp_next (s : StringStream) (c : ascii) :
  peek s = Some c -> backUp 1 (snd (next s)) = s.
Proof.
  intros H. unfold next. rewrite H. unfold backUp, set_pos. destruct s as [t p st].
  simpl. now rewrite Nat.sub_0_r.
Qed.

(** The character after the current one is missing or one of [+>^*]. *)
Definition plusFollowedByMarker (s : StringStream) : bool :=
  match nth_error (text s) (S (pos s)) with
  | None => true
  | Some d => mem_ch d (lit "+>^*")
  end.

Lemma tokenChar_plus (s : StringStream) :
  peek s = Some "+"%char -> tokenChar "+" s = Ok (plusFollowedByMarker s, s).
Proof.
  intros H. unfold tokenChar.
  change (ch_eqb "+" "[" || ch_eqb "+" "{") with false.
  change (ch_eqb "+" "+") with true. cbv iota.
  rewrite (backUp_next s _ H). f_equal. f_equal.
  unfold next. rewrite H. simpl snd. unfold plusFollowedByMarker, eol, peek.
  simpl text. simpl pos.
  destruct (nth_error (text s) (S (pos s))) eqn:E.
  - assert (L : S (pos s) < length (text s)).
    { apply nth_error_Some. congruence. }
    apply Nat.leb_gt in L. now rewrite L.
  - apply nth_error_None in E. apply Nat.leb_le in E. now rewrite E.
Qed.

(** C5, as the code has it. In [a+b] the [+] is followed by a name
    character and is nevertheless the sibling operator, and in [a+] the
    [+] is followed by the end of the input and is nevertheless part of
    the token [a+]. *)
Lemma plus_handling_inverted :
  mapOutcome viewOf (parseString "a+b")
    = Ok (View EmptyString None [] 1
            [View "a" (Some "a"%string) [] 1 [];
             View "b" (Some "b"%string) [] 1 []])
  /\ mapOutcome viewOf (parseString "a+")
     = Ok (View EmptyString None [] 1 [View "a+" (Some "a+"%string) [] 1 []]).
Proof. split; vm_compute; reflexivity. Qed.

(** C5, amended. During token scanning a [+] is kept as part of the
    current token's text exactly when it is followed by the end of the
    input or by one of the characters [+], [>], [^], [*]; otherwise the
    token ends before it, and the scan loop, finding a [+] as the current
    character, consumes it as the sibling operator, which creates a new
    context under the parent of the context. *)
Theorem plus_kept_iff_followed_by_marker :
  forall (s : StringStream),
    peek s = Some "+"%char ->
    tokenChar "+" s = Ok (plusFollowedByMarker s, s)
    /\ (forall fuel,
          plusFollowedByMarker s = true ->
          eatWhile_loop (S fuel) tokenChar s
          = eatWhile_loop fuel tokenChar (set_pos s (S (pos s))))
    /\ (forall fuel,
          plusFollowedByMarker s = false ->
          eatWhile_loop fuel tokenChar s = Ok s)
    /\ (forall parseInner this parent up h,
          scanStep parseInner (mkState s this (parent :: up)) h
          = Ok (mkState (set_pos s (S (pos s))) (Node (newProps h) [])
                        (addChild this None parent :: up), S h)).
Proof.
  intros s H. pose proof (tokenChar_plus s H) as T.
  split; [exact T|]. split; [|split].
  - intros fuel F. cbn [eatWhile_loop]. rewrite H, T, F. reflexivity.
  - intros fuel F. destruct fuel; cbn [eatWhile_loop]; now rewrite H, T, F.
  - intros parseInner this parent up h. unfold scanStep. rewrite H.
    change (ch_eqb "+" "(") with false. change (ch_eqb "+" ">") with false.
    change (ch_eqb "+" "+") with true. cbv iota.
    unfold next. rewrite H. reflexivity.
Qed.

Lemma plus_kept_iff_followed_by_marker_witness :
  peek (mkStream (lit "a+b") 1 0) = Some "+"%char
  /\ tokenChar "+" (mkStream (lit "a+b") 1 0)
     = Ok (plusFollowedByMarker (mkStream (lit "a+b") 1 0), mkStream (lit "a+b") 1 0).
Proof.
  split; [reflexivity|].
  apply (plus_kept_iff_followed_by_marker (mkStream (lit "a+b") 1 0)).
  reflexivity.
Defined.

(** ** Runs of characters without markup *)

Ltac ascii_cases c :=
  destruct c as [[|] [|] [|] [|] [|] [|] [|] [|]];
  vm_compute; try reflexivity; try discriminate; auto.

(** No operator, bracket, multiplier, id or class marker. *)
Definition nomarkup (c : ascii) : bool := negb (mem_ch c (lit "*{#.[(+>^")).

Lemma isNameChar_allowed (c : ascii) : isNameChar c = true -> isAllowedChar c = true.
Proof. ascii_cases c. Qed.

Lemma isNameChar_nomarkup (c : ascii) : isNameChar c = true -> nomarkup c = true.
Proof. ascii_cases c. Qed.

Lemma isNameChar_not_space (c : ascii) : isNameChar c = true -> isSpace c = false.
Proof. ascii_cases c. Qed.

Lemma allowed_tokenChar (c : ascii) (s : StringStream) :
  isAllowedChar c = true -> nomarkup c = true -> tokenChar c s = Ok (true, s).
Proof.
  intros A N. unfold tokenChar.
  assert (E1 : ch_eqb c "[" || ch_eqb c "{" = false) by (revert N; ascii_cases c).
  assert (E2 : ch_eqb c "+" = false) by (revert N; ascii_cases c).
  assert (E3 : ch_eqb c "(" = false) by (revert N; ascii_cases c).
  now rewrite E1, E2, E3, A.
Qed.

(** A character the token scanner refuses and the scan loop has no case
    for. *)
Definition unscannable (c : ascii) : bool :=
  negb (isAllowedChar c) && negb (mem_ch c (lit "(>+^[{")).

Lemma unscannable_tokenChar (c : ascii) (s : StringStream) :
  unscannable c = true -> tokenChar c s = Ok (false, s).
Proof.
  intros U. unfold tokenChar.
  assert (E1 : ch_eqb c "[" || ch_eqb c "{" = false) by (revert U; ascii_cases c).
  assert (E2 : ch_eqb c "+" = false) by (revert U; ascii_cases c).
  assert (E3 : isAllowedChar c = false) by (revert U; ascii_cases c).
  rewrite E1, E2, E3. now rewrite andb_false_r.
Qed.

Lemma nth_error_middle {A} (done rest : list A) (x : A) :
  nth_error (done ++ x :: rest) (length done) = Some x.
Proof.
  rewrite nth_error_app2 by lia. now rewrite Nat.sub_diag.
Qed.

Lemma nth_error_end {A} (done : list A) : nth_error done (length done) = None.
Proof. apply nth_error_None. lia. Qed.

(** The token scanner runs over allowed characters without markup, up to
    the end of the input or to a character it refuses. *)
Lemma eatWhile_loop_run (run done rest : str) (st0 fuel : nat) :
  forallb isAllowedChar run = true ->
  forallb nomarkup run = true ->
  match rest with [] => True | d :: _ => unscannable d = true \/ mem_ch d (lit "(>^") = true end ->
  length run <= fuel ->
  eatWhile_loop fuel tokenChar (mkStream (done ++ run ++ rest) (length done) st0)
  = Ok (mkStream (done ++ run ++ rest) (length done + length run) st0).
Proof.
  revert done fuel. induction run as [|c run IH]; intros done fuel A N R F.
  - simpl. rewrite Nat.add_0_r. destruct rest as [|d rest].
    + destruct fuel; cbn [eatWhile_loop]; unfold peek; simpl;
        rewrite app_nil_r; now rewrite nth_error_end.
    + assert (T : forall s, tokenChar d s = Ok (false, s)).
      { intros s. destruct R as [U|U]; [now apply unscannable_tokenChar|].
        unfold tokenChar. revert U. ascii_cases d. }
      destruct fuel; cbn [eatWhile_loop]; unfold peek; simpl;
        rewrite nth_error_middle; now rewrite T.
  - simpl in A, N, F. apply andb_prop in A as [A1 A2]. apply andb_prop in N as [N1 N2].
    destruct fuel as [|fuel]; [lia|].
    cbn [eatWhile_loop]. unfold peek. simpl text. simpl pos.
    change ((c :: run) ++ rest) with (c :: run ++ rest).
    rewrite nth_error_middle. rewrite (allowed_tokenChar _ _ A1 N1).
    unfold set_pos. simpl.
    replace (done ++ c :: run ++ rest) with ((done ++ [c]) ++ run ++ rest)
      by (now rewrite <- app_assoc).
    replace (S (length done)) with (length (done ++ [c]))
      by (rewrite length_app; simpl; lia).
    rewrite IH by (auto; lia). f_equal. f_equal.
    rewrite length_app. simpl. lia.
Qed.

Lemma findMultiplier_nomarkup (s : str) :
  forallb nomarkup s = true -> findMultiplier s = None.
Proof.
  induction s as [|c s IH]; simpl; [reflexivity|].
  intros N. apply andb_prop in N as [N1 N2]. rewrite (IH N2).
  assert (E : ch_eqb c "*" = false) by (revert N1; ascii_cases c).
  now rewrite E.
Qed.

Lemma mem_brace_nomarkup (s : str) :
  forallb nomarkup s = true -> mem_ch "{" s = false.
Proof.
  unfold mem_ch. induction s as [|c s IH]; [reflexivity|].
  intros N. cbn [forallb] in N. apply andb_prop in N as [N1 N2].
  cbn [existsb]. rewrite (IH N2).
  assert (E : ch_eqb "{" c = false) by (revert N1; ascii_cases c).
  now rewrite E.
Qed.

Lemma parseAttributes_loop_nomarkup (run done : str) (fuel st0 : nat)
    (res : list attr) (nameEnd : option nat) (h : nat) :
  forallb nomarkup run = true ->
  length run <= fuel ->
  parseAttributes_loop fuel (mkStream (done ++ run) (length done) st0) res nameEnd h
  = Ok ((res, nameEnd), h).
Proof.
  revert done fuel st0. induction run as [|c run IH]; intros done fuel st0 N F.
  - rewrite app_nil_r.
    destruct fuel; cbn [parseAttributes_loop]; unfold peek; simpl;
      now rewrite nth_error_end.
  - simpl in N, F. apply andb_prop in N as [N1 N2].
    destruct fuel as [|fuel]; [lia|].
    cbn [parseAttributes_loop]. unfold peek. cbn [text pos].
    rewrite nth_error_middle.
    assert (E1 : ch_eqb c "#" || ch_eqb c "." = false) by (revert N1; ascii_cases c).
    assert (E2 : ch_eqb c "[" = false) by (revert N1; ascii_cases c).
    rewrite E1, E2. cbv iota. unfold next, peek. cbn [text pos].
    rewrite nth_error_middle. cbn [snd]. unfold set_pos. cbn [text pos start].
    replace (done ++ c :: run) with ((done ++ [c]) ++ run)
      by (now rewrite <- app_assoc).
    replace (S (length done)) with (length (done ++ [c]))
      by (rewrite length_app; simpl; lia).
    apply IH; [assumption | lia].
Qed.

(** [setAbbreviation] on a token without markup only sets the abbreviation
    and the name, and checks the name. *)
Lemma setAbbreviation_nomarkup (s : str) (p : props) (h : nat) :
  forallb nomarkup s = true ->
  setAbbreviation s p h
  = match s with
    | [] => Ok (set_name (Some s) (set_abbreviation s p), h)
    | _ :: _ =>
        if reValidName s then Ok (set_name (Some s) (set_abbreviation s p), h)
        else Throw InvalidAbbreviation
    end.
Proof.
  intros N. unfold setAbbreviation. rewrite (findMultiplier_nomarkup s N).
  unfold extractText. rewrite (mem_brace_nomarkup s N). simpl negb. cbv iota.
  unfold parseAttributes, bind.
  pose proof (@parseAttributes_loop_nomarkup s [] (length s) 0 [] None h N (le_n _)) as E.
  simpl in E. unfold create. rewrite E.
  destruct s; [reflexivity|]. unfold ret.
  destruct (reValidName (a :: s)); reflexivity.
Qed.

(** ** Names the scanner or the name pattern refuses *)

Lemma reValidName_tail_names (s : str) :
  forallb isNameChar s = true -> reValidName_tail s = true.
Proof.
  induction s as [|c s IH]; simpl; [reflexivity|].
  intros H. apply andb_prop in H as [H1 H2]. rewrite H1. now apply IH.
Qed.

Lemma reValidName_names (s : str) :
  forallb isNameChar s = true -> s <> [] -> reValidName s = true.
Proof.
  destruct s as [|c s]; [congruence|]. simpl. intros H _.
  apply andb_prop in H as [H1 H2]. rewrite H1. now apply reValidName_tail_names.
Qed.

Lemma reValidName_tail_bar (pre post : str) :
  reValidName_tail (pre ++ "|"%char :: post) = false.
Proof.
  induction pre as [|c pre IH]; [reflexivity|].
  cbn [app reValidName_tail]. rewrite IH.
  destruct (isNameChar c); [reflexivity|].
  destruct (pre ++ "|"%char :: post) eqn:E; [now destruct pre|].
  apply andb_false_r.
Qed.

Lemma reValidName_bar (pre post : str) :
  reValidName (pre ++ "|"%char :: post) = false.
Proof.
  destruct pre as [|c pre]; [reflexivity|].
  cbn [app reValidName]. rewrite reValidName_tail_bar. apply andb_false_r.
Qed.

(** The scan is at a character it cannot consume. *)
Definition stalled (st : scanState) : Prop :=
  exists c, peek (stream st) = Some c /\ unscannable c = true.

Lemma scanStep_stalled (parseInner : str -> M node) (st : scanState) (h : nat) :
  stalled st ->
  exists st', scanStep parseInner st h = Ok (st', h) /\ stalled st'.
Proof.
  intros (c & Hp & U). destruct st as [s this up]. cbn [stream] in Hp.
  unfold scanStep. rewrite Hp.
  assert (E1 : ch_eqb c "(" = false) by (revert U; ascii_cases c).
  assert (E2 : ch_eqb c ">" = false) by (revert U; ascii_cases c).
  assert (E3 : ch_eqb c "+" = false) by (revert U; ascii_cases c).
  assert (E4 : ch_eqb c "^" = false) by (revert U; ascii_cases c).
  rewrite E1, E2, E3, E4. cbv iota.
  assert (Hm : peek (mark s) = Some c) by exact Hp.
  unfold eatWhileFn.
  assert (L : forall fuel, eatWhile_loop fuel tokenChar (mark s) = Ok (mark s)).
  { intros fuel. destruct fuel; cbn [eatWhile_loop];
      now rewrite Hm, (unscannable_tokenChar _ _ U). }
  rewrite L.
  assert (C : current (mark s) = []).
  { unfold current, substring, mark. cbn [start pos]. now rewrite Nat.sub_diag. }
  rewrite C. unfold bind.
  rewrite (setAbbreviation_nomarkup [] (info this) h eq_refl). unfold ret.
  eexists. split; [reflexivity|].
  exists c. split; [exact Hp | exact U].
Qed.

Lemma scanLoop_unfold (parseInner : str -> M node) (n : nat) (st : scanState) :
  scanLoop parseInner (S (S n)) st
  = if eol (stream st) then ret (S (S n), st)
    else bind (scanStep parseInner st) (fun st' => scanLoop parseInner (S n) st').
Proof. reflexivity. Qed.

Lemma scanLoop_stalled (parseInner : str -> M node) (n : nat) :
  forall (st : scanState) (h : nat),
    stalled st ->
    exists st', scanLoop parseInner n st h = Ok ((0, st'), h).
Proof.
  induction n as [|n IH]; intros st h S0.
  - destruct S0 as (c & Hp & _). cbn [scanLoop]. unfold eol.
    assert (L : pos (stream st) < length (text (stream st))).
    { apply nth_error_Some. unfold peek in Hp. congruence. }
    apply Nat.leb_gt in L. rewrite L. now exists st.
  - pose proof S0 as (c & Hp & _). cbn [scanLoop]. unfold eol.
    assert (L : pos (stream st) < length (text (stream st))).
    { apply nth_error_Some. unfold peek in Hp. congruence. }
    apply Nat.leb_gt in L. rewrite L.
    destruct n as [|n]; [now exists st|].
    destruct (scanStep_stalled parseInner st h S0) as (st' & E & S1).
    unfold bind. rewrite E. now apply IH.
Qed.

Lemma parse_of_stalled_scan (abbr : str) (h : nat) (st : scanState) (h' : nat) :
  trim abbr = abbr ->
  scanLoop (parseAbbreviation_rec (length abbr)) 1000
           (mkState (create abbr) (Node (newProps (S h)) []) [Node (newProps h) []])
           (S (S h))
  = Ok ((0, st), h') ->
  parse initialRegistry abbr tt h = Throw EndlessLoop.
Proof.
  intros T E. unfold parse, parseAbbreviation. cbn [parseAbbreviation_rec].
  rewrite T. unfold bind at 1. unfold bind at 1.
  unfold newAbbreviationNode at 1. unfold bind at 1. unfold fresh at 1.
  unfold ret at 1. unfold bind at 1.
  unfold newAbbreviationNode at 1. unfold bind at 1. unfold fresh at 1.
  unfold ret at 1. unfold bind at 1. rewrite E. reflexivity.
Qed.

Lemma forallb_impl {A} (f g : A -> bool) (l : list A) :
  (forall a, f a = true -> g a = true) ->
  forallb f l = true -> forallb g l = true.
Proof.
  intros I. induction l as [|a l IH]; simpl; [reflexivity|].
  intros H. apply andb_prop in H as [H1 H2]. now rewrite (I a H1), IH.
Qed.

Lemma trimLeft_id (s : str) :
  match s with [] => True | c :: _ => isSpace c = false end -> trimLeft s = s.
Proof. destruct s as [|c s]; simpl; [reflexivity|]. now intros ->. Qed.

Lemma trim_no_space (s : str) :
  forallb (fun c => negb (isSpace c)) s = true -> trim s = s.
Proof.
  intros H. unfold trim.
  assert (R : forallb (fun c => negb (isSpace c)) (rev s) = true).
  { apply forallb_forall. intros c Hin. apply in_rev in Hin.
    now apply (proj1 (forallb_forall _ _) H). }
  rewrite (trimLeft_id s).
  - rewrite (trimLeft_id (rev s)); [apply rev_involutive|].
    destruct (rev s) as [|c r]; [exact I|]. simpl in R.
    apply andb_prop in R as [R _]. now apply negb_true_iff in R.
  - destruct s as [|c r]; [exact I|]. simpl in H.
    apply andb_prop in H as [H _]. now apply negb_true_iff in H.
Qed.

Lemma firstn_exact {A} (l r : list A) : firstn (length l) (l ++ r) = l.
Proof.
  replace (length l) with (length l + 0) by lia.
  rewrite firstn_app_2. simpl. apply app_nil_r.
Qed.

(** The default case of the scan loop on a token of plain characters that
    runs up to [rest]. *)
Lemma scanStep_plain_token (parseInner : str -> M node) (run rest : str)
    (st0 : nat) (this : node) (up : list node) (h : nat) :
  run <> [] ->
  forallb isAllowedChar run = true ->
  forallb nomarkup run = true ->
  match rest with [] => True | d :: _ => unscannable d = true end ->
  scanStep parseInner (mkState (mkStream (run ++ rest) 0 st0) this up) h
  = if reValidName run
    then Ok (mkState (mkStream (run ++ rest) (length run) (length run))
                     (set_info (fun _ => set_name (Some run)
                                           (set_abbreviation run (info this))) this)
                     up, h)
    else Throw InvalidAbbreviation.
Proof.
  intros NE A N R. destruct run as [|x run']; [congruence|].
  set (run := x :: run') in *.
  unfold scanStep. unfold peek. cbn [text pos].
  change (nth_error (run ++ rest) 0) with (Some x).
  cbn [forallb] in A, N. pose proof A as A'. pose proof N as N'.
  apply andb_prop in A' as [A1 _]. apply andb_prop in N' as [N1 _].
  assert (E1 : ch_eqb x "(" = false) by (revert N1; ascii_cases x).
  assert (E2 : ch_eqb x ">" = false) by (revert N1; ascii_cases x).
  assert (E3 : ch_eqb x "+" = false) by (revert N1; ascii_cases x).
  assert (E4 : ch_eqb x "^" = false) by (revert N1; ascii_cases x).
  rewrite E1, E2, E3, E4. cbv iota.
  unfold eatWhileFn, mark. cbn [text pos start].
  pose proof (eatWhile_loop_run run [] rest 0 (length (run ++ rest) - 0)) as L.
  cbn [app length] in L. rewrite L; clear L.
  - cbn [pos Nat.add]. unfold current, substring. cbn [text pos start skipn].
    rewrite Nat.sub_0_r. rewrite firstn_exact. unfold bind.
    rewrite (setAbbreviation_nomarkup run (info this) h N).
    unfold run at 1. destruct (reValidName run); reflexivity.
  - exact A.
  - exact N.
  - destruct rest; [exact I | now left].
  - rewrite length_app. lia.
Qed.

Lemma trimLeft_stops (a b : str) (c : ascii) :
  isSpace c = false -> exists a', trimLeft (a ++ c :: b) = a' ++ c :: b.
Proof.
  intros Sc. induction a as [|x a IH].
  - exists []. cbn. now rewrite Sc.
  - cbn [app trimLeft]. destruct (isSpace x); [exact IH|]. now exists (x :: a).
Qed.

(** Trimming keeps a prefix that begins and ends with characters other
    than whitespace. *)
Lemma trim_keeps_prefix (pre post : str) (c : ascii) :
  forallb isNameChar pre = true -> isSpace c = false ->
  exists post', trim (pre ++ c :: post) = pre ++ c :: post'.
Proof.
  intros Hpre Sc. unfold trim. rewrite (trimLeft_id (pre ++ c :: post)).
  - rewrite rev_app_distr. cbn [rev]. rewrite <- app_assoc. cbn [app].
    destruct (trimLeft_stops (rev post) (rev pre) c Sc) as (a' & ->).
    exists (rev a'). rewrite rev_app_distr. cbn [rev].
    rewrite rev_involutive, <- app_assoc. reflexivity.
  - destruct pre as [|x pre]; [exact Sc|]. cbn [forallb] in Hpre.
    apply andb_prop in Hpre as [Hx _]. cbn [app]. now apply isNameChar_not_space.
Qed.

Lemma parse_of_stalled_trimmed_scan (abbr t : str) (h : nat) (st : scanState)
    (h' : nat) :
  trim abbr = t ->
  scanLoop (parseAbbreviation_rec (length abbr)) 1000
           (mkState (create t) (Node (newProps (S h)) []) [Node (newProps h) []])
           (S (S h))
  = Ok ((0, st), h') ->
  parse initialRegistry abbr tt h = Throw EndlessLoop.
Proof.
  intros T E. unfold parse, parseAbbreviation. cbn [parseAbbreviation_rec].
  rewrite T. unfold bind at 1. unfold bind at 1.
  unfold newAbbreviationNode at 1. unfold bind at 1. unfold fresh at 1.
  unfold ret at 1. unfold bind at 1.
  unfold newAbbreviationNode at 1. unfold bind at 1. unfold fresh at 1.
  unfold ret at 1. unfold bind at 1. rewrite E. reflexivity.
Qed.

(** C7, as the code has it. For [div%x] the scan reads [div], stops at
    [%], makes no progress any more and ends in the loop guard: the error
    is 'Endless loop detected', not 'Invalid abbreviation'. *)
Lemma percent_runs_into_loop_guard :
  parse initialRegistry (lit "div%x") tt 0 = Throw EndlessLoop.
Proof. vm_compute. reflexivity. Qed.

(** C7, amended. Let an abbreviation start with a run [pre] of name
    characters followed by a character [c].  If [c] is not whitespace and
    is a character the scanner does not accept and the scan loop has no
    case for (such as [%] in [div%x]), then whatever follows it, the scan
    stalls at it and [parse] fails with the runaway error 'Endless loop
    detected'.  If [c] is [|], which the scanner accepts and the name
    pattern refuses, and only name characters follow, [parse] fails with
    'Invalid abbreviation'.  No tree is returned in either case. *)
Theorem refused_character_fails :
  forall (pre : str) (c : ascii) (post : str) (h : nat),
    forallb isNameChar pre = true ->
    (unscannable c = true ->
     isSpace c = false ->
     parse initialRegistry (pre ++ c :: post) tt h = Throw EndlessLoop)
    /\ (c = "|"%char ->
        forallb isNameChar post = true ->
        parse initialRegistry (pre ++ c :: post) tt h = Throw InvalidAbbreviation).
Proof.
  intros pre c post h Hpre. split.
  - intros U Sc.
    destruct (trim_keeps_prefix pre post c Hpre Sc) as (post' & T).
    set (P := parseAbbreviation_rec (length (pre ++ c :: post))).
    set (st := mkState (create (pre ++ c :: post')) (Node (newProps (S h)) [])
                       [Node (newProps h) []]).
    assert (E : exists st' h', scanLoop P 1000 st (S (S h)) = Ok ((0, st'), h')).
    { destruct pre as [|x pre'].
      - destruct (scanLoop_stalled P 1000 st (S (S h))) as (st' & E).
        + exists c. split; [reflexivity | exact U].
        + now exists st', (S (S h)).
      - set (pre := x :: pre') in *.
        rewrite (scanLoop_unfold P 998 st).
        assert (L : eol (stream st) = false).
        { unfold st, eol, create. cbn [stream text pos]. apply Nat.leb_gt.
          rewrite length_app. unfold pre. simpl. lia. }
        rewrite L. unfold bind, st, create.
        rewrite (scanStep_plain_token P pre (c :: post') 0 _ _ (S (S h))).
        + rewrite (reValidName_names pre Hpre) by (unfold pre; congruence).
          match goal with |- context [scanLoop P 999 ?s _] =>
            destruct (scanLoop_stalled P 999 s (S (S h))) as (st' & E) end.
          * exists c. split; [|exact U]. unfold peek. cbn [stream text pos].
            apply nth_error_middle.
          * now exists st', (S (S h)).
        + unfold pre. congruence.
        + exact (forallb_impl _ _ pre isNameChar_allowed Hpre).
        + exact (forallb_impl _ _ pre isNameChar_nomarkup Hpre).
        + exact U. }
    destruct E as (st' & h' & E).
    exact (parse_of_stalled_trimmed_scan (pre ++ c :: post) _ h st' h' T E).
  - intros -> Hpost.
    set (whole := pre ++ "|"%char :: post).
    assert (W : forallb isNameChar whole = false -> True) by auto. clear W.
    assert (A : forallb isAllowedChar whole = true).
    { unfold whole. rewrite forallb_app. cbn [forallb].
      rewrite (forallb_impl _ _ pre isNameChar_allowed Hpre).
      now rewrite (forallb_impl _ _ post isNameChar_allowed Hpost). }
    assert (N : forallb nomarkup whole = true).
    { unfold whole. rewrite forallb_app. cbn [forallb].
      rewrite (forallb_impl _ _ pre isNameChar_nomarkup Hpre).
      now rewrite (forallb_impl _ _ post isNameChar_nomarkup Hpost). }
    assert (T : trim whole = whole).
    { assert (NS : forall a, isNameChar a = true -> negb (isSpace a) = true)
        by (intros a Ha; now rewrite isNameChar_not_space).
      apply trim_no_space. unfold whole. rewrite forallb_app. cbn [forallb].
      rewrite (forallb_impl isNameChar _ pre NS Hpre).
      now rewrite (forallb_impl isNameChar _ post NS Hpost). }
    assert (NE : whole <> []) by (unfold whole; now destruct pre).
    unfold parse, parseAbbreviation. cbn [parseAbbreviation_rec]. rewrite T.
    unfold bind at 1. unfold bind at 1.
    unfold newAbbreviationNode at 1. unfold bind at 1. unfold fresh at 1.
    unfold ret at 1. unfold bind at 1.
    unfold newAbbreviationNode at 1. unfold bind at 1. unfold fresh at 1.
    unfold ret at 1. unfold bind at 1.
    rewrite (scanLoop_unfold _ 998).
    assert (L : eol (create whole) = false).
    { unfold eol, create. cbn [text pos]. apply Nat.leb_gt.
      destruct whole; [congruence | simpl; lia]. }
    cbn [stream]. rewrite L. unfold bind at 1. unfold create.
    pose proof (scanStep_plain_token (parseAbbreviation_rec (length whole))
                  whole [] 0 (Node (newProps (S h)) []) [Node (newProps h) []]
                  (S (S h)) NE A N I) as E.
    rewrite app_nil_r in E. rewrite E.
    unfold whole at 1. now rewrite reValidName_bar.
Qed.

Lemma refused_character_fails_witness :
  forallb isNameChar (lit "div") = true
  /\ unscannable "%" = true
  /\ isSpace "%" = false
  /\ parse initialRegistry (lit "div" ++ "%"%char :: lit "x  ") tt 0 = Throw EndlessLoop.
Proof.
  split; [reflexivity|]. split; [reflexivity|]. split; [reflexivity|].
  apply (proj1 (refused_character_fails (lit "div") "%" (lit "x  ") 0 eq_refl));
    reflexivity.
Defined.

(** ** Trees up to identities *)

Lemma node_induction (P : node -> Prop) :
  (forall p cs, Forall P cs -> P (Node p cs)) -> forall n, P n.
Proof.
  intros H. fix IH 1. intros [p cs]. apply H.
  induction cs as [|c cs IHcs]; constructor; [apply IH | exact IHcs].
Qed.

Definition strip_attr (a : attr) : attr := mkAttr 0 (attr_name a) (attr_value a).

(** The fields [clone] copies, without the identities and without the
    output properties. *)
Definition strip (p : props) : props :=
  mkProps 0 (map strip_attr (_attributes p)) (abbreviation p) (counter p)
          (_name p) (_text p) (repeatCount p) (hasImplicitRepeat p) (_data p)
          [] [] [].

(** A tree with all identities and output properties erased: two trees of
    the same shape are structurally identical in everything [clone]
    copies. *)
Fixpoint shape (n : node) : node :=
  match n with
  | Node p cs => Node (strip p) (map shape cs)
  end.

Lemma height_shape (n : node) : height (shape n) = height n.
Proof.
  induction n as [p cs IH] using node_induction. cbn [shape height].
  induction IH as [|c cs Hc _ IHcs]; [reflexivity|].
  cbn [map fold_right]. now rewrite Hc, IHcs.
Qed.

Lemma height_of_shape (n m : node) : shape n = shape m -> height n = height m.
Proof. intros E. now rewrite <- (height_shape n), E, height_shape. Qed.

Lemma isRepeating_shape (n : node) : isRepeating (shape n) = isRepeating n.
Proof. now destruct n. Qed.

Lemma shape_updateProperty_counter (k : Z) (n : node) :
  shape (updateProperty (set_counter k) n) = updateProperty (set_counter k) (shape n).
Proof.
  induction n as [p cs IH] using node_induction. cbn [shape updateProperty].
  f_equal. rewrite !map_map. induction IH as [|c cs Hc _ IHcs]; [reflexivity|].
  cbn [map]. now rewrite Hc, IHcs.
Qed.

Lemma shape_set_repeatCount (v : Z) (n : node) :
  shape (set_info (set_repeatCount v) n) = set_info (set_repeatCount v) (shape n).
Proof. now destruct n. Qed.

(** ** Counting objects *)

Definition count (x : nat) (l : list nat) : nat := count_occ Nat.eq_dec l x.

(** [x] is one of the identities handed out between the allocator states
    [h] and [h']. *)
Definition allocated (h h' x : nat) : nat :=
  if (h <=? x) && (x <? h') then 1 else 0.

Lemma count_app (x : nat) (l r : list nat) :
  count x (l ++ r) = count x l + count x r.
Proof. apply count_occ_app. Qed.

Lemma count_cons (x y : nat) (l : list nat) :
  count x (y :: l) = allocated y (S y) x + count x l.
Proof.
  unfold count, allocated. cbn [count_occ].
  destruct (Nat.eq_dec y x) as [->|N].
  - rewrite Nat.leb_refl. assert (L : (x <? S x) = true) by (apply Nat.ltb_lt; lia).
    now rewrite L.
  - destruct (Nat.leb_spec y x), (Nat.ltb_spec x (S y)); simpl; lia.
Qed.

Lemma count_seq (x h n : nat) : count x (seq h n) = allocated h (h + n) x.
Proof.
  revert h; induction n as [|n IH]; intros h.
  - unfold allocated. simpl.
    destruct (Nat.leb_spec h x), (Nat.ltb_spec x (h + 0)); simpl; lia.
  - cbn [seq]. rewrite count_cons, IH. unfold allocated.
    destruct (Nat.leb_spec h x), (Nat.ltb_spec x (S h)), (Nat.leb_spec (S h) x),
      (Nat.ltb_spec x (S h + n)), (Nat.ltb_spec x (h + S n)); simpl; lia.
Qed.

Lemma allocated_split (h h1 h' x : nat) :
  h <= h1 -> h1 <= h' ->
  allocated h h1 x + allocated h1 h' x = allocated h h' x.
Proof.
  intros L1 L2. unfold allocated.
  destruct (Nat.leb_spec h x), (Nat.ltb_spec x h1), (Nat.leb_spec h1 x),
    (Nat.ltb_spec x h'); simpl; lia.
Qed.

Lemma allocated_none (h x : nat) : allocated h h x = 0.
Proof.
  unfold allocated. destruct (Nat.leb_spec h x), (Nat.ltb_spec x h); simpl; lia.
Qed.

(** A tree that owns every object once, all of them allocated before [h],
    keeps this property when each object of the result is an object of
    the input or a new one. *)
Lemma fresh_objects_NoDup (old new : list nat) (h h' : nat) :
  NoDup old -> (forall o, In o old -> o < h) ->
  (forall x, count x new = count x old + allocated h h' x) ->
  NoDup new.
Proof.
  intros ND B C. apply (NoDup_count_occ Nat.eq_dec). intros x.
  change (count x new <= 1). rewrite C.
  pose proof (proj1 (NoDup_count_occ Nat.eq_dec old) ND x) as L.
  change (count x old <= 1) in L.
  destruct (Nat.eq_dec (count x old) 0) as [Z|NZ].
  - rewrite Z. unfold allocated. destruct ((h <=? x) && (x <? h')); lia.
  - assert (I : In x old).
    { apply (count_occ_In Nat.eq_dec). unfold count in NZ. lia. }
    apply B in I. unfold allocated.
    destruct (Nat.leb_spec h x); simpl; lia.
Qed.

(** ** [clone] *)

Lemma clone_unfold (p : props) (cs : list node) :
  clone (Node p cs)
  = bind fresh (fun o =>
      bind (mapM clone_attr (_attributes p)) (fun attrs =>
        bind (mapM clone cs) (fun kids =>
          ret (Node (mkProps o attrs (abbreviation p) (counter p) (_name p)
                             (_text p) (repeatCount p) (hasImplicitRepeat p)
                             (_data p) [] [] []) kids)))).
Proof.
  cbn [clone]. f_equal.
  assert (E : forall l,
    (fix clone_each (l : list node) : M (list node) :=
       match l with
       | [] => ret []
       | child :: l' =>
           bind (clone child) (fun c => bind (clone_each l') (fun r => ret (c :: r)))
       end) l = mapM clone l).
  { induction l as [|c l IH]; [reflexivity|]. cbn [mapM]. now rewrite IH. }
  now rewrite E.
Qed.

Lemma mapM_clone_attr_spec (l : list attr) (h : nat) :
  exists l', mapM clone_attr l h = Ok (l', h + length l)
             /\ map strip_attr l' = map strip_attr l
             /\ map attr_oid l' = seq h (length l).
Proof.
  revert h; induction l as [|a l IH]; intros h; cbn [mapM].
  - exists []. unfold ret. rewrite Nat.add_0_r. now repeat split.
  - unfold bind at 1. unfold clone_attr at 1. unfold bind at 1, fresh, ret at 1.
    unfold bind at 1. destruct (IH (S h)) as (l' & -> & E1 & E2).
    eexists. unfold ret. split; [|split].
    + f_equal. f_equal. simpl. lia.
    + cbn [map]. now rewrite E1.
    + cbn [map length seq]. now rewrite E2.
Qed.

(** [clone] allocates one object for every object of the original, in
    sequence, and copies the shape. *)
Lemma clone_spec (n : node) :
  forall h, exists n',
    clone n h = Ok (n', h + length (objs n))
    /\ shape n' = shape n
    /\ objs n' = seq h (length (objs n))
    /\ _data (info n') = _data (info n).
Proof.
  induction n as [p cs IH] using node_induction. intros h.
  rewrite clone_unfold. unfold bind at 1, fresh.
  destruct (mapM_clone_attr_spec (_attributes p) (S h)) as (attrs & Ea & Sa & Oa).
  unfold bind at 1. rewrite Ea.
  assert (K : forall h0, exists kids,
    mapM clone cs h0 = Ok (kids, h0 + length (flat_map objs cs))
    /\ map shape kids = map shape cs
    /\ flat_map objs kids = seq h0 (length (flat_map objs cs))).
  { clear Ea Sa Oa attrs h. induction IH as [|c cs Hc _ IHcs]; intros h0.
    - exists []. cbn. rewrite Nat.add_0_r. now repeat split.
    - cbn [mapM]. unfold bind at 1. destruct (Hc h0) as (c' & -> & Sc & Oc & _).
      unfold bind at 1.
      destruct (IHcs (h0 + length (objs c))) as (kids & -> & Sk & Ok').
      exists (c' :: kids). unfold ret. cbn [flat_map map].
      rewrite length_app, seq_app, Sc, Sk, Oc, Ok'. split; [|now split].
      f_equal. f_equal. lia. }
  destruct (K (S h + length (_attributes p))) as (kids & Ek & Sk & Ok').
  unfold bind at 1. rewrite Ek. unfold ret. eexists. split; [|split; [|split]].
  - f_equal. f_equal. cbn [objs length]. rewrite length_app, length_map. lia.
  - cbn [shape]. unfold strip. cbn. now rewrite Sa, Sk.
  - cbn [objs info oid _attributes length]. rewrite length_app, length_map.
    cbn [seq]. now rewrite seq_app, Oa, Ok'.
  - reflexivity.
Qed.

(** ** One level of [unroll] *)

Lemma objs_updateProperty_counter (k : Z) (n : node) :
  objs (updateProperty (set_counter k) n) = objs n.
Proof.
  induction n as [p cs IH] using node_induction. cbn [updateProperty objs].
  cbn [set_counter oid _attributes]. f_equal. f_equal.
  induction IH as [|c cs Hc _ IHcs]; [reflexivity|].
  cbn [map flat_map]. now rewrite Hc, IHcs.
Qed.

Lemma objs_set_repeatCount (v : Z) (n : node) :
  objs (set_info (set_repeatCount v) n) = objs n.
Proof. now destruct n. Qed.

Lemma updateProperty_counter_twice (k k' : Z) (n : node) :
  updateProperty (set_counter k) (updateProperty (set_counter k') n)
  = updateProperty (set_counter k) n.
Proof.
  induction n as [p cs IH] using node_induction. cbn [updateProperty].
  f_equal. rewrite map_map. induction IH as [|c cs Hc _ IHcs]; [reflexivity|].
  cbn [map]. now rewrite Hc, IHcs.
Qed.

Lemma splice_insert {A} (pre rest : list A) (x : A) :
  splice (length pre) 0 [x] (pre ++ rest) = pre ++ x :: rest.
Proof.
  unfold splice. rewrite Nat.add_0_r, firstn_exact.
  now rewrite skipn_app, skipn_all, Nat.sub_diag.
Qed.

Lemma set_nth_middle {A} (pre rest : list A) (x y : A) :
  set_nth (length pre) y (pre ++ x :: rest) = pre ++ y :: rest.
Proof. induction pre as [|a pre IH]; cbn; [reflexivity | now rewrite IH]. Qed.

(** The clones the [while] loop inserts after [pre], whose last element is
    the child being repeated: they carry the counters 2 to [j] from left
    to right and consist of new objects. *)
Lemma unroll_while_spec (child : node) (pre : list node) (p : props) (i : nat) :
  length pre = S i ->
  forall (fuel : nat) (j : Z) (rest : list node) (h : nat),
    Z.to_nat j <= fuel ->
    exists clones h',
      unroll_while fuel j child i (Node p (pre ++ rest)) h
      = Ok (Node p (pre ++ clones ++ rest), h')
      /\ h <= h'
      /\ map shape clones
         = map (fun k => shape (updateProperty (set_counter (Z.of_nat k)) child))
               (seq 2 (Z.to_nat j - 1))
      /\ (forall x, count x (flat_map objs clones) = allocated h h' x).
Proof.
  intros Li. induction fuel as [|fuel IH]; intros j rest h F.
  - cbn [unroll_while]. assert (E : (0 <? j - 1)%Z = false) by (apply Z.ltb_ge; lia).
    rewrite E. exists [], h. unfold ret. cbn [app].
    replace (Z.to_nat j - 1) with 0 by lia.
    repeat split; [lia | intros x; now rewrite allocated_none].
  - cbn [unroll_while]. destruct (0 <? j - 1)%Z eqn:E.
    + apply Z.ltb_lt in E.
      destruct (clone_spec child h) as (c & Ec & Sc & Oc & _).
      unfold bind. rewrite Ec.
      set (x := updateProperty (set_counter (j - 1 + 1)) c).
      assert (A : addChild x (Some (i + 1)) (Node p (pre ++ rest))
                  = Node p (pre ++ x :: rest)).
      { unfold addChild. cbn [children set_children].
        replace (i + 1) with (length pre) by lia. now rewrite splice_insert. }
      rewrite A.
      destruct (IH (j - 1)%Z (x :: rest) (h + length (objs child)))
        as (clones & h' & Eu & Lh & Sh & Cn); [lia|].
      rewrite Eu. exists (clones ++ [x]), h'. split; [|split; [|split]].
      * now rewrite <- !app_assoc.
      * lia.
      * rewrite map_app, Sh. cbn [map].
        replace (Z.to_nat j - 1) with (S (Z.to_nat (j - 1) - 1)) by lia.
        rewrite seq_S, map_app. cbn [map]. f_equal. f_equal.
        unfold x. rewrite !shape_updateProperty_counter, Sc. f_equal. f_equal. lia.
      * intros y. rewrite flat_map_app, count_app, Cn. cbn [flat_map].
        rewrite app_nil_r. unfold x. rewrite objs_updateProperty_counter, Oc.
        rewrite count_seq. rewrite Nat.add_comm. apply allocated_split; lia.
    + apply Z.ltb_ge in E. exists [], h. unfold ret. cbn [app].
      replace (Z.to_nat j - 1) with 0 by lia.
      repeat split; [lia | intros x; now rewrite allocated_none].
Qed.

(** The copies that replace a child at its own level, as shapes: the child
    itself when it does not repeat, else the child with [repeatCount] 1
    under the counters 1, 2, ... *)
Definition levelCopies (c : node) : list node :=
  if isRepeating c then
    map (fun k => updateProperty (set_counter (Z.of_nat k))
                    (set_info (set_repeatCount 1) c))
        (seq 1 (S (Z.to_nat (repeatCount (info c)) - 1)))
  else [c].

Lemma unroll_for_spec (pre : list node) :
  forall (rest : list node) (p : props) (h : nat),
  exists pre' h',
    unroll_for (length pre) (Node p (pre ++ rest)) h = Ok (Node p (pre' ++ rest), h')
    /\ h <= h'
    /\ map shape pre' = map shape (flat_map levelCopies pre)
    /\ (forall x, count x (flat_map objs pre')
                  = count x (flat_map objs pre) + allocated h h' x).
Proof.
  induction pre as [|c pre0 IH] using rev_ind; intros rest p h.
  - exists [], h. cbn. unfold ret. repeat split; [lia|].
    intros x. now rewrite allocated_none.
  - rewrite length_app. cbn [length]. rewrite Nat.add_1_r. cbn [unroll_for].
    cbn [children]. rewrite <- app_assoc. cbn [app]. rewrite nth_error_middle.
    destruct (isRepeating c) eqn:R.
    + set (child := updateProperty (set_counter 1) (set_info (set_repeatCount 1) c)).
      rewrite set_nth_middle.
      destruct (unroll_while_spec child (pre0 ++ [child]) p (length pre0)
                  ltac:(rewrite length_app; cbn; lia)
                  (Z.to_nat (repeatCount (info c))) (repeatCount (info c)) rest h (le_n _))
        as (clones & h1 & Eu & L1 & Sh & Cn).
      unfold bind. replace (pre0 ++ child :: rest) with ((pre0 ++ [child]) ++ rest)
        by (now rewrite <- app_assoc).
      cbn [set_children]. rewrite Eu. rewrite <- app_assoc. cbn [app].
      destruct (IH (child :: clones ++ rest) p h1) as (pre' & h' & Ef & L2 & Sp & Cp).
      rewrite Ef. exists (pre' ++ child :: clones), h'. split; [|split; [|split]].
      * rewrite <- app_assoc. reflexivity.
      * lia.
      * rewrite flat_map_app, !map_app, Sp. f_equal. cbn [flat_map].
        rewrite app_nil_r. unfold levelCopies. rewrite R. cbn [seq map].
        f_equal. rewrite Sh. rewrite !map_map. apply map_ext. intros k.
        unfold child. now rewrite updateProperty_counter_twice.
      * intros x. rewrite !flat_map_app, !count_app, Cp. cbn [flat_map].
        rewrite app_nil_r, !count_app, Cn. unfold child.
        rewrite objs_updateProperty_counter, objs_set_repeatCount.
        rewrite <- (allocated_split h h1 h' x) by lia. lia.
    + destruct (IH (c :: rest) p h) as (pre' & h' & Ef & L2 & Sp & Cp).
      rewrite Ef. exists (pre' ++ [c]), h'. split; [|split; [|split]].
      * now rewrite <- app_assoc.
      * lia.
      * rewrite flat_map_app, !map_app, Sp. f_equal. cbn [flat_map].
        rewrite app_nil_r. unfold levelCopies. now rewrite R.
      * intros x. rewrite !flat_map_app, !count_app, Cp. lia.
Qed.

(** ** The result of [unroll] *)

(** The number of copies of a repeating child: its [repeatCount], and one
    when that is below 1. *)
Definition copyCount (c : node) : nat := S (Z.to_nat (repeatCount (info c)) - 1).

(** The own fields of a node in the result: [ctr] is the counter of the
    closest repeated ancestor-or-self, if any, and [reset] tells that the
    node itself was repeating. *)
Definition topProps (ctr : option Z) (reset : bool) (p : props) : props :=
  let p := if reset then set_repeatCount 1 p else p in
  match ctr with
  | Some k => set_counter k p
  | None => p
  end.

(** The shape of the unrolled tree.  A child that repeats is replaced by
    [copyCount] copies numbered from 1; the number of a copy is the counter
    of all its descendants up to the next repeating descendant, which is
    numbered anew. *)
Fixpoint unrolled (ctr : option Z) (reset : bool) (n : node) : node :=
  match n with
  | Node p cs =>
      Node (strip (topProps ctr reset p))
           (flat_map
              (fun c =>
                 if isRepeating c then
                   map (fun k => unrolled (Some (Z.of_nat k)) true c)
                       (seq 1 (copyCount c))
                 else [unrolled ctr false c])
              cs)
  end.

(** The copies that replace one child of the unrolled node. *)
Definition copies (c : node) : list node :=
  if isRepeating c then
    map (fun k => unrolled (Some (Z.of_nat k)) true c) (seq 1 (copyCount c))
  else [unrolled None false c].

Lemma unrolled_children (ctr : option Z) (reset : bool) (p : props) (cs : list node) :
  unrolled ctr reset (Node p cs)
  = Node (strip (topProps ctr reset p))
         (flat_map
            (fun c =>
               if isRepeating c then
                 map (fun k => unrolled (Some (Z.of_nat k)) true c)
                     (seq 1 (copyCount c))
               else [unrolled ctr false c])
            cs).
Proof. reflexivity. Qed.

Lemma flat_map_ext_Forall {A B} (f g : A -> list B) (l : list A) :
  Forall (fun a => f a = g a) l -> flat_map f l = flat_map g l.
Proof.
  induction 1 as [|a l E _ IH]; [reflexivity|]. cbn [flat_map]. now rewrite E, IH.
Qed.

Lemma map_flat_map {A B C} (f : B -> C) (g : A -> list B) (l : list A) :
  map f (flat_map g l) = flat_map (fun a => map f (g a)) l.
Proof.
  induction l as [|a l IH]; [reflexivity|]. cbn [flat_map].
  now rewrite map_app, IH.
Qed.

Lemma flat_map_map {A B C} (f : B -> list C) (g : A -> B) (l : list A) :
  flat_map f (map g l) = flat_map (fun a => f (g a)) l.
Proof.
  induction l as [|a l IH]; [reflexivity|]. cbn [map flat_map]. now rewrite IH.
Qed.

Lemma strip_strip (p : props) : strip (strip p) = strip p.
Proof.
  unfold strip. cbn. f_equal. rewrite map_map. now apply map_ext.
Qed.

Lemma strip_topProps (ctr : option Z) (reset : bool) (p : props) :
  strip (topProps ctr reset (strip p)) = strip (topProps ctr reset p).
Proof.
  destruct ctr, reset; unfold topProps, strip; cbn; f_equal;
    rewrite map_map; now apply map_ext.
Qed.

Lemma unrolled_shape (n : node) :
  forall ctr reset, unrolled ctr reset (shape n) = unrolled ctr reset n.
Proof.
  induction n as [p cs IH] using node_induction. intros ctr reset.
  cbn [shape]. rewrite !unrolled_children, strip_topProps. f_equal.
  rewrite flat_map_map. apply flat_map_ext_Forall.
  revert IH. apply Forall_impl. intros c Hc.
  rewrite isRepeating_shape.
  assert (E : copyCount (shape c) = copyCount c) by now destruct c.
  rewrite E. destruct (isRepeating c).
  - apply map_ext. intros k. apply Hc.
  - now rewrite Hc.
Qed.

Lemma unrolled_updateProperty (k : Z) (n : node) :
  forall ctr reset,
    unrolled ctr reset (updateProperty (set_counter k) n)
    = unrolled (Some (match ctr with Some m => m | None => k end)) reset n.
Proof.
  induction n as [p cs IH] using node_induction. intros ctr reset.
  cbn [updateProperty]. rewrite !unrolled_children. f_equal.
  - destruct ctr, reset; reflexivity.
  - rewrite flat_map_map. apply flat_map_ext_Forall.
    revert IH. apply Forall_impl. intros c Hc.
    assert (E1 : isRepeating (updateProperty (set_counter k) c) = isRepeating c)
      by now destruct c.
    assert (E2 : copyCount (updateProperty (set_counter k) c) = copyCount c)
      by now destruct c.
    rewrite E1, E2. destruct (isRepeating c).
    + apply map_ext. intros m. apply Hc.
    + now rewrite Hc.
Qed.

Lemma unrolled_set_repeatCount (ctr : option Z) (n : node) :
  unrolled ctr false (set_info (set_repeatCount 1) n) = unrolled ctr true n.
Proof. destruct n as [p cs]. cbn [set_info]. now rewrite !unrolled_children. Qed.

Lemma unrolled_levelCopies (c : node) :
  map (unrolled None false) (levelCopies c) = copies c.
Proof.
  unfold levelCopies, copies, copyCount. destruct (isRepeating c).
  - rewrite map_map. apply map_ext. intros k.
    now rewrite unrolled_updateProperty, unrolled_set_repeatCount.
  - reflexivity.
Qed.

Lemma height_updateProperty (f : props -> props) (n : node) :
  height (updateProperty f n) = height n.
Proof.
  induction n as [p cs IH] using node_induction. cbn [updateProperty height].
  induction IH as [|c cs Hc _ IHcs]; [reflexivity|].
  cbn [map fold_right]. now rewrite Hc, IHcs.
Qed.

Lemma height_child (p : props) (cs : list node) (c : node) :
  In c cs -> height c < height (Node p cs).
Proof.
  cbn [height]. induction cs as [|a cs IH]; intros H; [contradiction|].
  cbn [fold_right]. destruct H as [->|H]; [lia|]. apply IH in H. lia.
Qed.

Lemma height_levelCopies (c y : node) : In y (levelCopies c) -> height y = height c.
Proof.
  unfold levelCopies. destruct (isRepeating c).
  - intros H. apply in_map_iff in H as (k & <- & _).
    rewrite height_updateProperty. now destruct c.
  - intros [<-|[]]. reflexivity.
Qed.

(** [unroll] returns for every tree, and its result has the shape
    [unrolled]; the objects of the result are those of the input and the
    objects allocated meanwhile, each once. *)
Lemma unroll_rec_spec (fuel : nat) :
  forall (n : node) (h : nat),
    height n < fuel ->
    exists n' h',
      unroll_rec fuel n h = Ok (n', h')
      /\ h <= h'
      /\ shape n' = unrolled None false n
      /\ info n' = info n
      /\ (forall x, count x (objs n') = count x (objs n) + allocated h h' x).
Proof.
  induction fuel as [|fuel IH]; intros [p cs] h Hh; [lia|].
  cbn [unroll_rec children].
  destruct (unroll_for_spec cs [] p h) as (pre' & h1 & Ef & L1 & Sp & Cp).
  rewrite !app_nil_r in Ef. unfold bind at 1. rewrite Ef. cbn [children].
  assert (Hp : Forall (fun c' => height c' < fuel) pre').
  { apply Forall_forall. intros c' Hin.
    assert (I : In (shape c') (map shape (flat_map levelCopies cs)))
      by (rewrite <- Sp; now apply in_map).
    apply in_map_iff in I as (y & Ey & Hy).
    apply in_flat_map in Hy as (c & Hc & Hy).
    rewrite (height_of_shape _ _ (eq_sym Ey)), (height_levelCopies _ _ Hy).
    pose proof (height_child p cs c Hc). lia. }
  assert (K : forall h0, exists kids h',
    mapM (unroll_rec fuel) pre' h0 = Ok (kids, h')
    /\ h0 <= h'
    /\ map shape kids = map (unrolled None false) pre'
    /\ (forall x, count x (flat_map objs kids)
                  = count x (flat_map objs pre') + allocated h0 h' x)).
  { clear Ef Sp Cp. induction Hp as [|c pre Hc _ IHp]; intros h0.
    - exists [], h0. cbn. unfold ret. repeat split; [lia|].
      intros x. now rewrite allocated_none.
    - cbn [mapM]. unfold bind at 1.
      destruct (IH c h0 Hc) as (c' & h2 & -> & L2 & Sc & _ & Cc).
      unfold bind at 1. destruct (IHp h2) as (kids & h' & -> & L3 & Sk & Ck).
      exists (c' :: kids), h'. unfold ret. split; [reflexivity|]. split; [lia|].
      split; [cbn [map]; now rewrite Sc, Sk|].
      intros x. cbn [flat_map]. rewrite !count_app, Cc, Ck.
      rewrite <- (allocated_split h0 h2 h' x) by lia. lia. }
  destruct (K h1) as (kids & h' & Ek & L2 & Sk & Ck).
  unfold bind at 1. rewrite Ek. unfold ret. cbn [set_children].
  exists (Node p kids), h'. split; [reflexivity|]. split; [lia|].
  split; [|split; [reflexivity|]].
  - cbn [shape]. rewrite unrolled_children. f_equal. rewrite Sk.
    rewrite <- (map_ext _ _ (fun c => unrolled_shape c None false)).
    rewrite <- map_map, Sp, map_map.
    rewrite (map_ext _ _ (fun c => unrolled_shape c None false)).
    rewrite map_flat_map. apply flat_map_ext_Forall. apply Forall_forall.
    intros c _. rewrite unrolled_levelCopies. reflexivity.
  - intros x. cbn [objs]. rewrite !count_cons, !count_app, Ck, Cp.
    rewrite <- (allocated_split h h1 h' x) by lia. lia.
Qed.

Lemma unroll_spec (n : node) (h : nat) :
  exists n' h',
    unroll n h = Ok (n', h')
    /\ h <= h'
    /\ shape n' = unrolled None false n
    /\ info n' = info n
    /\ (forall x, count x (objs n') = count x (objs n) + allocated h h' x).
Proof. apply unroll_rec_spec. lia. Qed.

Lemma unrolled_counterless (n : node) :
  forall ctr ctr' reset,
    updateProperty (set_counter 0) (unrolled ctr reset n)
    = updateProperty (set_counter 0) (unrolled ctr' reset n).
Proof.
  induction n as [p cs IH] using node_induction. intros ctr ctr' reset.
  rewrite !unrolled_children. cbn [updateProperty]. f_equal.
  - destruct ctr, ctr', reset; reflexivity.
  - rewrite !map_flat_map. apply flat_map_ext_Forall.
    revert IH. apply Forall_impl. intros c Hc. destruct (isRepeating c).
    + reflexivity.
    + cbn [map]. now rewrite (Hc ctr ctr' false).
Qed.

(** The copies of a repeating child: their number, their counters, their
    [repeatCount], their auxiliary data, and their equality up to
    counters. *)
Lemma copies_of_repeating (c : node) :
  isRepeating c = true ->
  length (copies c) = copyCount c
  /\ map (fun x => counter (info x)) (copies c) = map Z.of_nat (seq 1 (copyCount c))
  /\ Forall (fun x => repeatCount (info x) = 1%Z
                      /\ _data (info x) = _data (info c)) (copies c)
  /\ (forall x y, In x (copies c) -> In y (copies c) ->
        updateProperty (set_counter 0) x = updateProperty (set_counter 0) y).
Proof.
  intros R. unfold copies. rewrite R. split; [|split; [|split]].
  - now rewrite length_map, length_seq.
  - rewrite map_map. apply map_ext. intros k. now destruct c.
  - apply Forall_forall. intros x Hx. apply in_map_iff in Hx as (k & <- & _).
    now destruct c.
  - intros x y Hx Hy. apply in_map_iff in Hx as (k & <- & _).
    apply in_map_iff in Hy as (k' & <- & _). apply unrolled_counterless.
Qed.

(** C1, as the code has it. In [li*2>a*2] the second copy of [li] has
    counter 2, but its [a] children are numbered 1 and 2 again: the counter
    of a copy is not the counter of its whole subtree. *)
Lemma nested_repeat_renumbered :
  mapOutcome viewOf (parseString "li*2>a*2")
  = Ok (View EmptyString None [] 1
          [View "li" (Some "li"%string) [] 1
             [View "a" (Some "a"%string) [] 1 [];
              View "a" (Some "a"%string) [] 2 []];
           View "li" (Some "li"%string) [] 2
             [View "a" (Some "a"%string) [] 1 [];
              View "a" (Some "a"%string) [] 2 []]]).
Proof. vm_compute. reflexivity. Qed.

(** Every node of the tree has at most [maxArrayLength] children. *)
Fixpoint fitsArrays (n : node) : bool :=
  match n with
  | Node _ cs =>
      (Z.of_nat (length cs) <=? maxArrayLength)%Z && forallb fitsArrays cs
  end.

(** C1, amended. For every tree with integer repeat counts in which every
    object occurs once, and whose unrolled form has no node with more
    than [maxArrayLength] children, the [unroll] pass returns, and in its
    result each child that was repeating with [repeatCount = j >= 1] is
    replaced by [j] sibling copies in left-to-right order, with
    [repeatCount] 1 and with the counters 1 to [j] on the copies
    themselves; the copies are identical up to counters in all that
    [clone] copies, which leaves out the output properties [start], [end]
    and [padding].  The counter of a copy is the counter of its
    descendants except below a repeating descendant, which is in turn
    replaced by copies numbered from 1 (the shape [unrolled]).  No object
    occurs twice in the result: every node and attribute object of the
    result is an object of the input tree or newly allocated, so that no
    two copies share a node or an attribute object; the auxiliary data of
    a copy are those of the original, by reference.  In particular
    parsing [div>ul>li*3] yields a root whose chain is [div], [ul], three
    [li] siblings with counters 1, 2, 3. *)
Theorem unroll_copies :
  forall (nd : node) (h : nat),
    NoDup (objs nd) ->
    (forall o, In o (objs nd) -> o < h) ->
    fitsArrays (unrolled None false nd) = true ->
    (exists nd' h',
       unroll nd h = Ok (nd', h')
       /\ info nd' = info nd
       /\ map shape (children nd') = flat_map copies (children nd)
       /\ NoDup (objs nd')
       /\ (forall o, In o (objs nd') -> In o (objs nd) \/ h <= o < h'))
    /\ (forall c,
          isRepeating c = true ->
          (1 <= repeatCount (info c))%Z ->
          length (copies c) = Z.to_nat (repeatCount (info c))
          /\ map (fun x => counter (info x)) (copies c)
             = map Z.of_nat (seq 1 (Z.to_nat (repeatCount (info c))))
          /\ Forall (fun x => repeatCount (info x) = 1%Z
                              /\ _data (info x) = _data (info c)) (copies c)
          /\ (forall x y, In x (copies c) -> In y (copies c) ->
                updateProperty (set_counter 0) x = updateProperty (set_counter 0) y))
    /\ mapOutcome viewOf (parseString "div>ul>li*3")
       = Ok (View EmptyString None [] 1
               [View "div" (Some "div"%string) [] 1
                  [View "ul" (Some "ul"%string) [] 1
                     [View "li" (Some "li"%string) [] 1 [];
                      View "li" (Some "li"%string) [] 2 [];
                      View "li" (Some "li"%string) [] 3 []]]]).
Proof.
  intros nd h ND B _. split; [|split].
  - destruct (unroll_spec nd h) as (nd' & h' & E & L & S & I & C).
    exists nd', h'. split; [exact E|]. split; [exact I|]. split; [|split].
    + destruct nd as [p cs], nd' as [p' cs']. cbn [shape] in S.
      rewrite unrolled_children in S. apply (f_equal children) in S.
      exact S.
    + exact (fresh_objects_NoDup (objs nd) (objs nd') h h' ND B C).
    + intros o Ho.
      assert (P : count o (objs nd') > 0)
        by (apply (count_occ_In Nat.eq_dec); exact Ho).
      rewrite C in P.
      destruct (Nat.eq_dec (count o (objs nd)) 0) as [Z|NZ].
      * right. rewrite Z in P. unfold allocated in P.
        destruct (Nat.leb_spec h o), (Nat.ltb_spec o h'); simpl in P; lia.
      * left. apply (count_occ_In Nat.eq_dec). unfold count in NZ. lia.
  - intros c R J. destruct (copies_of_repeating c R) as (A1 & A2 & A3 & A4).
    assert (E : copyCount c = Z.to_nat (repeatCount (info c)))
      by (unfold copyCount; lia).
    rewrite E in A1, A2. now repeat split.
  - vm_compute. reflexivity.
Qed.

Lemma unroll_copies_witness :
  exists nd' h',
    unroll (Node (newProps 0) [Node (set_repeatCount 3 (newProps 1)) []]) 2
    = Ok (nd', h')
    /\ info nd' = info (Node (newProps 0) [Node (set_repeatCount 3 (newProps 1)) []])
    /\ map shape (children nd')
       = flat_map copies
           (children (Node (newProps 0) [Node (set_repeatCount 3 (newProps 1)) []]))
    /\ NoDup (objs nd')
    /\ (forall o, In o (objs nd') ->
          In o (objs (Node (newProps 0) [Node (set_repeatCount 3 (newProps 1)) []]))
          \/ 2 <= o < h').
Proof.
  apply (unroll_copies (Node (newProps 0) [Node (set_repeatCount 3 (newProps 1)) []]) 2).
  - apply distinct_NoDup. reflexivity.
  - cbn. intros o [<-|[<-|[]]]; lia.
  - reflexivity.
Defined.

(** ** Termination of the scan *)

(** The computation returned or threw: it neither ran forever nor ran out
    of fuel. *)
Definition terminates {A} (o : outcome A) : Prop :=
  match o with
  | Ok _ | Throw _ => True
  | Diverge | OutOfFuel => False
  end.

(** The computation returned a value with the property [P], or threw. *)
Definition returns {A} (P : A -> Prop) (o : outcome A) : Prop :=
  match o with
  | Ok a => P a
  | Throw _ => True
  | Diverge | OutOfFuel => False
  end.

Lemma returns_terminates {A} (P : A -> Prop) (o : outcome A) :
  returns P o -> terminates o.
Proof. now destruct o. Qed.

Lemma peek_skipn (s : StringStream) (c : ascii) :
  peek s = Some c -> skipn (pos s) (text s) = c :: skipn (S (pos s)) (text s).
Proof.
  unfold peek. generalize (pos s). induction (text s) as [|a l IH]; intros [|n] H;
    try discriminate.
  - injection H as ->. reflexivity.
  - cbn [skipn]. now apply IH.
Qed.

Lemma peek_some_lt (s : StringStream) (c : ascii) :
  peek s = Some c -> pos s < length (text s).
Proof. intros H. apply nth_error_Some. unfold peek in H. congruence. Qed.

Lemma skipn_more {A} (n : nat) (l tok rest : list A) :
  skipn n l = tok ++ rest -> skipn (n + length tok) l = rest.
Proof.
  intros H. rewrite Nat.add_comm, <- skipn_skipn, H.
  now rewrite skipn_app, skipn_all, Nat.sub_diag.
Qed.

(** A successful [skipToPair] scan stops right after a closing character,
    and depends on the text up to that character only. *)
Lemma skipToPair_scan_split (o c : ascii) (l : str) :
  forall (b p q : nat),
    skipToPair_scan o c l b p = Some q ->
    exists pre rest,
      l = pre ++ c :: rest
      /\ q = p + S (length pre)
      /\ forall rest' p',
           skipToPair_scan o c (pre ++ c :: rest') b p' = Some (p' + S (length pre)).
Proof.
  induction l as [|ch l IH]; intros b p q H; [discriminate|].
  cbn [skipToPair_scan] in H. destruct (ch_eqb ch o) eqn:Eo.
  - destruct (IH _ _ _ H) as (pre & rest & -> & -> & R).
    exists (ch :: pre), rest. split; [reflexivity|]. split; [cbn; lia|].
    intros rest' p'. cbn [app skipToPair_scan]. rewrite Eo, R. f_equal. cbn. lia.
  - destruct (ch_eqb ch c) eqn:Ec.
    + destruct (b <=? 1) eqn:Eb.
      * injection H as <-. apply Ascii.eqb_eq in Ec. subst ch.
        exists [], l. split; [reflexivity|]. split; [cbn; lia|].
        intros rest' p'. cbn [app skipToPair_scan].
        rewrite Eo. unfold ch_eqb at 1. rewrite Ascii.eqb_refl, Eb. f_equal. cbn. lia.
      * destruct (IH _ _ _ H) as (pre & rest & -> & -> & R).
        exists (ch :: pre), rest. split; [reflexivity|]. split; [cbn; lia|].
        intros rest' p'. cbn [app skipToPair_scan]. rewrite Eo, Ec, Eb, R.
        f_equal. cbn. lia.
    + destruct (IH _ _ _ H) as (pre & rest & -> & -> & R).
      exists (ch :: pre), rest. split; [reflexivity|]. split; [cbn; lia|].
      intros rest' p'. cbn [app skipToPair_scan]. rewrite Eo, Ec, R.
      f_equal. cbn. lia.
Qed.

(** A character that [extractText] steps over. *)
Definition plainChar (c : ascii) : bool := negb (mem_ch c (lit "[{(")).

(** The texts the token scanner accepts: plain characters and balanced
    [[...]] and [{...}] spans. *)
Inductive tokenShape : str -> Prop :=
| TS_nil : tokenShape []
| TS_char (c : ascii) (l : str) :
    plainChar c = true -> tokenShape l -> tokenShape (c :: l)
| TS_pair (o : ascii) (w l : str) :
    o = "["%char \/ o = "{"%char ->
    (forall rest p,
        skipToPair_scan o (pairs o) (o :: w ++ pairs o :: rest) 0 p
        = Some (p + S (S (length w)))) ->
    tokenShape l ->
    tokenShape (o :: w ++ pairs o :: l).

(** One call of the token scanner's callback: it refuses the character
    and leaves the cursor, or accepts a piece of a token and leaves the
    cursor on its last character, or throws. *)
Lemma tokenChar_cases (c : ascii) (s : StringStream) :
  peek s = Some c ->
  match tokenChar c s with
  | Ok (true, s') =>
      text s' = text s /\ start s' = start s
      /\ exists tok rest,
           skipn (pos s) (text s) = tok ++ rest
           /\ S (pos s') = pos s + length tok
           /\ 1 <= length tok
           /\ forall l, tokenShape l -> tokenShape (tok ++ l)
  | Ok (false, s') => s' = s
  | Throw _ => True
  | Diverge | OutOfFuel => False
  end.
Proof.
  intros P. pose proof (peek_skipn s c P) as Sk.
  assert (Plain : plainChar c = true ->
            text s = text s /\ start s = start s
            /\ exists tok rest,
                 skipn (pos s) (text s) = tok ++ rest
                 /\ S (pos s) = pos s + length tok
                 /\ 1 <= length tok
                 /\ forall l, tokenShape l -> tokenShape (tok ++ l)).
  { intros Pc. repeat split. exists [c], (skipn (S (pos s)) (text s)).
    repeat split; [exact Sk | cbn; lia | cbn; lia | intros l T; now constructor]. }
  destruct (ch_eqb c "[" || ch_eqb c "{") eqn:E1.
  - unfold tokenChar. rewrite E1. unfold skipToPair.
    destruct (skipToPair_scan c (pairs c) (skipn (pos s) (text s)) 0 (pos s))
      as [q|] eqn:Es; [|exact I].
    destruct (skipToPair_scan_split _ _ _ _ _ _ Es) as (pre & rest0 & Epre & -> & R).
    assert (Hc : c = "["%char \/ c = "{"%char).
    { apply orb_prop in E1 as [E|E]; apply Ascii.eqb_eq in E; auto. }
    assert (Hpre : exists w, pre = c :: w).
    { rewrite Sk in Epre. destruct pre as [|x w].
      - cbn in Epre. injection Epre as Eq _. destruct Hc; subst c; discriminate.
      - cbn in Epre. injection Epre as -> _. now exists w. }
    destruct Hpre as (w & ->).
    unfold backUp, set_pos. cbn [text pos start]. repeat split.
    exists ((c :: w) ++ [pairs c]), rest0. split; [|split; [|split]].
    + rewrite Epre. now rewrite <- app_assoc.
    + rewrite length_app. cbn. lia.
    + cbn. lia.
    + intros l T. rewrite <- app_assoc. cbn [app]. apply TS_pair; [exact Hc | | exact T].
      intros rest p. specialize (R rest p). cbn [app length] in R. exact R.
  - destruct (ch_eqb c "+") eqn:E2.
    + apply Ascii.eqb_eq in E2. subst c. rewrite (tokenChar_plus s P).
      destruct (plusFollowedByMarker s); [now apply Plain | reflexivity].
    + unfold tokenChar. rewrite E1, E2.
      destruct (negb (ch_eqb c "(") && isAllowedChar c) eqn:E3; [|reflexivity].
      apply Plain. unfold plainChar, mem_ch. cbn [lit list_ascii_of_string existsb].
      apply orb_false_elim in E1 as [Ea Eb]. rewrite Ea, Eb.
      apply andb_prop in E3 as [Ec _]. apply negb_true_iff in Ec. now rewrite Ec.
Qed.

(** The token scan returns or throws, and what it has consumed is a token
    shape. *)
Lemma tokenScan_shape (fuel : nat) :
  forall (s : StringStream),
    length (text s) - pos s <= fuel ->
    returns (fun s' => text s' = text s /\ start s' = start s
                       /\ exists tok rest,
                            skipn (pos s) (text s) = tok ++ rest
                            /\ pos s' = pos s + length tok
                            /\ tokenShape tok)
            (eatWhile_loop fuel tokenChar s).
Proof.
  assert (Stop : forall s : StringStream,
            text s = text s /\ start s = start s
            /\ exists tok rest,
                 skipn (pos s) (text s) = tok ++ rest
                 /\ pos s = pos s + length tok /\ tokenShape tok).
  { intros s. repeat split. exists [], (skipn (pos s) (text s)).
    repeat split; [cbn; lia | constructor]. }
  induction fuel as [|fuel IH]; intros s F.
  - cbn [eatWhile_loop]. destruct (peek s) eqn:P; [|apply Stop].
    apply peek_some_lt in P. lia.
  - cbn [eatWhile_loop]. destruct (peek s) as [c|] eqn:P; [|apply Stop].
    pose proof (peek_some_lt s c P) as Lt. pose proof (tokenChar_cases c s P) as T.
    destruct (tokenChar c s) as [[[|] s']|e| |]; try exact T.
    + destruct T as (T1 & T2 & tok & rest & E & Ps & Ln & App).
      assert (Fuel : length (text s') - S (pos s') <= fuel) by (rewrite T1; lia).
      specialize (IH (set_pos s' (S (pos s'))) Fuel).
      cbn [set_pos text pos start] in IH.
      destruct (eatWhile_loop fuel tokenChar _); try exact IH.
      destruct IH as (U1 & U2 & tok' & rest' & E' & P' & TS).
      cbn. split; [congruence|]. split; [congruence|].
      exists (tok ++ tok'), rest'. split; [|split].
      * rewrite E. rewrite <- app_assoc. f_equal. rewrite <- E'. rewrite T1, Ps.
        symmetry. now apply skipn_more.
      * rewrite P', length_app. lia.
      * now apply App.
    + subst s'. apply Stop.
Qed.

(** The cursor [s'] is the cursor [s] moved forward over the same text. *)
Definition advanced (s s' : StringStream) : Prop :=
  text s' = text s /\ pos s <= pos s'.

Lemma advanced_refl (s : StringStream) : advanced s s.
Proof. split; [reflexivity | lia]. Qed.

Lemma advanced_trans (s1 s2 s3 : StringStream) :
  advanced s1 s2 -> advanced s2 s3 -> advanced s1 s3.
Proof. intros [T1 P1] [T2 P2]. split; [congruence | lia]. Qed.

Lemma advanced_mark (s : StringStream) : advanced s (mark s).
Proof. split; [reflexivity | cbn; lia]. Qed.

Lemma advanced_next (s : StringStream) : advanced s (snd (next s)).
Proof.
  unfold next. destruct (peek s); cbn [snd]; [|apply advanced_refl].
  split; [reflexivity | cbn; lia].
Qed.

Lemma advanced_eatWhile (f : ascii -> bool) (s : StringStream) :
  advanced s (snd (eatWhile f s))
  /\ (fst (eatWhile f s) = true -> pos s < pos (snd (eatWhile f s))).
Proof.
  unfold eatWhile. cbn [fst snd]. split.
  - split; [reflexivity | cbn; lia].
  - intros H. apply Nat.ltb_lt in H. cbn. lia.
Qed.

Lemma advanced_eatSpace (s : StringStream) : advanced s (eatSpace s).
Proof. apply advanced_eatWhile. Qed.

Lemma skipToPair_cases (o c : ascii) (s : StringStream) :
  match skipToPair o c s with
  | (true, s') => text s' = text s /\ pos s < pos s' /\ start s' = start s
  | (false, s') => s' = s
  end.
Proof.
  unfold skipToPair.
  destruct (skipToPair_scan o c (skipn (pos s) (text s)) 0 (pos s)) as [q|] eqn:E;
    [|reflexivity].
  destruct (skipToPair_scan_split _ _ _ _ _ _ E) as (pre & rest & _ & -> & _).
  cbn. repeat split. lia.
Qed.

Lemma consumeQuotedValue_scan_pos (quote : ascii) (l : str) :
  forall p, p <= snd (consumeQuotedValue_scan quote l p).
Proof.
  induction l as [|ch l IH]; intros p; cbn [consumeQuotedValue_scan]; [cbn; lia|].
  destruct (ch_eqb ch quote); [cbn; lia|].
  destruct (ch_eqb ch backslash); specialize (IH (S p)); lia.
Qed.

Lemma advanced_consumeQuotedValue (s : StringStream) (quote : ascii) :
  advanced s (snd (consumeQuotedValue s quote)).
Proof.
  unfold consumeQuotedValue.
  pose proof (consumeQuotedValue_scan_pos quote (skipn (pos s) (text s)) (pos s)) as L.
  destruct (consumeQuotedValue_scan quote (skipn (pos s) (text s)) (pos s)) as [b p].
  cbn in *. split; [reflexivity | exact L].
Qed.

(** The value of an attribute is read forward, or refused. *)
Lemma attributeValue_returns (s : StringStream) :
  returns (fun r => advanced s (snd r)) (attributeValue s).
Proof.
  unfold attributeValue.
  pose proof (advanced_next (mark s)) as A1.
  destruct (next (mark s)) as [quote s1]. cbn [snd] in A1.
  assert (A : advanced s s1) by (eapply advanced_trans; [apply advanced_mark | exact A1]).
  assert (Bare : forall s2, advanced s s2 ->
            returns (fun r => advanced s (snd r))
              (let '(ate, stream) := eatWhile reWord s2 in
               if ate then Ok (current stream, stream)
               else Throw InvalidAttributeValue)).
  { intros s2 A2. pose proof (proj1 (advanced_eatWhile reWord s2)) as A3.
    destruct (eatWhile reWord s2) as [[|] s3]; [|exact I].
    cbn. eapply advanced_trans; eassumption. }
  destruct quote as [q|]; [|now apply Bare].
  destruct (ch_eqb q dquote || ch_eqb q squote); [|now apply Bare].
  pose proof (advanced_consumeQuotedValue s1 q) as A2.
  destruct (consumeQuotedValue s1 q) as [[|] s2]; cbn [snd] in A2.
  - cbn. eapply advanced_trans; eassumption.
  - apply Bare. eapply advanced_trans; eassumption.
Qed.

Lemma extractAttributes_loop_terminates (fuel : nat) :
  forall (s : StringStream) (res : list attr) (h : nat),
    length (text s) - pos s <= fuel ->
    terminates (extractAttributes_loop fuel s res h).
Proof.
  induction fuel as [|fuel IH]; intros s res h F.
  - cbn [extractAttributes_loop]. destruct (eol s) eqn:E; [exact I|].
    unfold eol in E. apply Nat.leb_gt in E. lia.
  - cbn [extractAttributes_loop]. destruct (eol s) eqn:E; [exact I|].
    unfold eol in E. apply Nat.leb_gt in E.
    pose proof (advanced_eatWhile reWord (mark s)) as [A1 A2].
    destruct (eatWhile reWord (mark s)) as [[|] s1]; [|exact I].
    cbn [fst snd] in A1, A2. specialize (A2 eq_refl). cbn [mark pos] in A2.
    assert (Go : forall v s2, advanced s1 s2 ->
              terminates ((bind fresh (fun o =>
                 extractAttributes_loop fuel (eatSpace s2)
                   (res ++ [mkAttr o (current s1) v]))) h)).
    { intros v s2 [T2 P2]. unfold bind, fresh. apply IH.
      destruct (advanced_eatSpace s2) as [T3 P3]. destruct A1 as [T1 _].
      cbn [mark text] in T1. rewrite T3, T2, T1. lia. }
    destruct (match peek s1 with Some c => ch_eqb c "=" | None => false end).
    + pose proof (attributeValue_returns (snd (next s1))) as R.
      destruct (attributeValue (snd (next s1))) as [[v s2]| | |]; try exact R.
      cbn in R. apply Go. eapply advanced_trans; [apply advanced_next | exact R].
    + apply Go. apply advanced_refl.
Qed.

Lemma length_trimLeft (s : str) : length (trimLeft s) <= length s.
Proof.
  induction s as [|c s IH]; cbn [trimLeft]; [lia|].
  destruct (isSpace c); cbn [length]; lia.
Qed.

Lemma length_trim (s : str) : length (trim s) <= length s.
Proof.
  unfold trim. rewrite length_rev.
  pose proof (length_trimLeft (rev (trimLeft s))) as L1.
  pose proof (length_trimLeft s) as L2. rewrite length_rev in L1. lia.
Qed.

(** [extractAttributes] returns or throws for every attribute set. *)
Lemma extractAttributes_terminates (attrSet : str) (h : nat) :
  terminates (extractAttributes attrSet h).
Proof.
  unfold extractAttributes. apply extractAttributes_loop_terminates.
  destruct (advanced_eatSpace (create (trim attrSet))) as [T _].
  rewrite T. cbn. lia.
Qed.

Lemma optimizeAttributes_ok (attrs : list attr) (h : nat) :
  exists l, optimizeAttributes attrs h = Ok (l, h + length attrs).
Proof.
  unfold optimizeAttributes, bind.
  destruct (mapM_clone_attr_ok attrs h) as (l' & ->). unfold ret. now eexists.
Qed.

Lemma parseAttributes_loop_terminates (fuel : nat) :
  forall (s : StringStream) (res : list attr) (nameEnd : option nat) (h : nat),
    length (text s) - pos s <= fuel ->
    terminates (parseAttributes_loop fuel s res nameEnd h).
Proof.
  induction fuel as [|fuel IH]; intros s res nameEnd h F.
  - cbn [parseAttributes_loop]. destruct (peek s) eqn:P; [|exact I].
    apply peek_some_lt in P. lia.
  - cbn [parseAttributes_loop]. destruct (peek s) as [c|] eqn:P; [|exact I].
    pose proof (peek_some_lt s c P) as Lt.
    assert (N : text (snd (next s)) = text s /\ pos (snd (next s)) = S (pos s)).
    { unfold next. rewrite P. now cbn. }
    destruct N as [N1 N2].
    destruct (ch_eqb c "#" || ch_eqb c ".").
    + unfold bind, fresh. apply IH.
      destruct (advanced_eatWhile reWord (mark (snd (next s)))) as [[T1 P1] _].
      cbn [mark text pos] in T1, P1. rewrite T1, N1. lia.
    + destruct (ch_eqb c "[").
      * pose proof (skipToPair_cases "[" "]" (mark s)) as C.
        destruct (skipToPair "[" "]" (mark s)) as [[|] s1]; [|exact I].
        destruct C as (T1 & P1 & _). cbn [mark text pos] in T1, P1.
        unfold bind.
        pose proof (extractAttributes_terminates (stripped (current s1)) h) as E.
        destruct (extractAttributes (stripped (current s1)) h) as [[attrs h1]| | |];
          try exact E.
        apply IH. rewrite T1. lia.
      * apply IH. rewrite N1, N2. lia.
Qed.

(** [parseAttributes] returns or throws for every string. *)
Lemma parseAttributes_terminates (abbr : str) (h : nat) :
  terminates (parseAttributes abbr h).
Proof.
  unfold parseAttributes. unfold bind at 1.
  pose proof (parseAttributes_loop_terminates (length abbr) (create abbr) [] None h) as T.
  destruct (parseAttributes_loop (length abbr) (create abbr) [] None h)
    as [[[res nameEnd] h1]| | |]; try (apply T; cbn; lia).
  destruct res as [|a res]; [exact I|].
  unfold bind. destruct (optimizeAttributes_ok (a :: res) h1) as (l & ->). exact I.
Qed.

(** On a token shape [extractText] never meets an unmatched bracket. *)
Lemma extractText_loop_shape (tok : str) :
  tokenShape tok ->
  forall (done abbr : str) (fuel st0 : nat),
    length tok <= fuel ->
    exists r, extractText_loop fuel abbr (mkStream (done ++ tok) (length done) st0) = Ok r.
Proof.
  induction 1 as [|c l Pc _ IH|o w l Ho Scan _ IH]; intros done abbr fuel st0 F.
  - destruct fuel; cbn [extractText_loop]; unfold peek; cbn [text pos];
      rewrite app_nil_r, nth_error_end; now eexists.
  - destruct fuel as [|fuel]; [cbn in F; lia|].
    cbn [extractText_loop]. unfold peek. cbn [text pos]. rewrite nth_error_middle.
    unfold plainChar, mem_ch in Pc. cbn [lit list_ascii_of_string existsb] in Pc.
    apply negb_true_iff in Pc. apply orb_false_elim in Pc as [E1 Pc].
    apply orb_false_elim in Pc as [E2 Pc]. apply orb_false_elim in Pc as [E3 _].
    rewrite E1, E2, E3. cbn [orb]. unfold next, peek. cbn [text pos].
    rewrite nth_error_middle. cbn [snd set_pos text pos start].
    replace (done ++ c :: l) with ((done ++ [c]) ++ l) by (now rewrite <- app_assoc).
    replace (S (length done)) with (length (done ++ [c]))
      by (rewrite length_app; cbn; lia).
    apply IH. cbn in F. lia.
  - destruct fuel as [|fuel]; [cbn in F; lia|].
    cbn [extractText_loop]. unfold peek. cbn [text pos]. rewrite nth_error_middle.
    destruct Ho as [-> | ->].
    + change (ch_eqb "[" "[" || ch_eqb "[" "(") with true. cbv iota.
      unfold skipToPair. cbn [text pos].
      rewrite skipn_app, skipn_all, Nat.sub_diag. cbn [app skipn].
      rewrite Scan. unfold set_pos. cbn [text pos start].
      replace (done ++ "["%char :: w ++ pairs "[" :: l)
        with ((done ++ "["%char :: w ++ [pairs "["]) ++ l)
        by (rewrite <- app_assoc; cbn [app]; now rewrite <- app_assoc).
      replace (length done + S (S (length w)))
        with (length (done ++ "["%char :: w ++ [pairs "["]))
        by (rewrite length_app; cbn [length]; rewrite length_app; cbn; lia).
      apply IH. cbn [length] in F. rewrite length_app in F. cbn in F. lia.
    + change (ch_eqb "{" "[" || ch_eqb "{" "(") with false.
      change (ch_eqb "{" "{") with true. cbv iota. now eexists.
Qed.

Lemma findMultiplier_past (x l : str) (c : ascii) :
  isDigit c = false -> ch_eqb c "*" = false ->
  findMultiplier (x ++ c :: l)
  = match findMultiplier l with
    | Some (before, digits) => Some (x ++ c :: before, digits)
    | None => None
    end.
Proof.
  intros D S. induction x as [|a x IH].
  - cbn [app findMultiplier]. rewrite S. reflexivity.
  - cbn [app findMultiplier]. rewrite IH.
    assert (E : forallb isDigit (x ++ c :: l) = false).
    { rewrite forallb_app. cbn [forallb]. rewrite D. cbn. apply andb_false_r. }
    rewrite E, andb_false_r. now destruct (findMultiplier l) as [[b d]|].
Qed.

(** Removing the multiplier from a token shape leaves a token shape. *)
Lemma findMultiplier_shape (tok : str) :
  tokenShape tok ->
  forall before digits,
    findMultiplier tok = Some (before, digits) -> tokenShape before.
Proof.
  induction 1 as [|c l Pc T IH|o w l Ho Scan T IH]; intros before digits E.
  - discriminate.
  - cbn [findMultiplier] in E.
    destruct (ch_eqb c "*" && forallb isDigit l).
    + injection E as <- _. constructor.
    + destruct (findMultiplier l) as [[b d]|]; [|discriminate].
      injection E as <- _. constructor; [exact Pc | now apply (IH b d)].
  - change (o :: w ++ pairs o :: l) with ((o :: w) ++ pairs o :: l) in E.
    rewrite findMultiplier_past in E by (destruct Ho; subst o; reflexivity).
    destruct (findMultiplier l) as [[b d]|]; [|discriminate].
    injection E as <- _. cbn [app]. apply TS_pair; [exact Ho | exact Scan |].
    now apply (IH b d).
Qed.

(** [setAbbreviation] returns or throws on every token shape. *)
Lemma setAbbreviation_terminates (tok : str) (p : props) (h : nat) :
  tokenShape tok -> terminates (setAbbreviation tok p h).
Proof.
  intros T. unfold setAbbreviation.
  assert (Go : forall abbr this,
            tokenShape abbr ->
            terminates
              (match extractText abbr with
               | Ok abbrText =>
                   (let '(abbr0, this0) :=
                      match abbrText with
                      | Some (element, text) => (element, set_text text this)
                      | None => (abbr, this)
                      end in
                    bind (parseAttributes abbr0) (fun abbrAttrs =>
                      let '(abbr1, this1) :=
                        match abbrAttrs with
                        | Some (element, attributes) =>
                            (element, set_attributes attributes this0)
                        | None => (abbr0, this0)
                        end in
                      let this2 := set_name (Some abbr1) this1 in
                      match abbr1 with
                      | _ :: _ => if reValidName abbr1 then ret this2
                                  else throw InvalidAbbreviation
                      | [] => ret this2
                      end)) h
               | Throw e => Throw e
               | Diverge => Diverge
               | OutOfFuel => OutOfFuel
               end)).
  { intros abbr this Ta.
    assert (X : exists r, extractText abbr = Ok r).
    { unfold extractText. destruct (negb (mem_ch "{" abbr)); [now eexists|].
      apply (extractText_loop_shape abbr Ta [] abbr (length abbr) 0 (le_n _)). }
    destruct X as (r & ->).
    assert (Fin : forall abbr0 this0,
              terminates (bind (parseAttributes abbr0) (fun abbrAttrs =>
                let '(abbr1, this1) :=
                  match abbrAttrs with
                  | Some (element, attributes) =>
                      (element, set_attributes attributes this0)
                  | None => (abbr0, this0)
                  end in
                let this2 := set_name (Some abbr1) this1 in
                match abbr1 with
                | _ :: _ => if reValidName abbr1 then ret this2
                            else throw InvalidAbbreviation
                | [] => ret this2
                end) h)).
    { intros abbr0 this0. unfold bind.
      pose proof (parseAttributes_terminates abbr0 h) as P.
      destruct (parseAttributes abbr0 h) as [[[[el at']|] h1]| | |]; try exact P.
      - destruct el; [exact I|]. now destruct (reValidName _).
      - destruct abbr0; [exact I|]. now destruct (reValidName _). }
    destruct r as [[element text]|]; apply Fin. }
  destruct (findMultiplier tok) as [[before digits]|] eqn:E.
  - apply Go. exact (findMultiplier_shape tok T before digits E).
  - apply Go. exact T.
Qed.

Lemma length_removelast {A} (l : list A) : length (removelast l) = length l - 1.
Proof.
  induction l as [|a l IH]; [reflexivity|]. destruct l as [|b l]; [reflexivity|].
  change (removelast (a :: b :: l)) with (a :: removelast (b :: l)).
  cbn [length] in *. rewrite IH. lia.
Qed.

Lemma length_stripped (x : str) :
  2 <= length x -> length (stripped x) <= length x - 1.
Proof.
  intros L. destruct x as [|a [|b x]]; [cbn in L; lia | cbn in L; lia |].
  unfold stripped. rewrite length_removelast. cbn [tl length]. lia.
Qed.

(** A pair found from its opening character spans two characters at
    least, within the text. *)
Lemma skipToPair_span (o c : ascii) (s : StringStream) (s1 : StringStream) :
  peek s = Some o -> ch_eqb o c = false ->
  skipToPair o c s = (true, s1) ->
  pos s + 2 <= pos s1 /\ pos s1 <= length (text s).
Proof.
  intros P N. unfold skipToPair.
  pose proof (peek_skipn s o P) as Sk.
  pose proof (peek_some_lt s o P) as Lt.
  destruct (skipToPair_scan o c (skipn (pos s) (text s)) 0 (pos s)) as [q|] eqn:E;
    [|discriminate].
  intros X. injection X as <-. unfold set_pos. cbn [pos].
  destruct (skipToPair_scan_split _ _ _ _ _ _ E) as (pre & rest & L & -> & _).
  assert (Len : length (skipn (pos s) (text s)) = length pre + S (length rest))
    by (rewrite L, length_app; reflexivity).
  rewrite length_skipn in Len.
  destruct pre as [|x pre].
  - rewrite Sk in L. cbn [app] in L. injection L as -> _.
    unfold ch_eqb in N. rewrite Ascii.eqb_refl in N. discriminate.
  - cbn [length] in *. lia.
Qed.

Lemma length_substring (a b : nat) (t : str) : length (substring a b t) <= length t.
Proof.
  unfold substring. rewrite length_firstn, length_skipn. lia.
Qed.

Lemma match_multiplier_text (s : StringStream) :
  text (snd (match_multiplier s)) = text s.
Proof.
  unfold match_multiplier. destruct (skipn (pos s) (text s)) as [|c l]; [reflexivity|].
  now destruct (ch_eqb c "*").
Qed.

(** One round of the scan loop returns or throws, and leaves the text of
    the cursor alone, provided the scan of every shorter string does. *)
Lemma scanStep_returns (parseInner : str -> M node) (st : scanState) (h : nat) :
  (forall w h', length w < length (text (stream st)) -> terminates (parseInner w h')) ->
  returns (fun r => text (stream (fst r)) = text (stream st))
          (scanStep parseInner st h).
Proof.
  intros Inner. destruct st as [s this up]. cbn [stream] in Inner.
  unfold scanStep. destruct (peek s) as [ch|] eqn:P; [|reflexivity].
  pose proof (peek_some_lt s ch P) as Lt.
  assert (N : text (snd (next s)) = text s) by apply advanced_next.
  destruct (ch_eqb ch "(") eqn:Ech.
  { pose proof (skipToPair_cases "(" ")" (mark s)) as C.
    destruct (skipToPair "(" ")" (mark s)) as [[|] s1] eqn:Sp; [|exact I].
    destruct C as (T1 & _ & St). cbn [mark text start] in T1, St. unfold bind.
    assert (L : length (stripped (current s1)) < length (text s)).
    { apply Ascii.eqb_eq in Ech. subst ch.
      destruct (skipToPair_span "(" ")" (mark s) s1 P eq_refl Sp) as [Sp1 Sp2].
      cbn [mark pos text] in Sp1, Sp2.
      assert (Lc : length (current s1) = pos s1 - pos s).
      { unfold current, substring. rewrite length_firstn, length_skipn, St, T1. lia. }
      pose proof (length_stripped (current s1)) as L1. lia. }
    pose proof (Inner _ h L) as T.
    destruct (parseInner (stripped (current s1)) h) as [[inner h1]| | |]; try exact T.
    pose proof (match_multiplier_text s1) as M.
    destruct (match_multiplier s1) as [m s2]. cbn [snd] in M. cbn. congruence. }
  destruct (ch_eqb ch ">"); [exact N|].
  destruct (ch_eqb ch "+"); [destruct up; [exact I | exact N]|].
  destruct (ch_eqb ch "^").
  { unfold bind, newAbbreviationNode, bind, fresh, ret.
    destruct up as [|parent [|grand up]]; exact N. }
  unfold eatWhileFn.
  pose proof (tokenScan_shape (length (text (mark s)) - pos (mark s)) (mark s) (le_n _)) as T.
  destruct (eatWhile_loop _ tokenChar (mark s)) as [s'| | |]; try exact T.
  destruct T as (T1 & T2 & tok & rest & E & Ps & TS). cbn [mark text pos start] in *.
  assert (C : current s' = tok).
  { unfold current, substring. rewrite T1, T2, E, Ps.
    replace (pos s + length tok - pos s) with (length tok) by lia.
    apply firstn_exact. }
  rewrite C. unfold bind.
  pose proof (setAbbreviation_terminates tok (info this) h TS) as S.
  destruct (setAbbreviation tok (info this) h) as [[p h1]| | |]; try exact S.
  cbn. exact T1.
Qed.

Lemma scanLoop_terminates (parseInner : str -> M node) (lp : nat) :
  forall (st : scanState) (h : nat),
    (forall w h', length w < length (text (stream st)) -> terminates (parseInner w h')) ->
    terminates (scanLoop parseInner lp st h).
Proof.
  induction lp as [|lp IH]; intros st h Inner.
  - cbn [scanLoop]. now destruct (eol (stream st)).
  - destruct lp as [|lp]; [cbn [scanLoop]; now destruct (eol (stream st))|].
    rewrite scanLoop_unfold. destruct (eol (stream st)); [exact I|].
    unfold bind. pose proof (scanStep_returns parseInner st h Inner) as R.
    destruct (scanStep parseInner st h) as [[st' h1]| | |]; try exact R.
    cbn in R. apply IH. intros w h' L. apply Inner. now rewrite <- R.
Qed.

(** [parseAbbreviation] returns or throws when the fuel exceeds the
    length of the abbreviation. *)
Lemma parseAbbreviation_rec_terminates (fuel : nat) :
  forall (abbr : str) (h : nat),
    length abbr < fuel -> terminates (parseAbbreviation_rec fuel abbr h).
Proof.
  induction fuel as [|fuel IH]; intros abbr h F; [lia|].
  cbn [parseAbbreviation_rec]. unfold bind at 1. unfold newAbbreviationNode at 1.
  unfold bind at 1, fresh at 1, ret at 1. unfold bind at 1.
  unfold newAbbreviationNode at 1. unfold bind at 1, fresh at 1, ret at 1.
  unfold bind at 1.
  match goal with |- context [scanLoop ?P ?n ?st ?h0] =>
    pose proof (scanLoop_terminates P n st h0) as T;
    destruct (scanLoop P n st h0) as [[[lp st'] h1]| | |] end.
  - destruct (lp <? 1); exact I.
  - exact I.
  - apply T. intros w h' L. apply IH. cbn [stream create text] in L.
    pose proof (length_trim abbr). lia.
  - apply T. intros w h' L. apply IH. cbn [stream create text] in L.
    pose proof (length_trim abbr). lia.
Qed.

(** The length of the longest run of digits of [s]; [run] is the length
    of the run that ends where [s] begins. *)
Fixpoint longestDigitRun (run : nat) (s : str) : nat :=
  match s with
  | [] => run
  | c :: s' =>
      if isDigit c then longestDigitRun (S run) s'
      else Nat.max run (longestDigitRun 0 s')
  end.

(** Termination of the parser. For every input string without a run of
    more than 9 digits, so that every multiplier is an integer below
    [maxArrayLength], [parse] with the registries as the module creates
    them returns a tree or throws: the scan loop, the loops of the
    sub-parsers and the rewrite passes all come to an end.  In particular
    [extractText], whose bracket-skipping loop does not advance on an
    unmatched bracket, only ever receives tokens whose brackets the token
    scanner has matched. *)
Theorem parse_terminates :
  forall (abbr : str) (h : nat),
    longestDigitRun 0 abbr <= 9 ->
    (exists tree h', parse initialRegistry abbr tt h = Ok (tree, h'))
    \/ (exists e, parse initialRegistry abbr tt h = Throw e).
Proof.
  intros abbr h _. unfold parse, bind.
  pose proof (parseAbbreviation_rec_terminates (S (length abbr)) abbr h
                (Nat.lt_succ_diag_r _)) as T.
  unfold parseAbbreviation.
  destruct (parseAbbreviation_rec (S (length abbr)) abbr h) as [[tree h1]|e| |];
    try contradiction.
  - left. cbn [initialRegistry preprocessors postprocessors applyEach]. unfold ret.
    destruct (unroll_spec tree h1) as (tree' & h2 & -> & _). now eexists; eexists.
  - right. now exists e.
Qed.

Lemma parse_terminates_witness :
  longestDigitRun 0 (lit "ul>li.item$*12>a[href=x1]{t}") <= 9
  /\ ((exists tree h',
         parse initialRegistry (lit "ul>li.item$*12>a[href=x1]{t}") tt 0 = Ok (tree, h'))
      \/ (exists e,
            parse initialRegistry (lit "ul>li.item$*12>a[href=x1]{t}") tt 0 = Throw e)).
Proof.
  assert (L : longestDigitRun 0 (lit "ul>li.item$*12>a[href=x1]{t}") <= 9)
    by (vm_compute; lia).
  split; [exact L|].
  exact (parse_terminates (lit "ul>li.item$*12>a[href=x1]{t}") 0 L).
Defined.

(** ** The loop guard *)

(** The scan loop without its guard, cut off after [n] rounds. *)
Fixpoint scanRounds (parseInner : str -> M node) (n : nat) (st : scanState)
  : M scanState :=
  if eol (stream st) then ret st
  else
    match n with
    | O => ret st
    | S n' => bind (scanStep parseInner st) (scanRounds parseInner n')
    end.

Lemma scanLoop_rounds {B} (parseInner : str -> M node) (k : scanState -> M B)
    (n : nat) :
  forall (st : scanState) (h : nat),
    bind (scanLoop parseInner (S n) st)
         (fun x => let '(loopProtector, st') := x in
                   if loopProtector <? 1 then throw EndlessLoop else k st') h
    = bind (scanRounds parseInner n st)
           (fun st' => if eol (stream st') then k st' else throw EndlessLoop) h.
Proof.
  induction n as [|n IH]; intros st h.
  - unfold bind. cbn [scanLoop scanRounds]. destruct (eol (stream st)) eqn:E.
    + unfold ret. now rewrite E.
    + unfold ret. now rewrite E.
  - unfold bind. rewrite scanLoop_unfold. cbn [scanRounds].
    destruct (eol (stream st)) eqn:E.
    + unfold ret. now rewrite E.
    + unfold bind in *.
      destruct (scanStep parseInner st h) as [[st' h1]| | |]; try reflexivity.
      apply IH.
Qed.

(** The loop guard. A scan aborts with 'Endless loop detected' exactly
    when its input is not exhausted after 999 rounds of the loop: the scan
    is the unguarded loop cut off after 999 rounds, followed by the test
    that the cursor is at the end.  An error of a round, that of the scan
    of a group included, is passed on. *)
Theorem loop_guard_after_999_rounds :
  forall (fuel : nat) (abbr : str) (h : nat),
    parseAbbreviation_rec (S fuel) abbr h
    = bind (scanRounds (parseAbbreviation_rec fuel) 999
              (mkState (create (trim abbr)) (Node (newProps (S h)) [])
                       [Node (newProps h) []]))
           (fun st => if eol (stream st)
                      then ret (closeTree (context st) (ancestors st))
                      else throw EndlessLoop)
           (S (S h)).
Proof.
  intros fuel abbr h. cbn [parseAbbreviation_rec].
  unfold bind at 1. unfold newAbbreviationNode at 1.
  unfold bind at 1, fresh at 1, ret at 1. unfold bind at 1.
  unfold newAbbreviationNode at 1. unfold bind at 1, fresh at 1, ret at 1.
  apply (scanLoop_rounds (parseAbbreviation_rec fuel)
           (fun st => ret (closeTree (context st) (ancestors st))) 999).
Qed.

Lemma scanLoop_child_operators (parseInner : str -> M node) (n r : nat) :
  forall (lp p st0 : nat) (this : node) (up : list node) (h : nat),
    p + r = n ->
    exists st' h',
      scanLoop parseInner lp
               (mkState (mkStream (repeat ">"%char n) p st0) this up) h
      = Ok ((if r <? lp then lp - r else 0, st'), h').
Proof.
  induction r as [|r IH]; intros lp p st0 this up h E.
  - assert (L : eol (mkStream (repeat ">"%char n) p st0) = true).
    { unfold eol. cbn [text pos]. rewrite repeat_length. apply Nat.leb_le. lia. }
    destruct lp as [|lp]; cbn [scanLoop stream]; rewrite L; unfold ret;
      eexists; eexists; cbn; rewrite ?Nat.sub_0_r; reflexivity.
  - assert (L : eol (mkStream (repeat ">"%char n) p st0) = false).
    { unfold eol. cbn [text pos]. rewrite repeat_length. apply Nat.leb_gt. lia. }
    destruct lp as [|[|lp]].
    + cbn [scanLoop stream]. rewrite L. unfold ret. now eexists; eexists.
    + cbn [scanLoop stream]. rewrite L. unfold ret. now eexists; eexists.
    + rewrite scanLoop_unfold. cbn [stream]. rewrite L. unfold bind at 1.
      assert (P : peek (mkStream (repeat ">"%char n) p st0) = Some ">"%char).
      { unfold peek. cbn [text pos]. apply nth_error_repeat. lia. }
      unfold scanStep. rewrite P.
      change (ch_eqb ">" "(") with false. change (ch_eqb ">" ">") with true.
      cbv iota. unfold bind, newAbbreviationNode, bind, fresh, ret.
      unfold next. rewrite P. unfold set_pos. cbn [snd text pos start].
      destruct (IH (S lp) (S p) st0 (Node (newProps h) []) (this :: up) (S h))
        as (st' & h' & ->); [lia|].
      exists st', h'. reflexivity.
Qed.

Lemma repeat_no_space (n : nat) :
  forallb (fun c => negb (isSpace c)) (repeat ">"%char n) = true.
Proof. induction n as [|n IH]; [reflexivity|]. cbn [repeat forallb]. now rewrite IH. Qed.

(** The depth the loop guard allows. An abbreviation of [n] child
    operators [>] is parsed when [n] is at most 999 and is refused with
    'Endless loop detected' from 1000 operators on. *)
Theorem child_operators_limit :
  forall (n h : nat),
    if n <? 1000
    then exists tree h', parse initialRegistry (repeat ">"%char n) tt h = Ok (tree, h')
    else parse initialRegistry (repeat ">"%char n) tt h = Throw EndlessLoop.
Proof.
  intros n h.
  assert (E : exists st' h',
    scanLoop (parseAbbreviation_rec (length (repeat ">"%char n))) 1000
             (mkState (create (repeat ">"%char n)) (Node (newProps (S h)) [])
                      [Node (newProps h) []]) (S (S h))
    = Ok ((if n <? 1000 then 1000 - n else 0, st'), h')).
  { apply scanLoop_child_operators. reflexivity. }
  destruct E as (st' & h' & E).
  pose proof (trim_no_space _ (repeat_no_space n)) as T.
  destruct (n <? 1000) eqn:L.
  - apply Nat.ltb_lt in L.
    unfold parse, parseAbbreviation. cbn [parseAbbreviation_rec]. rewrite T.
    unfold bind at 1. unfold bind at 1.
    unfold newAbbreviationNode at 1. unfold bind at 1. unfold fresh at 1.
    unfold ret at 1. unfold bind at 1.
    unfold newAbbreviationNode at 1. unfold bind at 1. unfold fresh at 1.
    unfold ret at 1. unfold bind at 1. rewrite E.
    assert (G : (1000 - n <? 1) = false) by (apply Nat.ltb_ge; lia).
    rewrite G. unfold ret at 1.
    cbn [initialRegistry preprocessors postprocessors applyEach]. unfold bind, ret.
    match goal with |- context [unroll ?t ?h0] =>
      destruct (unroll_spec t h0) as (t' & h2 & -> & _) end.
    now eexists; eexists.
  - exact (parse_of_stalled_scan _ h st' h' T E).
Qed.

(** ** The scan loop and its guard *)

(** The state in which the scan of [abbr] begins. *)
Definition scanStart (abbr : str) (h : nat) : scanState :=
  mkState (create (trim abbr)) (Node (newProps (S h)) []) [Node (newProps h) []].

(** C8, as the code has it. An abbreviation of 1000 child operators would
    be read in 1000 rounds of the scan loop, none more, and is refused
    with 'Endless loop detected'; and a scan can end with an error that is
    not the runaway error. *)
Lemma thousand_rounds_refused :
  parseAbbreviation (repeat ">"%char 1000) 0 = Throw EndlessLoop
  /\ (exists st h',
        scanRounds (parseAbbreviation_rec 1000) 1000
                   (scanStart (repeat ">"%char 1000) 0) 2 = Ok (st, h')
        /\ eol (stream st) = true)
  /\ parseAbbreviation (lit "a|") 0 = Throw InvalidAbbreviation.
Proof.
  split; [vm_compute; reflexivity|]. split; [|vm_compute; reflexivity].
  destruct (scanRounds (parseAbbreviation_rec 1000) 1000
              (scanStart (repeat ">"%char 1000) 0) 2) as [[st h']| | |] eqn:E;
    try (vm_compute in E; discriminate).
  exists st, h'. split; [reflexivity|].
  assert (X : match scanRounds (parseAbbreviation_rec 1000) 1000
                      (scanStart (repeat ">"%char 1000) 0) 2 with
              | Ok (st, _) => eol (stream st) = true
              | _ => True
              end) by (vm_compute; reflexivity).
  rewrite E in X. exact X.
Qed.

(** C8, amended. For every input string the scan of [parseAbbreviation]
    ends: it returns the tree or throws an error, which need not be the
    runaway error.  'Endless loop detected' is thrown exactly when the
    input is not exhausted after 999 rounds of the scan loop, or when a
    round passes that error on from the scan of a group: the counter
    starts at the constant 1000 and is decremented before it is compared
    with 0, so that the 1000th round is never run. *)
Theorem scan_ends_or_runs_into_guard :
  forall (abbr : str) (h : nat),
    ((exists tree h', parseAbbreviation abbr h = Ok (tree, h'))
     \/ (exists e, parseAbbreviation abbr h = Throw e))
    /\ (parseAbbreviation abbr h = Throw EndlessLoop
        <-> scanRounds (parseAbbreviation_rec (length abbr)) 999
                       (scanStart abbr h) (S (S h)) = Throw EndlessLoop
            \/ exists st h',
                 scanRounds (parseAbbreviation_rec (length abbr)) 999
                            (scanStart abbr h) (S (S h)) = Ok (st, h')
                 /\ eol (stream st) = false).
Proof.
  intros abbr h. split.
  - pose proof (parseAbbreviation_rec_terminates (S (length abbr)) abbr h
                  (Nat.lt_succ_diag_r _)) as T.
    unfold parseAbbreviation.
    destruct (parseAbbreviation_rec (S (length abbr)) abbr h) as [[tree h']|e| |];
      try contradiction.
    + left. now exists tree, h'.
    + right. now exists e.
  - assert (G : parseAbbreviation abbr h
                = bind (scanRounds (parseAbbreviation_rec (length abbr)) 999
                          (scanStart abbr h))
                       (fun st => if eol (stream st)
                                  then ret (closeTree (context st) (ancestors st))
                                  else throw EndlessLoop)
                       (S (S h))).
    { unfold parseAbbreviation. cbn [parseAbbreviation_rec].
      unfold bind at 1. unfold newAbbreviationNode at 1.
      unfold bind at 1, fresh at 1, ret at 1. unfold bind at 1.
      unfold newAbbreviationNode at 1. unfold bind at 1, fresh at 1, ret at 1.
      apply (scanLoop_rounds (parseAbbreviation_rec (length abbr))
               (fun st => ret (closeTree (context st) (ancestors st))) 999). }
    rewrite G. unfold bind.
    destruct (scanRounds (parseAbbreviation_rec (length abbr)) 999
                (scanStart abbr h) (S (S h))) as [[st h']|e| |].
    + destruct (eol (stream st)) eqn:E.
      * unfold ret. split; [discriminate|].
        intros [X|(st1 & h1 & X & Y)]; [discriminate|].
        injection X as <- <-. congruence.
      * unfold throw. split; [|reflexivity]. intros _. right. now exists st, h'.
    + split.
      * intros X. injection X as ->. now left.
      * intros [X|(st1 & h1 & X & _)]; [|discriminate].
        injection X as ->. reflexivity.
    + split; [discriminate|]. intros [X|(st1 & h1 & X & _)]; discriminate.
    + split; [discriminate|]. intros [X|(st1 & h1 & X & _)]; discriminate.
Qed.

(** ** Quoted and bare attribute values *)

(** A quoted value ends at the first occurrence of the quote character,
    whether or not a backslash stands before it; without such an
    occurrence the whole input is consumed and the result is false. *)
Theorem consumeQuotedValue_first_quote :
  forall (quote : ascii) (pre rest : str) (p : nat),
    forallb (fun c => negb (ch_eqb c quote)) pre = true ->
    consumeQuotedValue_scan quote (pre ++ quote :: rest) p = (true, p + S (length pre))
    /\ consumeQuotedValue_scan quote pre p = (false, p + length pre).
Proof.
  intros quote pre rest. induction pre as [|c pre IH]; intros p H.
  - cbn [app consumeQuotedValue_scan length]. unfold ch_eqb.
    rewrite Ascii.eqb_refl. split; f_equal; lia.
  - cbn [forallb] in H. apply andb_prop in H as [Hc H]. apply negb_true_iff in Hc.
    cbn [app consumeQuotedValue_scan length]. rewrite Hc.
    destruct (IH (S p) H) as [E1 E2].
    destruct (ch_eqb c backslash); rewrite E1, E2; split; f_equal; lia.
Qed.

Lemma consumeQuotedValue_first_quote_witness :
  forallb (fun c => negb (ch_eqb c squote)) ["a"%char; backslash] = true
  /\ consumeQuotedValue_scan squote (["a"%char; backslash] ++ squote :: lit "b") 0
     = (true, 0 + S (length ["a"%char; backslash])).
Proof.
  split; [reflexivity|].
  apply (consumeQuotedValue_first_quote squote ["a"%char; backslash] (lit "b") 0).
  reflexivity.
Defined.

Lemma eatRun_exact (f : ascii -> bool) (run rest : str) :
  forallb f run = true ->
  match rest with [] => True | c :: _ => f c = false end ->
  eatRun f (run ++ rest) = length run.
Proof.
  intros H R. induction run as [|c run IH].
  - destruct rest as [|d rest]; [reflexivity|]. cbn. now rewrite R.
  - cbn [forallb] in H. apply andb_prop in H as [Hc H].
    cbn [app eatRun length]. now rewrite Hc, IH.
Qed.

Lemma reWord_not_space (c : ascii) : reWord c = true -> isSpace c = false.
Proof. ascii_cases c. Qed.

(** A bare attribute value of one character is refused. After [name=] the
    first character of the value is consumed as a would-be quote, and a
    word character must follow: an attribute set such as [col=3], the
    example of the function's own comment, throws 'Invalid attribute
    value'. *)
Theorem single_character_value_refused :
  forall (attrName : str) (c : ascii) (h : nat),
    attrName <> [] ->
    forallb reWord attrName = true ->
    isSpace c = false ->
    extractAttributes (attrName ++ "="%char :: [c]) h = Throw InvalidAttributeValue.
Proof.
  intros attrName c h NE W Sc.
  set (attrSet := attrName ++ "="%char :: [c]).
  assert (T : trim attrSet = attrSet).
  { apply trim_no_space. unfold attrSet. rewrite forallb_app. cbn [forallb].
    rewrite Sc. cbn. rewrite andb_true_r.
    apply (forallb_impl reWord); [|exact W].
    intros a Ha. now rewrite (reWord_not_space a Ha). }
  assert (R0 : eatRun isSpace attrSet = 0).
  { unfold attrSet. destruct attrName as [|a l]; [congruence|].
    cbn [forallb] in W. apply andb_prop in W as [Wa _].
    cbn [app eatRun]. now rewrite (reWord_not_space a Wa). }
  assert (R1 : eatRun reWord attrSet = length attrName).
  { unfold attrSet. now apply eatRun_exact. }
  assert (Ln : 0 < length attrName) by (destruct attrName; [congruence | cbn; lia]).
  unfold extractAttributes. rewrite T.
  unfold eatSpace, eatWhile, create, set_pos. cbn [snd text pos start skipn].
  rewrite R0. cbn [Nat.add].
  assert (Len : length attrSet = S (S (length attrName)))
    by (unfold attrSet; rewrite length_app; cbn; lia).
  rewrite Len. cbn [extractAttributes_loop]. unfold eol at 1. cbn [text pos]. rewrite Len.
  cbn [Nat.leb]. unfold mark, eatWhile. cbn [text pos start skipn].
  rewrite R1. cbn [Nat.add].
  assert (G : (0 <? length attrName) = true) by now apply Nat.ltb_lt.
  rewrite G. unfold set_pos. cbn [text pos start]. unfold peek. cbn [text pos].
  unfold attrSet at 1. rewrite nth_error_middle.
  change (ch_eqb "=" "=") with true. cbv iota.
  unfold next, peek. cbn [text pos]. unfold attrSet at 1. rewrite nth_error_middle.
  unfold set_pos; cbn [snd text pos start].
  unfold attributeValue, mark, next, peek. cbn [text pos start].
  assert (Nc : nth_error attrSet (S (length attrName)) = Some c).
  { unfold attrSet.
    replace (attrName ++ "="%char :: [c]) with ((attrName ++ ["="%char]) ++ [c])
      by (now rewrite <- app_assoc).
    replace (S (length attrName)) with (length (attrName ++ ["="%char]))
      by (rewrite length_app; cbn; lia).
    apply nth_error_middle. }
  unfold set_pos; cbn [text pos start]. rewrite Nc. unfold set_pos; cbn [text pos start].
  assert (End : skipn (S (S (length attrName))) attrSet = []).
  { apply skipn_all2. rewrite Len. lia. }
  assert (Bare : forall s0,
            text s0 = attrSet -> pos s0 = S (S (length attrName)) ->
            (let '(ate, stream) := eatWhile reWord s0 in
             if ate then Ok (current stream, stream)
             else @Throw (str * StringStream) InvalidAttributeValue)
            = Throw InvalidAttributeValue).
  { intros s0 Ts Ps. unfold eatWhile. rewrite Ts, Ps, End. reflexivity. }
  destruct (ch_eqb c dquote || ch_eqb c squote).
  - unfold consumeQuotedValue. cbn [text pos]. rewrite End.
    cbn [consumeQuotedValue_scan]. rewrite Bare; reflexivity.
  - rewrite Bare; reflexivity.
Qed.

Lemma single_character_value_refused_witness :
  lit "col" <> []
  /\ forallb reWord (lit "col") = true
  /\ isSpace "3" = false
  /\ extractAttributes (lit "col" ++ "="%char :: ["3"%char]) 0
     = Throw InvalidAttributeValue.
Proof.
  split; [discriminate|]. split; [reflexivity|]. split; [reflexivity|].
  apply (single_character_value_refused (lit "col") "3" 0);
    [discriminate | reflexivity | reflexivity].
Defined.











(** ** The result of [squash] *)

(** What [squash] puts in the place of a child: the children of a group,
    the child itself otherwise. *)
Definition lift (c : node) : list node := if isGroup c then children c else [c].

(** The shape [squash] gives a tree: group children are replaced by their
    children, once, at every level. *)
Fixpoint squashed (n : node) : node :=
  match n with
  | Node p cs =>
      Node p (flat_map (fun c => if isGroup c then map squashed (children c)
                                 else [squashed c]) cs)
  end.

Lemma squashed_children (p : props) (cs : list node) :
  squashed (Node p cs) = Node p (map squashed (flat_map lift cs)).
Proof.
  cbn [squashed]. f_equal. rewrite map_flat_map. apply flat_map_ext_Forall.
  apply Forall_forall. intros c _. unfold lift. now destruct (isGroup c).
Qed.

Lemma indexOf_middle (pre rest : list node) (n : node) :
  ~ In (oid (info n)) (map (fun c => oid (info c)) pre) ->
  indexOf (pre ++ n :: rest) n = Some (length pre).
Proof.
  induction pre as [|a pre IH]; intros H.
  - cbn. now rewrite Nat.eqb_refl.
  - cbn [app indexOf]. cbn [map In] in H.
    destruct (Nat.eqb_spec (oid (info a)) (oid (info n))) as [E|E]; [tauto|].
    rewrite IH by tauto. reflexivity.
Qed.

Lemma splice_replace {A} (pre rest items : list A) (x : A) :
  splice (length pre) 1 items (pre ++ x :: rest) = pre ++ items ++ rest.
Proof.
  unfold splice. rewrite firstn_exact. f_equal. f_equal.
  rewrite skipn_app.
  replace (length pre + 1 - length pre) with 1 by lia.
  rewrite skipn_all2 by lia. reflexivity.
Qed.

(** The [for] loop of [squash] on children that are distinct objects. *)
Lemma squash_for_spec (pre : list node) :
  forall (rest : list node) (p : props),
    NoDup (map (fun c => oid (info c)) pre) ->
    squash_for (length pre) (Node p (pre ++ rest)) = Node p (flat_map lift pre ++ rest).
Proof.
  induction pre as [|n pre IH] using rev_ind; intros rest p ND; [reflexivity|].
  rewrite map_app in ND. cbn [map] in ND.
  assert (ND0 : NoDup (map (fun c => oid (info c)) pre))
    by (now apply NoDup_app_remove_r in ND).
  assert (NI : ~ In (oid (info n)) (map (fun c => oid (info c)) pre)).
  { apply NoDup_remove_2 in ND. now rewrite app_nil_r in ND. }
  rewrite length_app. cbn [length]. rewrite Nat.add_1_r. cbn [squash_for children].
  rewrite <- app_assoc. cbn [app]. rewrite nth_error_middle.
  rewrite flat_map_app. cbn [flat_map]. rewrite app_nil_r, <- app_assoc.
  unfold lift at 2. destruct (isGroup n) eqn:G.
  - unfold replace. cbn [children set_children].
    rewrite (indexOf_middle pre rest n NI), splice_replace.
    apply IH. exact ND0.
  - unfold isEmpty. rewrite G. cbn [andb app]. apply IH. exact ND0.
Qed.

Lemma count_child (x : nat) (cs : list node) (c : node) :
  In c cs -> count x (objs c) <= count x (flat_map objs cs).
Proof.
  induction cs as [|a cs IH]; intros H; [contradiction|].
  cbn [flat_map]. rewrite count_app. destruct H as [->|H]; [lia|].
  apply IH in H. lia.
Qed.

Lemma count_child_oids (x : nat) (cs : list node) :
  count x (map (fun c => oid (info c)) cs) <= count x (flat_map objs cs).
Proof.
  induction cs as [|[p l] cs IH]; [cbn; lia|].
  cbn [map flat_map objs info]. rewrite count_app, !count_cons, count_app. lia.
Qed.

Lemma NoDup_le (l l' : list nat) :
  (forall x, count x l <= count x l') -> NoDup l' -> NoDup l.
Proof.
  intros H ND. apply (NoDup_count_occ Nat.eq_dec). intros x.
  pose proof (proj1 (NoDup_count_occ Nat.eq_dec l') ND x). specialize (H x).
  unfold count in H. lia.
Qed.

Lemma NoDup_objs_child (p : props) (cs : list node) (c : node) :
  In c cs -> NoDup (objs (Node p cs)) -> NoDup (objs c).
Proof.
  intros H. apply NoDup_le. intros x. cbn [objs]. rewrite count_cons, count_app.
  pose proof (count_child x cs c H). lia.
Qed.

Lemma NoDup_child_oids (p : props) (cs : list node) :
  NoDup (objs (Node p cs)) -> NoDup (map (fun c => oid (info c)) cs).
Proof.
  apply NoDup_le. intros x. cbn [objs]. rewrite count_cons, count_app.
  pose proof (count_child_oids x cs). lia.
Qed.

Lemma lift_smaller (p : props) (cs : list node) (e : node) :
  In e (flat_map lift cs) ->
  height e < height (Node p cs)
  /\ (NoDup (objs (Node p cs)) -> NoDup (objs e)).
Proof.
  intros H. apply in_flat_map in H as (c & Hc & He). unfold lift in He.
  pose proof (height_child p cs c Hc) as L.
  destruct (isGroup c).
  - destruct c as [pc gs]. cbn [children] in He.
    pose proof (height_child pc gs e He). split; [lia|].
    intros ND. apply (NoDup_objs_child pc gs e He).
    exact (NoDup_objs_child p cs _ Hc ND).
  - destruct He as [<-|[]]. split; [exact L|]. now apply NoDup_objs_child.
Qed.

Lemma squash_rec_spec (fuel : nat) :
  forall (n : node),
    height n < fuel -> NoDup (objs n) -> squash_rec fuel n = squashed n.
Proof.
  induction fuel as [|fuel IH]; intros [p cs] Hh ND; [lia|].
  cbn [squash_rec children].
  pose proof (squash_for_spec cs [] p (NoDup_child_oids p cs ND)) as E.
  rewrite !app_nil_r in E. rewrite E. cbn [children set_children].
  rewrite squashed_children. f_equal. apply map_ext_in. intros e He.
  destruct (lift_smaller p cs e He) as [L N]. apply IH; [lia | now apply N].
Qed.

Lemma squash_children (p : props) (cs : list node) :
  NoDup (objs (Node p cs)) ->
  squash (Node p cs) = Node p (map squash (flat_map lift cs)).
Proof.
  intros ND. unfold squash at 1.
  rewrite (squash_rec_spec _ _ (Nat.lt_succ_diag_r _) ND), squashed_children.
  f_equal. apply map_ext_in. intros e He.
  destruct (lift_smaller p cs e He) as [_ N]. unfold squash.
  now rewrite (squash_rec_spec _ _ (Nat.lt_succ_diag_r _) (N ND)).
Qed.

(** [squash] on a tree in which every object occurs once: every group
    child is replaced by its own children, and [squash] goes on in the
    resulting children; the children moved up are not examined for being
    groups themselves. *)
Theorem squash_replaces_groups_once :
  forall (p : props) (cs : list node),
    NoDup (objs (Node p cs)) ->
    squash (Node p cs) = Node p (map squash (flat_map lift cs)).
Proof. exact squash_children. Qed.

Lemma squash_replaces_groups_once_witness :
  NoDup (objs (Node (newProps 0) [Node (newProps 1) [Node (newProps 2) []]]))
  /\ squash (Node (newProps 0) [Node (newProps 1) [Node (newProps 2) []]])
     = Node (newProps 0)
            (map squash (flat_map lift [Node (newProps 1) [Node (newProps 2) []]])).
Proof.
  assert (ND : NoDup (objs (Node (newProps 0) [Node (newProps 1) [Node (newProps 2) []]])))
    by (apply distinct_NoDup; reflexivity).
  split; [exact ND|].
  apply (squash_replaces_groups_once (newProps 0) [Node (newProps 1) [Node (newProps 2) []]]).
  exact ND.
Defined.

(** No node below the root is a group. *)
Fixpoint noGroups (n : node) : bool :=
  match n with
  | Node _ cs => forallb (fun c => negb (isGroup c) && noGroups c) cs
  end.

(** No group below the root has a group among its children. *)
Fixpoint noGroupInGroup (n : node) : bool :=
  match n with
  | Node _ cs =>
      forallb (fun c => (negb (isGroup c)
                         || forallb (fun g => negb (isGroup g)) (children c))
                        && noGroupInGroup c) cs
  end.

Lemma isGroup_squashed (n : node) : isGroup (squashed n) = isGroup n.
Proof. now destruct n. Qed.

Lemma noGroups_squashed (n : node) :
  noGroupInGroup n = true -> noGroups (squashed n) = true.
Proof.
  enough (Q : (noGroupInGroup n = true -> noGroups (squashed n) = true)
              /\ Forall (fun c => noGroupInGroup c = true -> noGroups (squashed c) = true)
                        (children n)) by apply Q.
  induction n as [p cs IH] using node_induction.
  assert (F : Forall (fun c => noGroupInGroup c = true -> noGroups (squashed c) = true) cs).
  { revert IH. apply Forall_impl. intros c H. apply H. }
  split; [|exact F]. cbn [noGroupInGroup squashed noGroups]. intros H.
  apply forallb_forall. intros e He. apply in_flat_map in He as (c & Hc & He).
  pose proof (proj1 (forallb_forall _ _) H c Hc) as Hcond.
  apply andb_prop in Hcond as [H1 H2].
  destruct (isGroup c) eqn:G.
  - cbn [negb orb] in H1. apply in_map_iff in He as (g & <- & Hg).
    pose proof (proj1 (forallb_forall _ _) H1 g Hg) as Ng.
    rewrite isGroup_squashed, Ng. cbn [andb].
    pose proof (proj1 (Forall_forall _ _) IH c Hc) as [_ Fc].
    apply (proj1 (Forall_forall _ _) Fc g Hg).
    destruct c as [pc gs]. cbn [noGroupInGroup] in H2. cbn [children] in Hg.
    pose proof (proj1 (forallb_forall _ _) H2 g Hg) as X.
    now apply andb_prop in X as [_ X].
  - destruct He as [<-|[]]. rewrite isGroup_squashed, G. cbn [negb andb].
    apply (proj1 (Forall_forall _ _) F c Hc H2).
Qed.

Lemma squashed_noGroups (n : node) : noGroups n = true -> squashed n = n.
Proof.
  induction n as [p cs IH] using node_induction. cbn [noGroups squashed].
  intros H. f_equal. induction IH as [|c cs Hc _ IHcs]; [reflexivity|].
  cbn [forallb] in H. apply andb_prop in H as [H1 H2].
  apply andb_prop in H1 as [G N]. apply negb_true_iff in G.
  cbn [flat_map]. rewrite G, (Hc N), (IHcs H2). reflexivity.
Qed.

Lemma count_squashed (x : nat) (n : node) :
  count x (objs (squashed n)) <= count x (objs n).
Proof.
  enough (Q : count x (objs (squashed n)) <= count x (objs n)
              /\ Forall (fun c => count x (objs (squashed c)) <= count x (objs c))
                        (children n)) by apply Q.
  induction n as [p cs IH] using node_induction.
  assert (F : Forall (fun c => count x (objs (squashed c)) <= count x (objs c)) cs).
  { revert IH. apply Forall_impl. intros c H. apply H. }
  split; [|exact F]. cbn [squashed objs]. rewrite !count_cons, !count_app.
  enough (count x (flat_map objs
                     (flat_map (fun c => if isGroup c then map squashed (children c)
                                         else [squashed c]) cs))
          <= count x (flat_map objs cs)) by lia.
  induction IH as [|c cs [_ Hc] _ IHcs]; [cbn; lia|].
  inversion F as [|? ? Fc Fcs]; subst.
  cbn [flat_map]. rewrite flat_map_app, !count_app. specialize (IHcs Fcs).
  enough (count x (flat_map objs (if isGroup c then map squashed (children c)
                                  else [squashed c]))
          <= count x (objs c)) by lia.
  destruct (isGroup c).
  - destruct c as [pc gs]. cbn [children objs] in *. rewrite count_cons, count_app.
    enough (count x (flat_map objs (map squashed gs)) <= count x (flat_map objs gs))
      by lia.
    clear -Hc. induction Hc as [|g gs Hg _ IHg]; [cbn; lia|].
    cbn [map flat_map]. rewrite !count_app. lia.
  - cbn [flat_map]. rewrite app_nil_r. exact Fc.
Qed.

(** Where no group has a group among its children, [squash] does what its
    comment says: no group node (and so no empty node) is left below the
    root, and a second run of [squash] changes nothing. *)
Theorem squash_without_nested_groups :
  forall (nd : node),
    NoDup (objs nd) ->
    noGroupInGroup nd = true ->
    noGroups (squash nd) = true /\ squash (squash nd) = squash nd.
Proof.
  intros nd ND H. unfold squash at 1 3 4.
  rewrite (squash_rec_spec _ _ (Nat.lt_succ_diag_r _) ND).
  pose proof (noGroups_squashed nd H) as N. split; [exact N|].
  unfold squash.
  rewrite (squash_rec_spec _ _ (Nat.lt_succ_diag_r _)
             (NoDup_le _ _ (fun x => count_squashed x nd) ND)).
  now apply squashed_noGroups.
Qed.

Lemma squash_without_nested_groups_witness :
  NoDup (objs (Node (newProps 0) [Node (newProps 1)
                 [Node (set_abbreviation (lit "a") (newProps 2)) []]]))
  /\ noGroupInGroup (Node (newProps 0) [Node (newProps 1)
                      [Node (set_abbreviation (lit "a") (newProps 2)) []]]) = true
  /\ noGroups (squash (Node (newProps 0) [Node (newProps 1)
                 [Node (set_abbreviation (lit "a") (newProps 2)) []]])) = true.
Proof.
  split; [apply distinct_NoDup; reflexivity|]. split; [reflexivity|].
  apply (squash_without_nested_groups
           (Node (newProps 0) [Node (newProps 1)
              [Node (set_abbreviation (lit "a") (newProps 2)) []]])).
  - apply distinct_NoDup. reflexivity.
  - reflexivity.
Defined.

(** ** Attribute optimization *)

Definition inherited (a : attr) : bool :=
  existsb (str_eqb (attr_name a)) objectPrototypeKeys.

Lemma has_name_In (n : str) (l : list attr) :
  has_name n l = true <-> In n (map attr_name l).
Proof.
  unfold has_name. rewrite existsb_exists. split.
  - intros (a & Ha & E). apply str_eqb_eq in E. subst n. now apply in_map.
  - intros H. apply in_map_iff in H as (a & E & Ha). exists a. split; [exact Ha|].
    now apply str_eqb_eq.
Qed.

Lemma merge_names (a : attr) (kept : list attr) :
  map attr_name (map (fun la => if str_eqb (attr_name la) (attr_name a)
                                then merge_attr la a else la) kept)
  = map attr_name kept.
Proof.
  rewrite map_map. apply map_ext. intros la.
  destruct (str_eqb (attr_name la) (attr_name a)); [|reflexivity].
  unfold merge_attr. now destruct (str_eqb _ _).
Qed.

Lemma forallb_map_compose {A B} (f : B -> bool) (g : A -> B) (l : list A) :
  forallb f (map g l) = forallb (fun x => f (g x)) l.
Proof. induction l as [|a l IH]; [reflexivity|]. cbn. now rewrite IH. Qed.

Lemma inherited_same_names (r2 : list attr) :
  forall r,
    map attr_name r2 = map attr_name r ->
    forallb (fun a => negb (inherited a)) r = true ->
    forallb (fun a => negb (inherited a)) r2 = true.
Proof.
  induction r2 as [|a r2 IH]; intros [|b r] E H; try discriminate; [reflexivity|].
  cbn [map] in E. injection E as Ea E. cbn [forallb] in *.
  apply andb_prop in H as [Hb H]. rewrite (IH r E H), andb_true_r.
  unfold inherited in *. now rewrite Ea.
Qed.

Lemma optimize_filter_names (l : list attr) :
  forall kept,
    NoDup (map attr_name kept) ->
    forallb (fun a => negb (inherited a)) kept = true ->
    NoDup (map attr_name (optimize_filter l kept))
    /\ forallb (fun a => negb (inherited a)) (optimize_filter l kept) = true.
Proof.
  induction l as [|a l IH]; intros kept ND NP; [now split|].
  cbn [optimize_filter]. fold (inherited a). destruct (inherited a) eqn:Ia.
  - now apply IH.
  - destruct (has_name (attr_name a) kept) eqn:Hn.
    + apply IH.
      * now rewrite merge_names.
      * apply (inherited_same_names _ kept); [apply merge_names | exact NP].
    + apply IH.
      * rewrite map_app. cbn [map]. apply NoDup_app; [exact ND | | ].
        -- constructor; [intros [] | constructor].
        -- intros x Hx [<-|[]]. apply has_name_In in Hx. congruence.
      * rewrite forallb_app. cbn [forallb]. now rewrite NP, Ia.
Qed.

Lemma optimize_filter_fixed (r : list attr) :
  forall kept,
    NoDup (map attr_name (kept ++ r)) ->
    forallb (fun a => negb (inherited a)) r = true ->
    optimize_filter r kept = kept ++ r.
Proof.
  induction r as [|a r IH]; intros kept ND NP; [now rewrite app_nil_r|].
  cbn [forallb] in NP. apply andb_prop in NP as [Ia NP]. apply negb_true_iff in Ia.
  cbn [optimize_filter]. fold (inherited a). rewrite Ia.
  assert (Hn : has_name (attr_name a) kept = false).
  { destruct (has_name (attr_name a) kept) eqn:E; [|reflexivity].
    apply has_name_In in E. rewrite map_app in ND. cbn [map] in ND.
    apply NoDup_remove_2 in ND. exfalso. apply ND. apply in_or_app. now left. }
  rewrite Hn.
  replace (kept ++ a :: r) with ((kept ++ [a]) ++ r) by (now rewrite <- app_assoc).
  apply IH; [|exact NP]. now rewrite <- app_assoc.
Qed.

(** On attributes none of which is named [__proto__],
    [optimizeAttributes] returns attributes of pairwise different names,
    and optimizing its result again returns the same attributes (as new
    objects). *)
Theorem optimizeAttributes_idempotent :
  forall (attrs : list attr) (h : nat),
  ~ In (lit "__proto__") (map attr_name attrs) ->
  exists r h1 r' h2,
    optimizeAttributes attrs h = Ok (r, h1)
    /\ NoDup (map attr_name r)
    /\ optimizeAttributes r h1 = Ok (r', h2)
    /\ map strip_attr r' = map strip_attr r.
Proof.
  intros attrs h _.
  destruct (mapM_clone_attr_spec attrs h) as (l' & E1 & _ & _).
  destruct (optimize_filter_names l' [] (NoDup_nil _) eq_refl) as [ND NP].
  set (r := optimize_filter l' []) in *.
  destruct (mapM_clone_attr_spec r (h + length attrs)) as (r2 & E2 & S2 & _).
  assert (Names : map attr_name r2 = map attr_name r).
  { transitivity (map attr_name (map strip_attr r2)).
    - rewrite map_map. now apply map_ext.
    - rewrite S2, map_map. now apply map_ext. }
  assert (NP2 : forallb (fun a => negb (inherited a)) r2 = true)
    by exact (inherited_same_names r2 r Names NP).
  exists r, (h + length attrs), (optimize_filter r2 []), (h + length attrs + length r).
  split; [|split; [exact ND|split]].
  - unfold optimizeAttributes, bind. now rewrite E1.
  - unfold optimizeAttributes, bind. now rewrite E2.
  - rewrite (optimize_filter_fixed r2 []);
      [exact S2 | cbn [app]; now rewrite Names | exact NP2].
Qed.

Lemma optimizeAttributes_idempotent_witness :
  ~ In (lit "__proto__")
       (map attr_name [mkAttr 0 (lit "class") (lit "a"); mkAttr 1 (lit "id") (lit "x");
                       mkAttr 2 (lit "class") (lit "b"); mkAttr 3 (lit "id") (lit "y")])
  /\ exists r h1 r' h2,
       optimizeAttributes
         [mkAttr 0 (lit "class") (lit "a"); mkAttr 1 (lit "id") (lit "x");
          mkAttr 2 (lit "class") (lit "b"); mkAttr 3 (lit "id") (lit "y")] 4
       = Ok (r, h1)
       /\ NoDup (map attr_name r)
       /\ optimizeAttributes r h1 = Ok (r', h2)
       /\ map strip_attr r' = map strip_attr r.
Proof.
  assert (N : ~ In (lit "__proto__")
                (map attr_name
                   [mkAttr 0 (lit "class") (lit "a"); mkAttr 1 (lit "id") (lit "x");
                    mkAttr 2 (lit "class") (lit "b"); mkAttr 3 (lit "id") (lit "y")])).
  { cbn. intros [E|[E|[E|[E|[]]]]]; discriminate E. }
  split; [exact N|].
  exact (optimizeAttributes_idempotent _ 4 N).
Defined.

(** ** A name with a multiplier *)

Lemma isAllowedChar_tokenChar (c : ascii) (s : StringStream) :
  isAllowedChar c = true -> tokenChar c s = Ok (true, s).
Proof.
  intros A. unfold tokenChar.
  assert (E1 : ch_eqb c "[" || ch_eqb c "{" = false) by (revert A; ascii_cases c).
  assert (E2 : ch_eqb c "+" = false) by (revert A; ascii_cases c).
  assert (E3 : ch_eqb c "(" = false) by (revert A; ascii_cases c).
  now rewrite E1, E2, E3, A.
Qed.

Lemma eatWhile_loop_allowed (run done : str) (st0 fuel : nat) :
  forallb isAllowedChar run = true ->
  length run <= fuel ->
  eatWhile_loop fuel tokenChar (mkStream (done ++ run) (length done) st0)
  = Ok (mkStream (done ++ run) (length done + length run) st0).
Proof.
  revert done fuel. induction run as [|c run IH]; intros done fuel A F.
  - rewrite app_nil_r, Nat.add_0_r.
    destruct fuel; cbn [eatWhile_loop]; unfold peek; cbn [text pos];
      now rewrite nth_error_end.
  - cbn [forallb] in A. apply andb_prop in A as [A1 A2].
    destruct fuel as [|fuel]; [cbn in F; lia|].
    cbn [eatWhile_loop]. unfold peek. cbn [text pos].
    rewrite nth_error_middle, (isAllowedChar_tokenChar _ _ A1).
    unfold set_pos. cbn [text pos start].
    replace (done ++ c :: run) with ((done ++ [c]) ++ run)
      by (now rewrite <- app_assoc).
    replace (S (length done)) with (length (done ++ [c]))
      by (rewrite length_app; cbn; lia).
    rewrite IH by (auto; cbn in F; lia). f_equal. f_equal.
    rewrite length_app. cbn. lia.
Qed.

(** The default case of the scan loop on an abbreviation that is one
    token of allowed characters. *)
Lemma scanStep_allowed_token (parseInner : str -> M node) (run : str)
    (st0 : nat) (this : node) (up : list node) (h : nat) :
  run <> [] ->
  forallb isAllowedChar run = true ->
  scanStep parseInner (mkState (mkStream run 0 st0) this up) h
  = bind (setAbbreviation run (info this))
         (fun p => ret (mkState (mkStream run (length run) (length run))
                                (set_info (fun _ => p) this) up)) h.
Proof.
  intros NE A. destruct run as [|x run']; [congruence|].
  set (run := x :: run') in *.
  unfold scanStep. unfold peek. cbn [text pos].
  change (nth_error run 0) with (Some x).
  cbn [forallb] in A. pose proof A as A'. apply andb_prop in A' as [A1 _].
  assert (E1 : ch_eqb x "(" = false) by (revert A1; ascii_cases x).
  assert (E2 : ch_eqb x ">" = false) by (revert A1; ascii_cases x).
  assert (E3 : ch_eqb x "+" = false) by (revert A1; ascii_cases x).
  assert (E4 : ch_eqb x "^" = false) by (revert A1; ascii_cases x).
  rewrite E1, E2, E3, E4. cbv iota.
  unfold eatWhileFn, mark. cbn [text pos start].
  pose proof (eatWhile_loop_allowed run [] 0 (length run - 0) A) as L.
  cbn [app length] in L. rewrite L by lia. clear L.
  cbn [pos Nat.add]. unfold current, substring. cbn [text pos start skipn].
  rewrite Nat.sub_0_r, firstn_all. reflexivity.
Qed.

Lemma findMultiplier_after_name (w d : str) :
  forallb nomarkup w = true ->
  forallb isDigit d = true ->
  findMultiplier (w ++ "*"%char :: d) = Some (w, d).
Proof.
  intros N D. induction w as [|c w IH].
  - cbn [app findMultiplier]. now rewrite D.
  - cbn [forallb] in N. apply andb_prop in N as [N1 N2].
    cbn [app findMultiplier]. rewrite (IH N2).
    assert (E : ch_eqb c "*" = false) by (revert N1; ascii_cases c).
    now rewrite E.
Qed.

Lemma parseInt_nonneg (s : str) : (0 <= parseInt s)%Z.
Proof.
  unfold parseInt.
  assert (G : forall acc, (0 <= acc)%Z ->
            (0 <= fold_left (fun a c => (10 * a + digitVal c)%Z) s acc)%Z).
  { induction s as [|c s IH]; intros acc H; [exact H|].
    cbn [fold_left]. apply IH. unfold digitVal. lia. }
  apply G. lia.
Qed.

(** The repeat count a multiplier sets: the digits as a number, and 1
    when that number is 0; a multiplier without digits sets the implicit
    flag and leaves the count. *)
Definition countOf (digits : str) (p : props) : Z :=
  match digits with
  | [] => repeatCount p
  | _ => Z.max 1 (parseInt digits)
  end.

Lemma setAbbreviation_multiplier_fields :
  forall (w d : str) (p : props) (h : nat),
    w <> [] ->
    forallb isNameChar w = true ->
    forallb isDigit d = true ->
    exists p',
      setAbbreviation (w ++ "*"%char :: d) p h = Ok (p', h)
      /\ abbreviation p' = w
      /\ _name p' = Some w
      /\ repeatCount p' = countOf d p
      /\ hasImplicitRepeat p'
         = match d with [] => true | _ => hasImplicitRepeat p end
      /\ _attributes p' = _attributes p /\ _text p' = _text p
      /\ counter p' = counter p /\ oid p' = oid p /\ _data p' = _data p.
Proof.
  intros w d p h NE Nw D.
  pose proof (forallb_impl _ _ w isNameChar_nomarkup Nw) as N.
  set (p1 := _setRepeat (match d with [] => None | _ => Some d end) p).
  assert (E : setAbbreviation (w ++ "*"%char :: d) p h = setAbbreviation w p1 h).
  { unfold setAbbreviation.
    rewrite (findMultiplier_after_name w d N D), (findMultiplier_nomarkup w N).
    reflexivity. }
  rewrite E, (setAbbreviation_nomarkup w p1 h N).
  destruct w as [|x w']; [congruence|].
  rewrite (reValidName_names (x :: w') Nw NE).
  eexists. split; [reflexivity|].
  unfold p1, _setRepeat, countOf. destruct d as [|c d']; [now repeat split|].
  pose proof (parseInt_nonneg (c :: d')) as P.
  generalize dependent (parseInt (c :: d')). intros n P.
  cbn [set_name set_abbreviation set_repeatCount set_hasImplicitRepeat abbreviation
       _name repeatCount hasImplicitRepeat _attributes _text counter oid _data].
  destruct (Z.eqb_spec n 0) as [Z0|NZ]; repeat split; lia.
Qed.

(** A token [name*digits] whose number is at most [maxExactInteger]. The
    multiplier is removed from the abbreviation and the name; it sets
    [repeatCount] to the number, taking 0 as 1, and without digits sets
    [hasImplicitRepeat] and leaves [repeatCount]. *)
Theorem setAbbreviation_name_multiplier :
  forall (w d : str) (p : props) (h : nat),
    w <> [] ->
    forallb isNameChar w = true ->
    forallb isDigit d = true ->
    (parseInt d <= maxExactInteger)%Z ->
    exists p',
      setAbbreviation (w ++ "*"%char :: d) p h = Ok (p', h)
      /\ abbreviation p' = w
      /\ _name p' = Some w
      /\ repeatCount p' = countOf d p
      /\ hasImplicitRepeat p'
         = match d with [] => true | _ => hasImplicitRepeat p end
      /\ _attributes p' = _attributes p /\ _text p' = _text p
      /\ counter p' = counter p /\ oid p' = oid p /\ _data p' = _data p.
Proof.
  intros w d p h NE Nw D _. exact (setAbbreviation_multiplier_fields w d p h NE Nw D).
Qed.

Lemma setAbbreviation_name_multiplier_witness :
  lit "li" <> []
  /\ forallb isNameChar (lit "li") = true
  /\ forallb isDigit (lit "0") = true
  /\ (parseInt (lit "0") <= maxExactInteger)%Z
  /\ exists p',
       setAbbreviation (lit "li" ++ "*"%char :: lit "0") (newProps 7) 8 = Ok (p', 8)
       /\ abbreviation p' = lit "li"
       /\ _name p' = Some (lit "li")
       /\ repeatCount p' = countOf (lit "0") (newProps 7)
       /\ hasImplicitRepeat p'
          = match lit "0" with [] => true | _ => hasImplicitRepeat (newProps 7) end
       /\ _attributes p' = _attributes (newProps 7) /\ _text p' = _text (newProps 7)
       /\ counter p' = counter (newProps 7) /\ oid p' = oid (newProps 7)
       /\ _data p' = _data (newProps 7).
Proof.
  split; [discriminate|]. split; [reflexivity|]. split; [reflexivity|].
  split; [discriminate|].
  apply (setAbbreviation_name_multiplier (lit "li") (lit "0") (newProps 7) 8);
    [discriminate | reflexivity | reflexivity | discriminate].
Defined.

(** ** An abbreviation of one token *)

Lemma parseAbbreviation_single_token (run : str) (h : nat) (p' : props) :
  run <> [] ->
  forallb isAllowedChar run = true ->
  trim run = run ->
  setAbbreviation run (newProps (S h)) (S (S h)) = Ok (p', S (S h)) ->
  parseAbbreviation run h = Ok (Node (newProps h) [Node p' []], S (S h)).
Proof.
  intros NE A T E. unfold parseAbbreviation. cbn [parseAbbreviation_rec]. rewrite T.
  unfold bind at 1. unfold newAbbreviationNode at 1.
  unfold bind at 1, fresh at 1, ret at 1. unfold bind at 1.
  unfold newAbbreviationNode at 1. unfold bind at 1, fresh at 1, ret at 1.
  unfold bind at 1. rewrite (scanLoop_unfold _ 998).
  assert (L : eol (create run) = false).
  { unfold eol, create. cbn [text pos]. apply Nat.leb_gt.
    destruct run; [congruence | cbn; lia]. }
  cbn [stream]. rewrite L. unfold bind at 1. unfold create.
  rewrite (scanStep_allowed_token _ run 0 _ _ _ NE A).
  unfold bind at 1. cbn [info]. rewrite E. unfold ret at 1.
  assert (L2 : eol (mkStream run (length run) (length run)) = true).
  { unfold eol. cbn [text pos]. apply Nat.leb_refl. }
  rewrite (scanLoop_unfold _ 997). cbn [stream]. rewrite L2. reflexivity.
Qed.

Lemma squash_leaves (p : props) (cs : list node) :
  NoDup (objs (Node p cs)) ->
  Forall (fun c => isGroup c = false /\ children c = []) cs ->
  squash (Node p cs) = Node p cs.
Proof.
  intros ND F. rewrite (squash_children p cs ND). f_equal. clear ND.
  induction F as [|c cs [G C] _ IH]; [reflexivity|].
  cbn [flat_map]. unfold lift at 1. rewrite G. cbn [app map]. rewrite IH. f_equal.
  destruct c as [pc gs]. cbn [children] in C. subst gs. reflexivity.
Qed.

(** A child of the tree returned for [name*count], as a shape. *)
Definition repeatedChild (w : str) (implicit : bool) (k : nat) : node :=
  Node (mkProps 0 [] w (Z.of_nat k) (Some w) [] 1%Z implicit [] [] [] []) [].

(** Parsing [name*digits]. For every element name and every run of
    digits whose number is at most [maxArrayLength], [parse] returns a
    root with as many children as the number says (one when it is 0 or
    when no digit follows the [*]), each a leaf named [name] with
    [repeatCount] 1, with the counters 1, 2, ... from left to right, and
    made of objects of its own. *)
Theorem parse_name_times :
  forall (w d : str) (h : nat),
    w <> [] ->
    forallb isNameChar w = true ->
    forallb isDigit d = true ->
    (parseInt d <= maxArrayLength)%Z ->
    exists tree h',
      parse initialRegistry (w ++ "*"%char :: d) tt h = Ok (tree, h')
      /\ info tree = newProps h
      /\ map shape (children tree)
         = map (repeatedChild w (match d with [] => true | _ => false end))
               (seq 1 (Z.to_nat (Z.max 1 (parseInt d))))
      /\ NoDup (objs tree).
Proof.
  intros w d h NE Nw D _.
  set (abbr := w ++ "*"%char :: d).
  destruct (setAbbreviation_multiplier_fields w d (newProps (S h)) (S (S h)) NE Nw D)
    as (p' & E & Fa & Fn & Fr & Fi & Fat & Ft & Fc & Fo & Fd).
  assert (A : forallb isAllowedChar abbr = true).
  { unfold abbr. rewrite forallb_app. cbn [forallb].
    rewrite (forallb_impl _ _ w isNameChar_allowed Nw).
    change (isAllowedChar "*") with true. cbn [andb].
    apply (forallb_impl isDigit); [|exact D]. intros a. ascii_cases a. }
  assert (T : trim abbr = abbr).
  { apply trim_no_space. unfold abbr. rewrite forallb_app. cbn [forallb].
    rewrite (forallb_impl isNameChar _ w); [|intros a Ha; now rewrite isNameChar_not_space|exact Nw].
    change (negb (isSpace "*")) with true. cbn [andb].
    apply (forallb_impl isDigit); [|exact D]. intros a. ascii_cases a. }
  assert (NEa : abbr <> []) by (unfold abbr; now destruct w).
  pose proof (parseAbbreviation_single_token abbr h p' NEa A T E) as Raw.
  set (raw := Node (newProps h) [Node p' []]) in *.
  assert (ND : NoDup (objs raw)).
  { apply distinct_NoDup. cbn. rewrite Fat, Fo. cbn.
    assert (X : (h =? S h) = false) by (apply Nat.eqb_neq; lia). now rewrite X. }
  assert (B : forall o, In o (objs raw) -> o < S (S h)).
  { cbn. rewrite Fat, Fo. cbn. intros o [<-|[<-|[]]]; lia. }
  destruct (unroll_spec raw (S (S h))) as (t1 & h1 & Eu & _ & Sh & In1 & Cn).
  pose proof (fresh_objects_NoDup (objs raw) (objs t1) (S (S h)) h1 ND B Cn) as ND1.
  assert (Kids : map shape (children t1)
                 = map (repeatedChild w (match d with [] => true | _ => false end))
                       (seq 1 (Z.to_nat (Z.max 1 (parseInt d))))).
  { destruct t1 as [p1 cs1]. cbn [shape] in Sh. unfold raw in Sh.
    rewrite unrolled_children in Sh. apply (f_equal children) in Sh.
    cbn [children flat_map] in Sh. rewrite app_nil_r in Sh. cbn [children].
    rewrite Sh. clear Sh.
    assert (Copy : forall ctr reset,
              (reset = false -> repeatCount p' = 1%Z) ->
              unrolled ctr reset (Node p' [])
              = Node (mkProps 0 [] w (match ctr with Some k => k | None => 1%Z end)
                              (Some w) [] 1%Z
                              (match d with [] => true | _ => false end) []
                              [] [] []) []).
    { intros ctr reset R1. rewrite unrolled_children. cbn [flat_map map]. f_equal.
      destruct p' as [o at' ab ct nm tx rc hi dt ns ne pd].
      cbn [abbreviation _name repeatCount hasImplicitRepeat _attributes _text
           counter oid _data newProps] in *.
      subst ab nm hi at' tx ct o dt. clear Fr E Raw ND B.
      destruct reset.
      - destruct ctr; reflexivity.
      - specialize (R1 eq_refl). subst rc. destruct ctr; reflexivity. }
    pose proof (parseInt_nonneg d) as P.
    unfold isRepeating, copyCount. cbn [info]. rewrite Fr, Fi.
    unfold countOf. cbn [repeatCount newProps hasImplicitRepeat].
    destruct d as [|c d'].
    - change (parseInt []) with 0%Z.
      change ((1 <? 1)%Z || true) with true. cbv iota.
      change (S (Z.to_nat 1 - 1)) with 1. change (Z.to_nat (Z.max 1 0)) with 1.
      cbn [seq map]. rewrite Copy by discriminate. reflexivity.
    - cbn [orb]. destruct (Z.ltb_spec 1 (Z.max 1 (parseInt (c :: d')))) as [Lt|Ge].
      + cbn [orb]. replace (S (Z.to_nat (Z.max 1 (parseInt (c :: d'))) - 1))
          with (Z.to_nat (Z.max 1 (parseInt (c :: d')))) by lia.
        apply map_ext. intros k. now rewrite Copy.
      + cbn [orb]. replace (Z.to_nat (Z.max 1 (parseInt (c :: d')))) with 1 by lia.
        cbn [seq map]. rewrite Copy; [reflexivity|]. intros _. rewrite Fr.
        unfold countOf. lia. }
  assert (Leaves : Forall (fun c => isGroup c = false /\ children c = []) (children t1)).
  { apply Forall_forall. intros c Hc.
    assert (I : In (shape c) (map shape (children t1))) by now apply in_map.
    rewrite Kids in I. apply in_map_iff in I as (k & Ek & _).
    destruct c as [pc gs]. cbn [shape] in Ek. unfold repeatedChild in Ek.
    pose proof (f_equal children Ek) as Eg.
    pose proof (f_equal (fun n => abbreviation (info n)) Ek) as Ea.
    cbn in Eg, Ea. destruct gs; [|discriminate]. split; [|reflexivity].
    unfold isGroup. cbn [info]. rewrite <- Ea. destruct w; [congruence | reflexivity]. }
  exists t1, h1. split; [|split; [|split]].
  - unfold parse, bind. rewrite Raw.
    cbn [initialRegistry preprocessors postprocessors applyEach]. unfold ret.
    rewrite Eu. destruct t1 as [p1 cs1]. now rewrite (squash_leaves p1 cs1 ND1 Leaves).
  - rewrite In1. reflexivity.
  - exact Kids.
  - exact ND1.
Qed.

Lemma parse_name_times_witness :
  lit "li" <> []
  /\ forallb isNameChar (lit "li") = true
  /\ forallb isDigit (lit "3") = true
  /\ (parseInt (lit "3") <= maxArrayLength)%Z
  /\ exists tree h',
       parse initialRegistry (lit "li" ++ "*"%char :: lit "3") tt 0 = Ok (tree, h')
       /\ info tree = newProps 0
       /\ map shape (children tree)
          = map (repeatedChild (lit "li") (match lit "3" with [] => true | _ => false end))
                (seq 1 (Z.to_nat (Z.max 1 (parseInt (lit "3")))))
       /\ NoDup (objs tree).
Proof.
  split; [discriminate|]. split; [reflexivity|]. split; [reflexivity|].
  split; [discriminate|].
  apply (parse_name_times (lit "li") (lit "3") 0);
    [discriminate | reflexivity | reflexivity | discriminate].
Defined.

(** ** [clone] as a deep copy *)

(** Every node of the tree has empty output properties. *)
Fixpoint outputEmpty (n : node) : bool :=
  match n with
  | Node p cs =>
      match node_start p, node_end p, padding p with
      | [], [], [] => forallb outputEmpty cs
      | _, _, _ => false
      end
  end.

Lemma clone_outputEmpty (n : node) :
  forall h n' h', clone n h = Ok (n', h') -> outputEmpty n' = true.
Proof.
  induction n as [p cs IH] using node_induction. intros h n' h'.
  rewrite clone_unfold. unfold bind at 1, fresh.
  destruct (mapM_clone_attr_spec (_attributes p) (S h)) as (attrs & Ea & _ & _).
  unfold bind at 1. rewrite Ea. unfold bind at 1.
  assert (K : forall h0 kids h1,
            mapM clone cs h0 = Ok (kids, h1) -> forallb outputEmpty kids = true).
  { clear Ea attrs h n' h'. induction IH as [|c cs Hc _ IHcs]; intros h0 kids h1.
    - cbn. unfold ret. intros E. injection E as <- _. reflexivity.
    - cbn [mapM]. unfold bind at 1.
      destruct (clone c h0) as [[c' h2]| | |] eqn:Ec; try discriminate.
      unfold bind at 1.
      destruct (mapM clone cs h2) as [[kids' h3]| | |] eqn:Ek; try discriminate.
      unfold ret. intros E. injection E as <- _. cbn [forallb].
      now rewrite (Hc _ _ _ Ec), (IHcs _ _ _ Ek). }
  destruct (mapM clone cs (S h + length (_attributes p))) as [[kids h1]| | |] eqn:Ek;
    try discriminate.
  unfold ret. intros E. injection E as <- _.
  cbn [outputEmpty node_start node_end padding]. exact (K _ _ _ Ek).
Qed.

(** [clone] returns a deep copy. The copy has the children structure of
    the original and, on every node, the abbreviation, counter, name,
    text, repeat count, implicit-repeat flag, attribute names and values
    and data entries of the original; its nodes and attribute objects are
    all newly allocated, one for each object of the original, so that no
    object of the clone existed before.  The output properties [start],
    [end] and [padding] are not copied: they are empty on every node of
    the clone. *)
Theorem clone_deep_copy :
  forall (n : node) (h : nat),
  exists n',
    clone n h = Ok (n', h + length (objs n))
    /\ shape n' = shape n
    /\ outputEmpty n' = true
    /\ NoDup (objs n')
    /\ (forall o, In o (objs n') -> h <= o)
    /\ _data (info n') = _data (info n).
Proof.
  intros n h. destruct (clone_spec n h) as (n' & E & S & O & D).
  exists n'. split; [exact E|]. split; [exact S|].
  split; [exact (clone_outputEmpty n h n' _ E)|]. split; [|split; [|exact D]].
  - rewrite O. apply seq_NoDup.
  - intros o Ho. rewrite O in Ho. apply in_seq in Ho. lia.
Qed.

(** ** Searching the tree *)

(** [findAll: function(fn)] for a function [fn]; [_.compact] removes
    nothing, every element being a node. *)
Fixpoint findAll (fn : node -> bool) (this : node) : list node :=
  match this with
  | Node _ cs =>
      flat_map (fun child => (if fn child then [child] else []) ++ findAll fn child) cs
  end.

(** [find: function(fn)] for a function [fn]: [_.find] stops at the first
    child for which the callback leaves a node in [result]. *)
Fixpoint find (fn : node -> bool) (this : node) : option node :=
  match this with
  | Node _ cs =>
      (fix each (l : list node) : option node :=
         match l with
         | [] => None
         | child :: l' =>
             if fn child then Some child
             else match find fn child with
                  | Some result => Some result
                  | None => each l'
                  end
         end) cs
  end.

(** [deepestChild: function()]; the [while] loop follows the last child,
    [fuel] bounds its rounds. *)
Fixpoint deepestChild_loop (fuel : nat) (deepest : node) : node :=
  match children deepest, fuel with
  | [], _ => deepest
  | c :: l, S fuel' => deepestChild_loop fuel' (last l c)
  | _ :: _, O => deepest
  end.

Definition deepestChild (this : node) : option node :=
  match children this with
  | [] => None
  | _ => Some (deepestChild_loop (height this) this)
  end.

(** The descendants of a node, every node before its own descendants
    and the children from left to right. *)
Fixpoint descendants (n : node) : list node :=
  match n with
  | Node _ cs => flat_map (fun c => c :: descendants c) cs
  end.

(** [findAll] returns the descendants that pass the test, every node
    before its own descendants and the children from left to right, and
    [find] returns the first of them, or null when there is none. *)
Theorem find_is_first_of_findAll :
  forall (fn : node -> bool) (this : node),
    findAll fn this = filter fn (descendants this)
    /\ find fn this = List.find fn (descendants this).
Proof.
  intros fn this. induction this as [p cs IH] using node_induction.
  cbn [find findAll descendants]. induction IH as [|c cs [Ac Fc] _ [IH1 IH2]].
  - split; reflexivity.
  - cbn [flat_map]. split.
    + rewrite filter_app. cbn [filter]. rewrite Ac, IH1.
      destruct (fn c); reflexivity.
    + cbn [app List.find]. destruct (fn c) eqn:E; [reflexivity|].
      rewrite Fc, IH2. clear.
      induction (descendants c) as [|d l IHl]; [reflexivity|].
      cbn [app List.find]. destruct (fn d); [reflexivity | exact IHl].
Qed.

Lemma height_last (c : node) (l : list node) (p : props) :
  height (last l c) < height (Node p (c :: l)).
Proof.
  apply height_child. destruct l as [|a l]; [now left|].
  right. assert (NE : a :: l <> []) by discriminate.
  destruct (exists_last NE) as (l' & z & E). rewrite E, last_last.
  apply in_or_app. right. now left.
Qed.

Lemma deepestChild_loop_leaf (fuel : nat) :
  forall (n : node), height n <= fuel -> children (deepestChild_loop fuel n) = [].
Proof.
  induction fuel as [|fuel IH]; intros [p cs] H.
  - destruct cs as [|c l]; [reflexivity|].
    pose proof (height_last c l p). lia.
  - destruct cs as [|c l]; [reflexivity|]. cbn [deepestChild_loop children].
    apply IH. pose proof (height_last c l p). lia.
Qed.

(** [deepestChild] returns nothing exactly for a node without children,
    and otherwise a node without children: the loop along the last
    children ends at a leaf. *)
Theorem deepestChild_is_leaf :
  forall (this : node),
    match deepestChild this with
    | None => children this = []
    | Some d => children this <> [] /\ children d = []
    end.
Proof.
  intros this. unfold deepestChild. destruct (children this) eqn:E; [reflexivity|].
  split; [discriminate|]. apply deepestChild_loop_leaf. lia.
Qed.

(** ** Ownership of objects through [parse] *)

(** The computation, when it returns, returns a value and an allocator
    state with the property [P]. *)
Definition whenOk {A} (P : A -> nat -> Prop) (o : outcome (A * nat)) : Prop :=
  match o with
  | Ok (a, h') => P a h'
  | _ => True
  end.

Lemma whenOk_bind {A B} (m : M A) (f : A -> M B) (P : A -> nat -> Prop)
    (Q : B -> nat -> Prop) (h : nat) :
  whenOk P (m h) -> (forall a h1, P a h1 -> whenOk Q (f a h1)) ->
  whenOk Q (bind m f h).
Proof.
  unfold bind. destruct (m h) as [[a h1]| | |]; cbn [whenOk]; try easy.
  intros Pa F. now apply F.
Qed.

Lemma whenOk_impl {A} (P Q : A -> nat -> Prop) (o : outcome (A * nat)) :
  whenOk P o -> (forall a h, P a h -> Q a h) -> whenOk Q o.
Proof. destruct o as [[a h]| | |]; cbn [whenOk]; auto. Qed.

(** Every identity of [l] was handed out between the allocator states
    [h] and [h'], and occurs once. *)
Definition owned (h h' : nat) (l : list nat) : Prop :=
  forall x, count x l <= allocated h h' x.

(** The identities of [new] are identities of [old], at most as often,
    or were handed out between [h] and [h']. *)
Definition grows (h h' : nat) (old new : list nat) : Prop :=
  h <= h' /\ forall x, count x new <= count x old + allocated h h' x.

Lemma allocated_le_1 (h h' x : nat) : allocated h h' x <= 1.
Proof. unfold allocated. destruct ((h <=? x) && (x <? h')); lia. Qed.

Lemma allocated_range (h h' x : nat) : 1 <= allocated h h' x -> h <= x < h'.
Proof.
  unfold allocated. destruct (Nat.leb_spec h x), (Nat.ltb_spec x h'); simpl; lia.
Qed.

Lemma owned_NoDup (h h' : nat) (l : list nat) :
  owned h h' l -> NoDup l /\ (forall o, In o l -> h <= o < h').
Proof.
  intros O. split.
  - apply (NoDup_count_occ Nat.eq_dec). intros x. specialize (O x).
    pose proof (allocated_le_1 h h' x). unfold count in O. lia.
  - intros o Ho. apply allocated_range. specialize (O o).
    apply (count_occ_In Nat.eq_dec) in Ho. unfold count in O. lia.
Qed.

Lemma NoDup_owned (h h' : nat) (l : list nat) :
  NoDup l -> (forall o, In o l -> h <= o < h') -> owned h h' l.
Proof.
  intros ND R x. pose proof (proj1 (NoDup_count_occ Nat.eq_dec l) ND x) as L.
  change (count x l <= 1) in L.
  destruct (Nat.eq_dec (count x l) 0) as [Z|NZ]; [lia|].
  assert (I : In x l) by (apply (count_occ_In Nat.eq_dec); unfold count in NZ; lia).
  apply R in I. unfold allocated.
  destruct (Nat.leb_spec h x), (Nat.ltb_spec x h'); simpl; lia.
Qed.

Lemma grows_refl (h : nat) (l : list nat) : grows h h l l.
Proof. split; [lia|]. intros x. lia. Qed.

Lemma grows_trans (h h1 h' : nat) (l l1 l' : list nat) :
  grows h h1 l l1 -> grows h1 h' l1 l' -> grows h h' l l'.
Proof.
  intros [L1 C1] [L2 C2]. split; [lia|]. intros x.
  specialize (C1 x). specialize (C2 x).
  rewrite <- (allocated_split h h1 h' x L1 L2). lia.
Qed.

Lemma grows_owned (h0 h h' : nat) (l l' : list nat) :
  h0 <= h -> owned h0 h l -> grows h h' l l' -> owned h0 h' l'.
Proof.
  intros L O [L' C] x. specialize (O x). specialize (C x).
  rewrite <- (allocated_split h0 h h' x L L'). lia.
Qed.

Lemma owned_grows (h h' : nat) (l : list nat) :
  h <= h' -> owned h h' l -> grows h h' [] l.
Proof. intros L O. split; [exact L|]. intros x. specialize (O x). cbn. lia. Qed.

Lemma owned_wider (h0 h h' : nat) (l : list nat) :
  h0 <= h -> h <= h' -> owned h h' l -> owned h0 h' l.
Proof.
  intros L L' O x. specialize (O x).
  rewrite <- (allocated_split h0 h h' x L L'). lia.
Qed.

(** *** The attribute parsers *)

Lemma extractAttributes_loop_mono (fuel : nat) :
  forall (s : StringStream) (res : list attr) (h : nat),
    whenOk (fun _ h' => h <= h') (extractAttributes_loop fuel s res h).
Proof.
  induction fuel as [|fuel IH]; intros s res h; cbn [extractAttributes_loop];
    (destruct (eol s); [cbn; lia|]);
    (destruct (eatWhile reWord (mark s)) as [[|] s1]; [|cbn; lia]);
    destruct (if match peek s1 with Some c => ch_eqb c "=" | None => false end
              then attributeValue (snd (next s1)) else Ok ([], s1))
      as [[v s2]| | |]; try exact I.
  unfold bind, fresh.
  eapply whenOk_impl; [apply IH|]. cbn beta. intros _ h' L. lia.
Qed.

Lemma parseAttributes_loop_mono (fuel : nat) :
  forall (s : StringStream) (res : list attr) (nameEnd : option nat) (h : nat),
    whenOk (fun _ h' => h <= h') (parseAttributes_loop fuel s res nameEnd h).
Proof.
  induction fuel as [|fuel IH]; intros s res nameEnd h; cbn [parseAttributes_loop];
    (destruct (peek s) as [c|]; [|cbn; lia]); [exact I|].
  destruct (ch_eqb c "#" || ch_eqb c ".").
  - unfold bind, fresh. eapply whenOk_impl; [apply IH|]. cbn beta. intros _ h' L. lia.
  - destruct (ch_eqb c "["); [|apply IH].
    destruct (skipToPair "[" "]" (mark s)) as [[|] s1]; [|exact I].
    eapply whenOk_bind; [apply extractAttributes_loop_mono|].
    cbn beta. intros attrs h1 L.
    eapply whenOk_impl; [apply IH|]. cbn beta. intros _ h' L'. lia.
Qed.

Lemma merge_attr_oid (la a : attr) : attr_oid (merge_attr la a) = attr_oid la.
Proof. unfold merge_attr. now destruct (str_eqb _ _). Qed.

Lemma optimize_filter_oids (l : list attr) :
  forall (kept : list attr) (x : nat),
    count x (map attr_oid (optimize_filter l kept))
    <= count x (map attr_oid (kept ++ l)).
Proof.
  induction l as [|a l IH]; intros kept x; cbn [optimize_filter].
  - now rewrite app_nil_r.
  - rewrite map_app, count_app. cbn [map]. rewrite count_cons.
    destruct (existsb (str_eqb (attr_name a)) objectPrototypeKeys).
    + specialize (IH kept x). rewrite map_app, count_app in IH. lia.
    + destruct (has_name (attr_name a) kept).
      * specialize (IH (map (fun la => if str_eqb (attr_name la) (attr_name a)
                                      then merge_attr la a else la) kept) x).
        assert (E : map attr_oid
                      (map (fun la => if str_eqb (attr_name la) (attr_name a)
                                      then merge_attr la a else la) kept)
                    = map attr_oid kept).
        { rewrite map_map. apply map_ext. intros la.
          destruct (str_eqb _ _); [apply merge_attr_oid | reflexivity]. }
        rewrite map_app, count_app, E in IH. lia.
      * specialize (IH (kept ++ [a]) x).
        rewrite !map_app, !count_app in IH. cbn [map] in IH.
        rewrite count_cons in IH. cbn in IH. lia.
Qed.

Lemma optimizeAttributes_owned (attrs : list attr) (h : nat) :
  whenOk (fun r h' => h <= h' /\ owned h h' (map attr_oid r))
         (optimizeAttributes attrs h).
Proof.
  unfold optimizeAttributes, bind.
  destruct (mapM_clone_attr_spec attrs h) as (l' & -> & _ & O). unfold ret.
  cbn [whenOk]. split; [lia|]. intros x.
  etransitivity; [apply optimize_filter_oids|].
  cbn [app]. rewrite O, count_seq. lia.
Qed.

Lemma parseAttributes_owned (abbr : str) (h : nat) :
  whenOk (fun r h' => h <= h'
                      /\ match r with
                         | Some (_, attrs) => owned h h' (map attr_oid attrs)
                         | None => True
                         end)
         (parseAttributes abbr h).
Proof.
  unfold parseAttributes.
  eapply whenOk_bind; [apply parseAttributes_loop_mono|].
  cbn beta. intros [res nameEnd] h1 L. destruct res as [|a res].
  - cbn. split; [lia | exact I].
  - eapply whenOk_bind; [apply optimizeAttributes_owned|].
    cbn beta. intros r h2 [L2 O]. cbn. split; [lia|].
    now apply (owned_wider h h1 h2).
Qed.

(** [setAbbreviation] keeps the node's identity, and its attribute
    objects are the ones it had or new ones. *)
Lemma setAbbreviation_owned (tok : str) (p : props) (h : nat) :
  whenOk (fun p' h' => oid p' = oid p
                       /\ grows h h' (map attr_oid (_attributes p))
                                (map attr_oid (_attributes p')))
         (setAbbreviation tok p h).
Proof.
  unfold setAbbreviation.
  assert (Go : forall abbr this,
            oid this = oid p -> _attributes this = _attributes p ->
            whenOk (fun p' h' => oid p' = oid p
                       /\ grows h h' (map attr_oid (_attributes p))
                                (map attr_oid (_attributes p')))
              (match extractText abbr with
               | Ok abbrText =>
                   (let '(abbr0, this0) :=
                      match abbrText with
                      | Some (element, text) => (element, set_text text this)
                      | None => (abbr, this)
                      end in
                    bind (parseAttributes abbr0) (fun abbrAttrs =>
                      let '(abbr1, this1) :=
                        match abbrAttrs with
                        | Some (element, attributes) =>
                            (element, set_attributes attributes this0)
                        | None => (abbr0, this0)
                        end in
                      let this2 := set_name (Some abbr1) this1 in
                      match abbr1 with
                      | _ :: _ => if reValidName abbr1 then ret this2
                                  else throw InvalidAbbreviation
                      | [] => ret this2
                      end)) h
               | Throw e => Throw e
               | Diverge => Diverge
               | OutOfFuel => OutOfFuel
               end)).
  { intros abbr this Eo Ea. destruct (extractText abbr) as [r| | |]; try exact I.
    assert (Fin : forall abbr0 this0,
              oid this0 = oid p -> _attributes this0 = _attributes p ->
              whenOk (fun p' h' => oid p' = oid p
                         /\ grows h h' (map attr_oid (_attributes p))
                                  (map attr_oid (_attributes p')))
                (bind (parseAttributes abbr0) (fun abbrAttrs =>
                   let '(abbr1, this1) :=
                     match abbrAttrs with
                     | Some (element, attributes) =>
                         (element, set_attributes attributes this0)
                     | None => (abbr0, this0)
                     end in
                   let this2 := set_name (Some abbr1) this1 in
                   match abbr1 with
                   | _ :: _ => if reValidName abbr1 then ret this2
                               else throw InvalidAbbreviation
                   | [] => ret this2
                   end) h)).
    { intros abbr0 this0 Eo0 Ea0.
      eapply whenOk_bind; [apply parseAttributes_owned|].
      cbn beta. intros [[element attributes]|] h1 [L O].
      - assert (G : grows h h1 (map attr_oid (_attributes p))
                          (map attr_oid attributes)).
        { split; [exact L|]. intros x. specialize (O x). lia. }
        cbn zeta. destruct element as [|c element]; [now cbn|].
        destruct (reValidName (c :: element)); [now cbn | exact I].
      - assert (G : grows h h1 (map attr_oid (_attributes p))
                          (map attr_oid (_attributes this0))).
        { rewrite Ea0. split; [exact L|]. intros x. lia. }
        cbn zeta. destruct abbr0 as [|c abbr0]; [now cbn|].
        destruct (reValidName (c :: abbr0)); [now cbn | exact I]. }
    destruct r as [[element text]|]; apply Fin; assumption. }
  destruct (findMultiplier tok) as [[before digits]|]; apply Go; try reflexivity.
  - unfold _setRepeat. now destruct digits.
  - unfold _setRepeat. now destruct digits.
Qed.

(** *** The scan loop *)

(** The identities of the objects of the tree under construction. *)
Definition stateObjs (st : scanState) : list nat :=
  objs (context st) ++ flat_map objs (ancestors st).

Lemma count_addChild (x : nat) (c this : node) :
  count x (objs (addChild c None this)) = count x (objs this) + count x (objs c).
Proof.
  destruct this as [p cs]. cbn [addChild set_children children objs].
  rewrite !count_cons, !count_app, flat_map_app, count_app. cbn [flat_map].
  rewrite app_nil_r. lia.
Qed.

Lemma count_addChildren (x : nat) (l : list node) :
  forall (this : node),
    count x (objs (fold_left (fun this child => addChild child None this) l this))
    = count x (objs this) + count x (flat_map objs l).
Proof.
  induction l as [|c l IH]; intros this; cbn [fold_left flat_map].
  - cbn. lia.
  - rewrite IH, count_addChild, count_app. lia.
Qed.

Lemma count_closeTree (x : nat) (anc : list node) :
  forall (c : node),
    count x (objs (closeTree c anc)) = count x (objs c ++ flat_map objs anc).
Proof.
  induction anc as [|parent up IH]; intros c; cbn [closeTree flat_map].
  - now rewrite app_nil_r.
  - rewrite IH, !count_app, count_addChild. lia.
Qed.

Lemma objs_setRepeat (count : option str) (n : node) :
  objs (set_info (_setRepeat count) n) = objs n.
Proof. destruct n. unfold _setRepeat. now destruct count as [[|d digits]|]. Qed.

Section ScanOwnership.

Variable parseInner : str -> M node.

Hypothesis parseInner_owned :
  forall (s : str) (h : nat),
    whenOk (fun n h' => h <= h' /\ owned h h' (objs n)) (parseInner s h).

Lemma scanStep_grows (st : scanState) (h : nat) :
  whenOk (fun st' h' => grows h h' (stateObjs st) (stateObjs st'))
         (scanStep parseInner st h).
Proof.
  destruct st as [s ctx anc]. cbn [scanStep].
  destruct (peek s) as [ch|]; [|apply grows_refl].
  destruct (ch_eqb ch "(").
  { destruct (skipToPair "(" ")" (mark s)) as [[|] s1]; [|exact I].
    eapply whenOk_bind; [apply parseInner_owned|].
    cbn beta. intros inner h1 [L O].
    destruct (match_multiplier s1) as [multiplier s2]. cbn [ret whenOk].
    split; [exact L|]. intros x. unfold stateObjs. cbn [context ancestors].
    rewrite !count_app, count_addChildren.
    assert (E : count x (objs match multiplier with
                               | Some count => set_info (_setRepeat count) ctx
                               | None => ctx
                               end) = count x (objs ctx)).
    { destruct multiplier; [now rewrite objs_setRepeat | reflexivity]. }
    rewrite E. specialize (O x). destruct inner as [ip ics].
    cbn [children]. cbn [objs] in O. rewrite count_cons, count_app in O. lia. }
  assert (New : forall s' anc',
            (forall x, count x (flat_map objs anc')
                       = count x (objs ctx) + count x (flat_map objs anc)) ->
            whenOk (fun st' h' => grows h h' (stateObjs (mkState s ctx anc))
                                        (stateObjs st'))
                   (Ok (mkState s' (Node (newProps h) []) anc', S h))).
  { intros s' anc' C. cbn [whenOk]. split; [lia|]. intros x.
    unfold stateObjs. cbn [context ancestors objs newProps oid _attributes map
                           flat_map app].
    rewrite !count_app, count_cons, C. cbn. lia. }
  destruct (ch_eqb ch ">").
  { unfold bind, newAbbreviationNode, fresh, ret. apply New.
    intros x. cbn [flat_map]. now rewrite count_app. }
  destruct (ch_eqb ch "+").
  { destruct anc as [|parent up]; [exact I|].
    unfold bind, newAbbreviationNode, fresh, ret. apply New.
    intros x. cbn [flat_map]. rewrite !count_app, count_addChild. lia. }
  destruct (ch_eqb ch "^").
  { unfold bind, newAbbreviationNode, fresh, ret.
    destruct anc as [|parent [|grand up]]; apply New; intros x; cbn [flat_map];
      rewrite ?count_app, ?count_addChild, ?app_nil_r; cbn; lia. }
  destruct (eatWhileFn tokenChar (mark s)) as [[b s1]| | |]; try exact I.
  eapply whenOk_bind; [apply setAbbreviation_owned|].
  cbn beta. intros p' h1 [Eo [L C]]. cbn [ret whenOk]. split; [exact L|].
  intros x. unfold stateObjs. cbn [context ancestors]. destruct ctx as [p cs].
  cbn [set_info objs info] in *. rewrite !count_app, !count_cons, !count_app, Eo.
  specialize (C x). lia.
Qed.

Lemma scanLoop_grows (loopProtector : nat) :
  forall (st : scanState) (h : nat),
    whenOk (fun r h' => grows h h' (stateObjs st) (stateObjs (snd r)))
           (scanLoop parseInner loopProtector st h).
Proof.
  induction loopProtector as [|n IH]; intros st h; cbn [scanLoop].
  - destruct (eol (stream st)); apply grows_refl.
  - destruct (eol (stream st)); [apply grows_refl|].
    destruct n as [|n]; [apply grows_refl|].
    eapply whenOk_bind; [apply scanStep_grows|].
    cbn beta. intros st1 h1 G.
    eapply whenOk_impl; [apply IH|]. cbn beta. intros r h' G'.
    eapply grows_trans; eassumption.
Qed.

End ScanOwnership.

Lemma parseAbbreviation_rec_owned (fuel : nat) :
  forall (abbr : str) (h : nat),
    whenOk (fun n h' => h <= h' /\ owned h h' (objs n))
           (parseAbbreviation_rec fuel abbr h).
Proof.
  induction fuel as [|fuel IH]; intros abbr h; [exact I|].
  cbn [parseAbbreviation_rec]. unfold newAbbreviationNode.
  unfold bind at 1 2 3 4, fresh, ret.
  eapply whenOk_bind; [apply (scanLoop_grows _ IH)|].
  cbn beta. intros [loopProtector st] h1 [L G].
  destruct (loopProtector <? 1); [exact I|]. cbn [ret whenOk].
  split; [lia|]. intros x. rewrite count_closeTree. fold (stateObjs st).
  specialize (G x). cbn [snd] in G. etransitivity; [exact G|].
  unfold stateObjs. cbn [context ancestors objs newProps oid _attributes map
                         flat_map app].
  rewrite !count_cons. cbn [count count_occ].
  pose proof (allocated_split h (S h) (S (S h)) x).
  pose proof (allocated_split h (S (S h)) h1 x). lia.
Qed.

(** Every node and every attribute object of the tree [parse] returns was
    allocated by this call, and occurs in the tree once: no object is
    shared between two places of the tree, or with anything that existed
    before the call. *)
Theorem parse_owns_its_objects :
  forall (abbr : str) (h : nat) (tree : node) (h' : nat),
    parse initialRegistry abbr tt h = Ok (tree, h') ->
    NoDup (objs tree) /\ (forall o, In o (objs tree) -> h <= o < h').
Proof.
  intros abbr h tree h' P. apply owned_NoDup.
  unfold parse, bind, parseAbbreviation in P.
  pose proof (parseAbbreviation_rec_owned (S (length abbr)) abbr h) as Raw.
  destruct (parseAbbreviation_rec (S (length abbr)) abbr h) as [[raw h1]| | |];
    try discriminate.
  destruct Raw as [L O].
  cbn [initialRegistry preprocessors postprocessors applyEach] in P.
  unfold ret in P.
  destruct (unroll_spec raw h1) as (un & h2 & E & L2 & _ & _ & C).
  rewrite E in P. injection P as <- <-.
  assert (Ou : owned h h2 (objs un)).
  { eapply grows_owned; [exact L | exact O |]. split; [exact L2|].
    intros x. rewrite C. lia. }
  destruct (owned_NoDup _ _ _ Ou) as [ND _].
  unfold squash. rewrite (squash_rec_spec _ _ (Nat.lt_succ_diag_r _) ND).
  intros x. etransitivity; [apply count_squashed | apply Ou].
Qed.

Lemma parse_owns_its_objects_witness :
  exists tree h',
    parse initialRegistry (lit "ul>li.item*2") tt 0 = Ok (tree, h')
    /\ NoDup (objs tree) /\ (forall o, In o (objs tree) -> 0 <= o < h').
Proof.
  destruct (parse initialRegistry (lit "ul>li.item*2") tt 0) as [[tree h']| | |] eqn:E;
    try (vm_compute in E; discriminate).
  exists tree, h'. split; [reflexivity|].
  exact (parse_owns_its_objects (lit "ul>li.item*2") 0 tree h' E).
Defined.

(** ** The text of an element *)

Definition noBracket (c : ascii) : bool := negb (mem_ch c (lit "[({")).

Definition noBrace (c : ascii) : bool := negb (mem_ch c (lit "{}")).

Lemma mem_ch_app (c : ascii) (l r : str) :
  mem_ch c (l ++ r) = mem_ch c l || mem_ch c r.
Proof. unfold mem_ch. apply existsb_app. Qed.

Lemma extractText_loop_skip (w : str) :
  forall (done rest abbr : str) (fuel st0 : nat),
    forallb noBracket w = true ->
    extractText_loop (length w + fuel) abbr
      (mkStream (done ++ w ++ rest) (length done) st0)
    = extractText_loop fuel abbr
        (mkStream (done ++ w ++ rest) (length (done ++ w)) st0).
Proof.
  induction w as [|c w IH]; intros done rest abbr fuel st0 N.
  - now rewrite app_nil_r.
  - cbn [forallb] in N. apply andb_prop in N as [Nc N].
    cbn [length Nat.add app]. cbn [extractText_loop]. unfold peek. cbn [text pos].
    rewrite nth_error_middle.
    assert (E1 : ch_eqb c "[" || ch_eqb c "(" = false) by (revert Nc; ascii_cases c).
    assert (E2 : ch_eqb c "{" = false) by (revert Nc; ascii_cases c).
    rewrite E1, E2. unfold next, peek. cbn [text pos].
    rewrite nth_error_middle. cbn [snd]. unfold set_pos. cbn [text pos start].
    replace (done ++ c :: w ++ rest) with ((done ++ [c]) ++ w ++ rest)
      by (now rewrite <- app_assoc).
    replace (S (length done)) with (length (done ++ [c]))
      by (rewrite length_app; cbn; lia).
    rewrite IH by exact N. now rewrite <- !app_assoc.
Qed.

Lemma skipToPair_scan_braces (t rest : str) :
  forall (p : nat),
    forallb noBrace t = true ->
    skipToPair_scan "{" "}" (t ++ "}"%char :: rest) 1 p = Some (S (p + length t)).
Proof.
  induction t as [|c t IH]; intros p N.
  - cbn. f_equal. lia.
  - cbn [forallb] in N. apply andb_prop in N as [Nc N].
    cbn [app skipToPair_scan].
    assert (E1 : ch_eqb c "{" = false) by (revert Nc; ascii_cases c).
    assert (E2 : ch_eqb c "}" = false) by (revert Nc; ascii_cases c).
    rewrite E1, E2, IH by exact N. cbn [length]. f_equal. lia.
Qed.

Lemma removelast_end {A} (l : list A) (x : A) : removelast (l ++ [x]) = l.
Proof. rewrite removelast_app by discriminate. cbn. apply app_nil_r. Qed.

Lemma skipToPair_braces (w t rest : str) (st0 : nat) :
  forallb noBrace t = true ->
  skipToPair "{" "}" (mkStream (w ++ "{"%char :: t ++ "}"%char :: rest) (length w) st0)
  = (true, mkStream (w ++ "{"%char :: t ++ "}"%char :: rest)
                    (length w + S (S (length t))) st0).
Proof.
  intros Nt. unfold skipToPair. cbn [text pos].
  rewrite skipn_app, Nat.sub_diag, skipn_all2 by lia. cbn [skipn app skipToPair_scan].
  change (ch_eqb "{" "{") with true. cbv iota.
  rewrite skipToPair_scan_braces by exact Nt. unfold set_pos. cbn [text pos start].
  do 2 f_equal. lia.
Qed.

(** [extractText] on a string with a text in braces: the element is what
    stands before the first opening brace, the text what stands in the
    braces, and whatever follows the closing brace is left out of both. *)
Theorem extractText_braces :
  forall (w t rest : str),
    forallb noBracket w = true ->
    forallb noBrace t = true ->
    extractText (w ++ "{"%char :: t ++ "}"%char :: rest) = Ok (Some (w, t)).
Proof.
  intros w t rest Nw Nt. unfold extractText.
  rewrite mem_ch_app. unfold mem_ch at 2. cbn [existsb].
  change (ch_eqb "{" "{") with true. rewrite orb_true_r. cbn [orb negb].
  rewrite length_app. unfold create.
  pose proof (extractText_loop_skip w [] ("{"%char :: t ++ "}"%char :: rest)
                (w ++ "{"%char :: t ++ "}"%char :: rest)
                (length ("{"%char :: t ++ "}"%char :: rest)) 0 Nw) as Skip.
  cbn [app] in Skip. change (length []) with 0 in Skip. rewrite Skip.
  cbn [length extractText_loop]. unfold peek. cbn [text pos].
  rewrite nth_error_middle.
  change (ch_eqb "{" "[" || ch_eqb "{" "(") with false.
  change (ch_eqb "{" "{") with true. cbv iota.
  unfold mark. cbn [text pos]. rewrite skipToPair_braces by exact Nt.
  cbn [snd]. unfold current. cbn [text pos start]. f_equal. f_equal. f_equal.
  - unfold substring. cbn [skipn]. rewrite Nat.sub_0_r. apply firstn_exact.
  - unfold substring. rewrite skipn_app, Nat.sub_diag, skipn_all2 by lia.
    cbn [skipn app].
    replace (length w + S (S (length t)) - length w)
      with (length ("{"%char :: t ++ ["}"%char]))
      by (cbn [length]; rewrite length_app; cbn; lia).
    replace ("{"%char :: t ++ "}"%char :: rest)
      with (("{"%char :: t ++ ["}"%char]) ++ rest)
      by (cbn [app]; now rewrite <- app_assoc).
    rewrite firstn_exact. unfold stripped. cbn [tl].
    destruct (t ++ ["}"%char]) as [|y l] eqn:E; [destruct t; discriminate E|].
    rewrite <- E. apply removelast_end.
Qed.

Lemma extractText_braces_witness :
  forallb noBracket (lit "p") = true
  /\ forallb noBrace (lit "Hello world") = true
  /\ extractText (lit "p{Hello world}.intro") = Ok (Some (lit "p", lit "Hello world")).
Proof.
  split; [reflexivity|]. split; [reflexivity|].
  exact (extractText_braces (lit "p") (lit "Hello world") (lit ".intro")
           eq_refl eq_refl).
Defined.

(** ** Class names *)

(** The class part [.c1.c2...] of an abbreviation. *)
Definition classList (cs : list str) : str :=
  flat_map (fun c => "."%char :: c) cs.

(** The strings joined by single spaces. *)
Fixpoint joinSpace (cs : list str) : str :=
  match cs with
  | [] => []
  | [c] => c
  | c :: cs' => c ++ " "%char :: joinSpace cs'
  end.

(** The attribute objects [{name: 'class', value: c}], allocated in
    sequence from [h]. *)
Definition classAttrs (h : nat) (cs : list str) : list attr :=
  map (fun oc => mkAttr (fst oc) (lit "class") (snd oc))
      (combine (seq h (length cs)) cs).

Lemma parseAttributes_loop_skip (w : str) :
  forall (done rest : str) (fuel st0 : nat) (res : list attr)
         (nameEnd : option nat) (h : nat),
    forallb nomarkup w = true ->
    parseAttributes_loop (length w + fuel)
      (mkStream (done ++ w ++ rest) (length done) st0) res nameEnd h
    = parseAttributes_loop fuel
        (mkStream (done ++ w ++ rest) (length (done ++ w)) st0) res nameEnd h.
Proof.
  induction w as [|c w IH]; intros done rest fuel st0 res nameEnd h N.
  - now rewrite app_nil_r.
  - cbn [forallb] in N. apply andb_prop in N as [Nc N].
    cbn [length Nat.add app]. cbn [parseAttributes_loop]. unfold peek. cbn [text pos].
    rewrite nth_error_middle.
    assert (E1 : ch_eqb c "#" || ch_eqb c "." = false) by (revert Nc; ascii_cases c).
    assert (E2 : ch_eqb c "[" = false) by (revert Nc; ascii_cases c).
    rewrite E1, E2. cbv iota. unfold next, peek. cbn [text pos].
    rewrite nth_error_middle. cbn [snd]. unfold set_pos. cbn [text pos start].
    replace (done ++ c :: w ++ rest) with ((done ++ [c]) ++ w ++ rest)
      by (now rewrite <- app_assoc).
    replace (S (length done)) with (length (done ++ [c]))
      by (rewrite length_app; cbn; lia).
    rewrite IH by exact N. now rewrite <- !app_assoc.
Qed.

Lemma classList_head (cs : list str) :
  match classList cs with [] => True | d :: _ => reWord d = false end.
Proof. destruct cs as [|c cs]; [exact I | reflexivity]. Qed.

Lemma parseAttributes_loop_classes (cs : list str) :
  forall (done : str) (res : list attr) (nameEnd : option nat) (h fuel st0 : nat),
    Forall (fun c => forallb reWord c = true) cs ->
    length cs <= fuel ->
    parseAttributes_loop fuel (mkStream (done ++ classList cs) (length done) st0)
      res nameEnd h
    = Ok ((res ++ classAttrs h cs,
           match cs, nameEnd with
           | _ :: _, None => Some (length done)
           | _, _ => nameEnd
           end), h + length cs).
Proof.
  induction cs as [|c cs IH]; intros done res nameEnd h fuel st0 W F.
  - cbn [classList flat_map classAttrs length seq combine map].
    rewrite !app_nil_r, Nat.add_0_r.
    destruct fuel; cbn [parseAttributes_loop]; unfold peek; cbn [text pos];
      rewrite nth_error_end; now destruct nameEnd.
  - destruct fuel as [|fuel]; [cbn in F; lia|].
    inversion W as [|c' cs' Wc Wcs]; subst c' cs'.
    change (classList (c :: cs)) with (("."%char :: c) ++ classList cs).
    cbn [app parseAttributes_loop]. unfold peek. cbn [text pos].
    rewrite nth_error_middle.
    change (ch_eqb "." "#" || ch_eqb "." ".") with true.
    change (ch_eqb "." "#") with false. cbv iota.
    unfold next, peek. cbn [text pos]. rewrite nth_error_middle.
    cbn [snd]. unfold set_pos, mark. cbn [text pos start].
    unfold eatWhile. cbn [text pos snd].
    assert (Sk : skipn (S (length done)) (done ++ "."%char :: c ++ classList cs)
                 = c ++ classList cs).
    { replace (done ++ "."%char :: c ++ classList cs)
        with ((done ++ ["."%char]) ++ c ++ classList cs)
        by (now rewrite <- app_assoc).
      replace (S (length done)) with (length (done ++ ["."%char]))
        by (rewrite length_app; cbn; lia).
      rewrite skipn_app, Nat.sub_diag, skipn_all2 by lia. reflexivity. }
    rewrite Sk, (eatRun_exact reWord c (classList cs) Wc (classList_head cs)).
    unfold set_pos, current, substring. cbn [text pos start snd].
    rewrite Sk.
    replace (S (length done) + length c - S (length done)) with (length c) by lia.
    rewrite firstn_exact. unfold bind, fresh.
    replace (done ++ "."%char :: c ++ classList cs)
      with ((done ++ "."%char :: c) ++ classList cs)
      by (rewrite <- app_assoc; reflexivity).
    replace (S (length done) + length c) with (length (done ++ "."%char :: c))
      by (rewrite length_app; cbn; lia).
    rewrite IH by (try exact Wcs; cbn in F; lia).
    f_equal. f_equal; [|cbn [length]; lia]. f_equal.
    + rewrite <- app_assoc. reflexivity.
    + destruct cs; now destruct nameEnd.
Qed.

Lemma clone_classAttrs (cs : list str) :
  forall (h h' : nat),
    mapM clone_attr (classAttrs h cs) h' = Ok (classAttrs h' cs, h' + length cs).
Proof.
  induction cs as [|c cs IH]; intros h h'.
  - cbn. unfold ret. now rewrite Nat.add_0_r.
  - change (classAttrs h (c :: cs)) with (mkAttr h (lit "class") c :: classAttrs (S h) cs).
    cbn [mapM]. unfold bind at 1. unfold clone_attr at 1. unfold bind at 1.
    unfold fresh, ret at 1. unfold bind. rewrite IH. unfold ret.
    cbn [attr_name attr_value length]. do 2 f_equal. lia.
Qed.

Lemma joinSpace_merge (v c : str) (cs : list str) :
  joinSpace ((v ++ " "%char :: c) :: cs) = v ++ " "%char :: joinSpace (c :: cs).
Proof.
  destruct cs as [|d cs]; [reflexivity|].
  cbn [joinSpace]. rewrite <- app_assoc. reflexivity.
Qed.

Lemma optimize_filter_classes (cs : list str) :
  forall (h o : nat) (v : str),
    v <> [] ->
    optimize_filter (classAttrs h cs) [mkAttr o (lit "class") v]
    = [mkAttr o (lit "class") (joinSpace (v :: cs))].
Proof.
  induction cs as [|c cs IH]; intros h o v NE; [reflexivity|].
  change (classAttrs h (c :: cs)) with (mkAttr h (lit "class") c :: classAttrs (S h) cs).
  cbn [optimize_filter attr_name].
  change (existsb (str_eqb (lit "class")) objectPrototypeKeys) with false.
  change (has_name (lit "class") [mkAttr o (lit "class") v]) with true.
  cbv iota. cbn [map attr_name].
  change (str_eqb (lit "class") (lit "class")) with true. cbv iota.
  unfold merge_attr. cbn [attr_name attr_oid attr_value].
  change (str_eqb (toLowerCase (lit "class")) (lit "class")) with true. cbv iota.
  destruct v as [|v0 v]; [contradiction|].
  rewrite IH by discriminate.
  change (lit " " ++ c) with (" "%char :: c).
  now rewrite joinSpace_merge.
Qed.

(** [parseAttributes] on a name followed by class names: the element is
    the name, and the classes are merged into one new [class] attribute
    whose value lists them in order, separated by single spaces. *)
Theorem parseAttributes_classes :
  forall (w c : str) (cs : list str) (h : nat),
    forallb nomarkup w = true ->
    c <> [] ->
    Forall (fun c => forallb reWord c = true) (c :: cs) ->
    parseAttributes (w ++ classList (c :: cs)) h
    = Ok (Some (w, [mkAttr (h + S (length cs)) (lit "class") (joinSpace (c :: cs))]),
          h + S (length cs) + S (length cs)).
Proof.
  intros w c cs h Nw NE W. unfold parseAttributes. unfold bind at 1.
  assert (L : length (w ++ classList (c :: cs))
              = length w + length (classList (c :: cs)))
    by apply length_app.
  rewrite L. unfold create.
  pose proof (parseAttributes_loop_skip w [] (classList (c :: cs))
                (length (classList (c :: cs))) 0 [] None h Nw) as Skip.
  cbn [app] in Skip. change (length []) with 0 in Skip. rewrite Skip.
  assert (Fuel : length (c :: cs) <= length (classList (c :: cs))).
  { clear. generalize (c :: cs). intros l. induction l as [|a l IH]; [cbn; lia|].
    change (classList (a :: l)) with (("."%char :: a) ++ classList l).
    rewrite length_app. cbn [length]. lia. }
  rewrite (parseAttributes_loop_classes (c :: cs) w [] None h _ 0 W Fuel).
  cbn [app].
  change (classAttrs h (c :: cs)) with (mkAttr h (lit "class") c :: classAttrs (S h) cs).
  unfold bind, optimizeAttributes, bind.
  change (mkAttr h (lit "class") c :: classAttrs (S h) cs) with (classAttrs h (c :: cs)).
  rewrite clone_classAttrs. unfold ret.
  change (classAttrs (h + length (c :: cs)) (c :: cs))
    with (mkAttr (h + length (c :: cs)) (lit "class") c
          :: classAttrs (S (h + length (c :: cs))) cs).
  cbn [optimize_filter attr_name].
  change (existsb (str_eqb (lit "class")) objectPrototypeKeys) with false.
  change (has_name (lit "class") []) with false. cbv iota. cbn [app].
  rewrite optimize_filter_classes by exact NE.
  unfold substring. cbn [skipn]. rewrite Nat.sub_0_r, firstn_exact.
  cbn [length]. reflexivity.
Qed.

Lemma parseAttributes_classes_witness :
  forallb nomarkup (lit "div") = true
  /\ lit "nav" <> []
  /\ Forall (fun c => forallb reWord c = true) [lit "nav"; lit "top-bar"; lit "x"]
  /\ parseAttributes (lit "div.nav.top-bar.x") 5
     = Ok (Some (lit "div", [mkAttr 8 (lit "class") (lit "nav top-bar x")]), 11).
Proof.
  split; [reflexivity|]. split; [discriminate|].
  split; [repeat constructor|].
  apply (parseAttributes_classes (lit "div") (lit "nav") [lit "top-bar"; lit "x"] 5);
    [reflexivity | discriminate | repeat constructor].
Defined.

(** ** The names [optimizeAttributes] keeps *)

Lemma optimize_filter_name_set (l : list attr) :
  forall (kept : list attr) (n : str),
    In n (map attr_name (optimize_filter l kept))
    <-> In n (map attr_name kept)
        \/ (In n (map attr_name l)
            /\ existsb (str_eqb n) objectPrototypeKeys = false).
Proof.
  induction l as [|a l IH]; intros kept n; cbn [optimize_filter map In].
  - tauto.
  - destruct (existsb (str_eqb (attr_name a)) objectPrototypeKeys) eqn:Ia.
    + rewrite IH. split; [tauto|]. intros [H|[[E|H] K]]; [tauto | | tauto].
      subst n. congruence.
    + destruct (has_name (attr_name a) kept) eqn:Hn.
      * rewrite IH, merge_names. apply has_name_In in Hn.
        split; [tauto|]. intros [H|[[E|H] K]]; [tauto | | tauto].
        subst n. now left.
      * rewrite IH, map_app, in_app_iff. cbn [map In].
        split; [|tauto]. intros [[H|[E|[]]]|H]; [tauto | | tauto].
        subst n. tauto.
Qed.

(** On attributes none of which is named [__proto__], the attributes
    [optimizeAttributes] returns carry exactly the names of the given
    attributes that are not names of properties every object inherits: an
    attribute named [constructor] or [toString] is dropped, every other
    name is kept. *)
Theorem optimizeAttributes_names :
  forall (attrs : list attr) (h : nat),
  ~ In (lit "__proto__") (map attr_name attrs) ->
  exists r,
    optimizeAttributes attrs h = Ok (r, h + length attrs)
    /\ forall n, In n (map attr_name r)
                 <-> In n (map attr_name attrs)
                     /\ existsb (str_eqb n) objectPrototypeKeys = false.
Proof.
  intros attrs h _. destruct (mapM_clone_attr_spec attrs h) as (l' & E & S & _).
  exists (optimize_filter l' []). split.
  - unfold optimizeAttributes, bind. now rewrite E.
  - intros n. rewrite optimize_filter_name_set. cbn [map In].
    assert (Names : map attr_name l' = map attr_name attrs).
    { transitivity (map attr_name (map strip_attr l')).
      - rewrite map_map. now apply map_ext.
      - rewrite S, map_map. now apply map_ext. }
    rewrite Names. tauto.
Qed.

Lemma optimizeAttributes_names_witness :
  ~ In (lit "__proto__")
       (map attr_name [mkAttr 0 (lit "toString") (lit "a"); mkAttr 1 (lit "value") (lit "x")])
  /\ exists r,
       optimizeAttributes
         [mkAttr 0 (lit "toString") (lit "a"); mkAttr 1 (lit "value") (lit "x")] 2
       = Ok (r, 2 + 2)
       /\ forall n, In n (map attr_name r)
                    <-> In n (map attr_name
                                [mkAttr 0 (lit "toString") (lit "a");
                                 mkAttr 1 (lit "value") (lit "x")])
                        /\ existsb (str_eqb n) objectPrototypeKeys = false.
Proof.
  assert (N : ~ In (lit "__proto__")
                (map attr_name [mkAttr 0 (lit "toString") (lit "a");
                                mkAttr 1 (lit "value") (lit "x")])).
  { cbn. intros [E|[E|[]]]; discriminate E. }
  split; [exact N|].
  exact (optimizeAttributes_names _ 2 N).
Defined.
